(** * NixPyFram: the log console

    A shallow embedding of [app/api/logs.py] and of the parts of
    [app/core/logger.py] it works with: the ring buffer of recent
    records ([log_queue]), the registry of live viewers
    ([active_connections]) with [broadcast_log] and [websocket_logs],
    the listing of log files and the paginated read of one file.

    Python values are modelled as follows.
    - [str] is a sequence of Unicode code points, [list N].
    - [int] is [Z]; [//] is [Z.div] (both round towards minus infinity).
    - an exception is a value of [exn]; a call that may raise returns a
      [result].
    - the two module-level objects shared by all coroutines, [log_queue]
      and [active_connections], are the two fields of [State]; every
      function that touches them takes the state and returns the new one.
    - a coroutine is a function from state to state when it runs alone,
      and a [task] that is resumed from await to await when several run.
    - what the outside world decides (whether a send succeeds, what a
      file holds) is an explicit argument: [World], [directory].
    - the [json] module is an interface, [Json]; a codec for it is
      written out and proved to read back what it writes.
    - the configuration that both modules read, [app/core/config.py],
      is a dict of nested dicts, [ConfigManager.dict]; merging builds
      new dicts and changes none in place. *)

From Stdlib Require Import String Ascii.
From Stdlib Require Import List ZArith NArith Lia Bool Arith.
From Stdlib Require Import Permutation Sorting.Sorted.
Import ListNotations.

Set Implicit Arguments.
Local Open Scope Z_scope.

(* ===================================================================== *)
(** ** Strings *)

Abbreviation char := N (only parsing).
Abbreviation str := (list N) (only parsing).

Definition chr (a : ascii) : char := N_of_ascii a.

(** A literal of the program text. *)
Fixpoint lit (s : string) : str :=
  match s with
  | EmptyString => []
  | String a s' => chr a :: lit s'
  end.

Fixpoint str_eqb (s t : str) : bool :=
  match s, t with
  | [], [] => true
  | a :: s', b :: t' => N.eqb a b && str_eqb s' t'
  | _, _ => false
  end.

(** [str.isspace] on one code point: the characters whose bidirectional
    class is WS, B or S, or whose category is Zs. *)
Definition isspace (c : char) : bool :=
  ((9 <=? c) && (c <=? 13) || (28 <=? c) && (c <=? 32)
   || (c =? 133) || (c =? 160) || (c =? 5760)
   || (8192 <=? c) && (c <=? 8202)
   || (c =? 8232) || (c =? 8233) || (c =? 8239) || (c =? 8287)
   || (c =? 12288))%N.

Fixpoint lstrip (s : str) : str :=
  match s with
  | [] => []
  | c :: s' => if isspace c then lstrip s' else s
  end.

Definition rstrip (s : str) : str := rev (lstrip (rev s)).

(** [s.strip()] *)
Definition strip (s : str) : str := rstrip (lstrip s).

(** [s.endswith(suffix)] *)
Fixpoint startswith (s prefix : str) {struct prefix} : bool :=
  match prefix, s with
  | [], _ => true
  | p :: prefix', c :: s' => N.eqb p c && startswith s' prefix'
  | _ :: _, [] => false
  end.

Definition endswith (s suffix : str) : bool :=
  startswith (rev s) (rev suffix).

(** The decimal digit [d] (0..9) as a character. *)
Definition digit (d : Z) : char := (48 + Z.to_N d)%N.

(** The [w] low decimal digits of [n], most significant first: the
    zero-padded rendering [%0wd] of a number below [10^w]. *)
Fixpoint digits (w : nat) (n : Z) : str :=
  match w with
  | O => []
  | S w' => digits w' (n / 10) ++ [digit (n mod 10)]
  end.

(** Decimal digits of a positive number, with fuel (a number below
    [10^fuel] is rendered in full). *)
Fixpoint decimal_fuel (fuel : nat) (n : Z) : str :=
  match fuel with
  | O => []
  | S fuel' =>
      if n <? 10 then [digit n]
      else decimal_fuel fuel' (n / 10) ++ [digit (n mod 10)]
  end.

(** [str(n)] for an [int]. *)
Definition str_of_int (n : Z) : str :=
  if n <? 0 then chr "-" :: decimal_fuel (S (Z.to_nat (Z.log2 (- n)))) (- n)
  else decimal_fuel (S (Z.to_nat (Z.log2 n))) n.

(** [s.ljust(w)], the padding of [f"{s:<w}"]. *)
Definition ljust (w : nat) (s : str) : str :=
  s ++ repeat (chr " ") (w - length s)%nat.

(** [l[start:end]] for a list and two indices, negative ones counted
    from the end as Python does. *)
Definition slice_index (len i : Z) : Z :=
  if i <? 0 then Z.max 0 (len + i) else Z.min i len.

Definition slice {A} (l : list A) (start stop : Z) : list A :=
  let len := Z.of_nat (length l) in
  let a := slice_index len start in
  let b := slice_index len stop in
  firstn (Z.to_nat (b - a)) (skipn (Z.to_nat a) l).

(* ===================================================================== *)
(** ** Exceptions *)

Inductive exn : Type :=
| HTTPException (status_code : Z)
| ValueError
| OtherException.

Inductive result (A : Type) : Type :=
| Ok (a : A)
| Raise (e : exn).
Arguments Ok {A} a.
Arguments Raise {A} e.

Definition bind {A B} (r : result A) (k : A -> result B) : result B :=
  match r with
  | Ok a => k a
  | Raise e => Raise e
  end.

Declare Scope result_scope.
Delimit Scope result_scope with result.
Notation "x <- r ;; k" := (bind r (fun x => k))
  (at level 61, r at next level, right associativity) : result_scope.

(** [try: r except Exception: h] as far as the model needs it: every
    member of [exn] derives from [Exception]. *)
Definition try_except {A} (r : result A) (h : exn -> result A) : result A :=
  match r with
  | Ok a => Ok a
  | Raise e => h e
  end.

(* ===================================================================== *)
(** ** [collections.deque(maxlen=...)] and [list] *)

(** [q.append(x)] on a bounded deque: the element goes to the right end
    and, when the deque has grown past [maxlen], one element is dropped
    from the left end. *)
Definition deque_append {A} (maxlen : nat) (q : list A) (x : A) : list A :=
  let q' := q ++ [x] in
  if (maxlen <? length q')%nat then tl q' else q'.

Section ListOps.
Context {A : Type} (eqb : A -> A -> bool).

(** [x in l] *)
Fixpoint list_contains (x : A) (l : list A) : bool :=
  match l with
  | [] => false
  | y :: l' => eqb y x || list_contains x l'
  end.

(** [l.remove(x)]: removes the first occurrence, [ValueError] when
    there is none. *)
Fixpoint list_remove (x : A) (l : list A) : result (list A) :=
  match l with
  | [] => Raise ValueError
  | y :: l' =>
      if eqb y x then Ok l'
      else match list_remove x l' with
           | Ok r => Ok (y :: r)
           | Raise e => Raise e
           end
  end.
End ListOps.

(* ===================================================================== *)
(** ** [app/core/logger.py]: the record sent to viewers *)

(** [datetime]: the fields [strftime] reads. *)
Record datetime : Type := {
  year : Z;
  month : Z;
  day : Z;
  hour : Z;
  minute : Z;
  second : Z;
  microsecond : Z
}.

(** One conversion of [strftime]. A character that is no conversion
    stays in the output behind its percent sign. *)
Definition directive (c : ascii) (t : datetime) : str :=
  if Ascii.eqb c "Y" then digits 4 (year t)
  else if Ascii.eqb c "m" then digits 2 (month t)
  else if Ascii.eqb c "d" then digits 2 (day t)
  else if Ascii.eqb c "H" then digits 2 (hour t)
  else if Ascii.eqb c "M" then digits 2 (minute t)
  else if Ascii.eqb c "S" then digits 2 (second t)
  else if Ascii.eqb c "f" then digits 6 (microsecond t)
  else if Ascii.eqb c "%" then [chr "%"]
  else [chr "%"; chr c].

(** [t.strftime(fmt)]: a percent sign takes the next character as its
    conversion, every other character is copied. *)
Fixpoint strftime (fmt : string) (t : datetime) : str :=
  match fmt with
  | EmptyString => []
  | String a rest =>
      if Ascii.eqb a "%" then
        match rest with
        | EmptyString => [chr "%"]
        | String c rest' => directive c t ++ strftime rest' t
        end
      else chr a :: strftime rest t
  end.

(** The loguru record, as far as [websocket_handler] reads it. *)
Record LogRecord : Type := {
  rec_time : datetime;
  rec_level : str;
  rec_name : str;
  rec_function : str;
  rec_line : Z;
  rec_message : str
}.

(** The dictionary [log_entry] that is broadcast. *)
Record LogEntry : Type := {
  time : str;
  level : str;
  name : str;
  function : str;
  line : Z;
  message : str;
  formatted : str
}.

(** The dictionary built in [websocket_handler] (logger.py, 49-60). *)
Definition log_entry (r : LogRecord) : LogEntry :=
  {| time := slice (strftime "%Y-%m-%d %H:%mm:%S.%f" (rec_time r)) 0 (-3);
     level := rec_level r;
     name := rec_name r;
     function := rec_function r;
     line := rec_line r;
     message := rec_message r;
     formatted :=
       slice (strftime "%Y-%m-%d %H:%M:%S.%f" (rec_time r)) 0 (-3)
         ++ lit " | "
         ++ ljust 8 (rec_level r) ++ lit " | "
         ++ rec_name r ++ lit ":" ++ rec_function r ++ lit ":"
         ++ str_of_int (rec_line r) ++ lit " | "
         ++ rec_message r |}.

(** The timestamp prefix of a formatted line: what stands before the
    first [" | "] separator. *)
Fixpoint before_separator (s : str) : str :=
  match s with
  | [] => []
  | c :: s' => if startswith s (lit " | ") then [] else c :: before_separator s'
  end.

(* ===================================================================== *)
(** ** [app/api/logs.py]: ring buffer and live registry *)

(** A [WebSocket] object; two are the same object when their numbers
    agree ([WebSocket] compares by identity). *)
Definition WebSocket := nat.

(** The two module-level objects: [log_queue = deque(maxlen=1000)] and
    [active_connections = []]. *)
Record State : Type := {
  log_queue : list LogEntry;
  active_connections : list WebSocket
}.

Definition maxlen : nat := 1000.

(** What the transport decides. *)
Record World : Type := {
  (** [connection.client_state == WebSocketState.CONNECTED] *)
  client_connected : WebSocket -> bool;
  (** [send_json] returns rather than raises *)
  send_json_ok : WebSocket -> LogEntry -> bool;
  (** [close] returns rather than raises *)
  close_ok : WebSocket -> bool;
  (** [send_text] returns rather than raises *)
  send_text_ok : WebSocket -> bool
}.

(** What can be observed on the transport and on the registry. *)
Inductive event : Type :=
| EvAccept (ws : WebSocket)
| EvRegister (ws : WebSocket)
| EvUnregister (ws : WebSocket)
| EvSendJson (ws : WebSocket) (log : LogEntry) (delivered : bool)
| EvSendText (ws : WebSocket) (data : str) (delivered : bool)
| EvReceive (ws : WebSocket) (data : str)
| EvClose (ws : WebSocket) (closed : bool)
| EvLogError.

(** The loop of [broadcast_log] (logs.py, 181-190) over the copy
    [snapshot] of the registry, with [reg] the registry itself.  The
    [try] covers the state test and the send; the handler closes the
    connection inside a [try] of its own and then calls
    [active_connections.remove], which is covered by nothing. *)
Fixpoint broadcast_loop (w : World) (log : LogEntry)
    (snapshot : list WebSocket) (reg : list WebSocket)
    : result (list WebSocket * list event) :=
  match snapshot with
  | [] => Ok (reg, [])
  | connection :: rest =>
      if client_connected w connection then
        if send_json_ok w connection log then
          match broadcast_loop w log rest reg with
          | Ok (reg', tr) => Ok (reg', EvSendJson connection log true :: tr)
          | Raise e => Raise e
          end
        else
          match list_remove Nat.eqb connection reg with
          | Raise e => Raise e
          | Ok reg1 =>
              match broadcast_loop w log rest reg1 with
              | Ok (reg', tr) =>
                  Ok (reg', EvSendJson connection log false
                              :: EvClose connection (close_ok w connection)
                              :: EvUnregister connection :: tr)
              | Raise e => Raise e
              end
          end
      else broadcast_loop w log rest reg
  end.

(** [broadcast_log(log)] (logs.py, 171-190). *)
Definition broadcast_log (w : World) (log : LogEntry) (st : State)
    : result (State * list event) :=
  let queue := deque_append maxlen (log_queue st) log in
  match broadcast_loop w log (active_connections st) (active_connections st) with
  | Ok (reg, tr) => Ok ({| log_queue := queue; active_connections := reg |}, tr)
  | Raise e => Raise e
  end.

(** [websocket_handler(message)] (logger.py, 46-63). *)
Definition websocket_handler (w : World) (r : LogRecord) (st : State)
    : result (State * list event) :=
  broadcast_log w (log_entry r) st.

(** A run of publishes, one after the other. *)
Fixpoint publish_all (w : World) (logs : list LogEntry) (st : State)
    : result State :=
  match logs with
  | [] => Ok st
  | log :: logs' =>
      match broadcast_log w log st with
      | Ok (st', _) => publish_all w logs' st'
      | Raise e => Raise e
      end
  end.

(** What [receive_text] gives the handler. *)
Inductive inbound : Type :=
| Text (data : str)
| Disconnected          (* [WebSocketDisconnect] *)
| Failed.               (* any other exception *)

(** The backlog loop of [websocket_logs] (logs.py, 149-153): the records
    of the queue in order, left at the first send that raises. *)
Fixpoint replay (w : World) (ws : WebSocket) (queue : list LogEntry)
    : list event :=
  match queue with
  | [] => []
  | log :: queue' =>
      if send_json_ok w ws log then EvSendJson ws log true :: replay w ws queue'
      else [EvSendJson ws log false]
  end.

(** The two handlers of [websocket_logs] (logs.py, 160-167) take the
    connection out of the registry when it is there. *)
Definition safe_remove (ws : WebSocket) (reg : list WebSocket)
    : list WebSocket :=
  if list_contains Nat.eqb ws reg then
    match list_remove Nat.eqb ws reg with
    | Ok reg' => reg'
    | Raise _ => reg
    end
  else reg.

(** The heartbeat loop (logs.py, 156-167) on the messages that arrive:
    the registry it leaves, what it did, and whether the coroutine has
    returned (it has not when it waits in [receive_text] for a message
    that has not come). *)
Fixpoint heartbeat_loop (w : World) (ws : WebSocket) (msgs : list inbound)
    (reg : list WebSocket) : list WebSocket * list event * bool :=
  match msgs with
  | [] => (reg, [], false)
  | Text data :: msgs' =>
      if str_eqb data (lit "heartbeat") then
        if send_text_ok w ws then
          let '(reg', tr, fin) := heartbeat_loop w ws msgs' reg in
          (reg', EvReceive ws data :: EvSendText ws (lit "heartbeat") true :: tr, fin)
        else
          (safe_remove ws reg,
           [EvReceive ws data; EvSendText ws (lit "heartbeat") false;
            EvLogError; EvUnregister ws], true)
      else
        let '(reg', tr, fin) := heartbeat_loop w ws msgs' reg in
        (reg', EvReceive ws data :: tr, fin)
  | Disconnected :: _ => (safe_remove ws reg, [EvUnregister ws], true)
  | Failed :: _ => (safe_remove ws reg, [EvLogError; EvUnregister ws], true)
  end.

(** [websocket_logs(websocket)] (logs.py, 141-167), run without another
    coroutine touching the state in between: the state it leaves, what
    it did in order, and whether it has returned. *)
Definition websocket_logs (w : World) (ws : WebSocket) (msgs : list inbound)
    (st : State) : State * list event * bool :=
  let reg := active_connections st ++ [ws] in
  let backlog := replay w ws (log_queue st) in
  let '(reg', tr, fin) := heartbeat_loop w ws msgs reg in
  ({| log_queue := log_queue st; active_connections := reg' |},
   EvAccept ws :: EvRegister ws :: backlog ++ tr, fin).

(** *** [broadcast_log] as a coroutine

    Every publish runs as a task of its own
    ([loop.create_task(websocket_handler(message))], logger.py 65-68),
    and a task gives way to the others where it awaits: in
    [send_json] and in [close].  A task is where it has got to. *)
Inductive task : Type :=
| Start (log : LogEntry)
| InSend (log : LogEntry) (connection : WebSocket) (rest : list WebSocket)
| InClose (log : LogEntry) (connection : WebSocket) (rest : list WebSocket)
| Finished
| Crashed (e : exn).

(** The head of the loop over what is left of the copy: a connection
    that is not connected is passed without an await. *)
Fixpoint enter_loop (w : World) (log : LogEntry) (snapshot : list WebSocket)
    : task :=
  match snapshot with
  | [] => Finished
  | connection :: rest =>
      if client_connected w connection then InSend log connection rest
      else enter_loop w log rest
  end.

(** The task runs from where it is to its next await or to its end. *)
Definition resume (w : World) (t : task) (st : State)
    : task * State * list event :=
  match t with
  | Start log =>
      (enter_loop w log (active_connections st),
       {| log_queue := deque_append maxlen (log_queue st) log;
          active_connections := active_connections st |},
       [])
  | InSend log connection rest =>
      if send_json_ok w connection log then
        (enter_loop w log rest, st, [EvSendJson connection log true])
      else (InClose log connection rest, st, [EvSendJson connection log false])
  | InClose log connection rest =>
      match list_remove Nat.eqb connection (active_connections st) with
      | Ok reg =>
          (enter_loop w log rest,
           {| log_queue := log_queue st; active_connections := reg |},
           [EvClose connection (close_ok w connection); EvUnregister connection])
      | Raise e => (Crashed e, st, [EvClose connection (close_ok w connection)])
      end
  | Finished => (Finished, st, [])
  | Crashed e => (Crashed e, st, [])
  end.

(** The task runs with nothing else in between. *)
Fixpoint run_alone (fuel : nat) (w : World) (t : task) (st : State)
    : task * State * list event :=
  match fuel with
  | O => (t, st, [])
  | S fuel' =>
      match t with
      | Finished | Crashed _ => (t, st, [])
      | _ =>
          let '(t1, st1, tr1) := resume w t st in
          let '(t2, st2, tr2) := run_alone fuel' w t1 st1 in
          (t2, st2, tr1 ++ tr2)
      end
  end.

(** What the event loop does next: it resumes the task number [i], or
    the handler of a viewer that has gone takes its connection out of
    the registry (logs.py, 160-163). *)
Inductive action : Type :=
| Resume (i : nat)
| Disconnect (ws : WebSocket).

Fixpoint set_nth {A : Type} (i : nat) (x : A) (l : list A) : list A :=
  match l, i with
  | [], _ => []
  | _ :: l', O => x :: l'
  | y :: l', S i' => y :: set_nth i' x l'
  end.

Fixpoint run_schedule (w : World) (schedule : list action)
    (tasks : list task) (st : State) : list task * State :=
  match schedule with
  | [] => (tasks, st)
  | Resume i :: schedule' =>
      match nth_error tasks i with
      | Some t =>
          let '(t', st', _) := resume w t st in
          run_schedule w schedule' (set_nth i t' tasks) st'
      | None => run_schedule w schedule' tasks st
      end
  | Disconnect ws :: schedule' =>
      run_schedule w schedule' tasks
        {| log_queue := log_queue st;
           active_connections := safe_remove ws (active_connections st) |}
  end.

(** The position of the first event that satisfies [p]. *)
Fixpoint find_index (p : event -> bool) (tr : list event) : option nat :=
  match tr with
  | [] => None
  | e :: tr' =>
      if p e then Some O
      else match find_index p tr' with
           | Some i => Some (S i)
           | None => None
           end
  end.

Definition is_register (ws : WebSocket) (e : event) : bool :=
  match e with
  | EvRegister ws' => Nat.eqb ws' ws
  | _ => false
  end.

Definition is_send_json (ws : WebSocket) (e : event) : bool :=
  match e with
  | EvSendJson ws' _ _ => Nat.eqb ws' ws
  | _ => false
  end.

(* ===================================================================== *)
(** ** The log directory *)

(** One entry of the log directory: what [stat], [open] and
    [zipfile.ZipFile] give for it. *)
Record File : Type := {
  file_name : str;
  (** [stat().st_ctime]; only compared and handed to [fromtimestamp] *)
  st_ctime : Z;
  (** [stat().st_size] *)
  st_size : Z;
  (** [open(path, 'r', encoding='utf-8').readlines()], the lines with
      their line ends; [None] when the open or the decoding raises *)
  text_lines : option (list str);
  (** [zipfile.ZipFile(path, 'r')]: the members, by name, each as the
      lines [io.TextIOWrapper(f, encoding='utf-8').readlines()] gives;
      [None] when the file is no archive *)
  zip_members : option (list (str * list str))
}.

(** The directory, in the order the system lists it. *)
Definition directory := list File.

(** [log_dir.glob("*" + suffix)] *)
Definition glob (dir : directory) (suffix : str) : list File :=
  filter (fun f => endswith (file_name f) suffix) dir.

(** [sorted(l, key=key, reverse=True)]: decreasing keys, and elements of
    equal key in the order they had in [l]. *)
Section Sorted.
Context {A : Type} (key : A -> Z).

Fixpoint insert_reverse (x : A) (l : list A) : list A :=
  match l with
  | [] => [x]
  | y :: l' => if key x <? key y then y :: insert_reverse x l' else x :: l
  end.

Fixpoint sorted_reverse (l : list A) : list A :=
  match l with
  | [] => []
  | x :: l' => insert_reverse x (sorted_reverse l')
  end.
End Sorted.

(** [get_log_files()] (logger.py, 124-140) on the directory [dir]. *)
Definition get_log_files (dir : directory) : list (File * Z) :=
  let log_files :=
    map (fun f => (f, st_ctime f)) (glob dir (lit ".log"))
      ++ map (fun f => (f, st_ctime f)) (glob dir (lit ".log.zip")) in
  sorted_reverse snd log_files.

(** [f"{x:.2f}"] for the float [num / den], which the callers keep
    exact: the hundredths nearest to the value, a tie going to the even
    one. *)
Definition round_half_even (num den : Z) : Z :=
  let q := num / den in
  let r := num mod den in
  if 2 * r <? den then q
  else if den <? 2 * r then q + 1
  else if Z.even q then q else q + 1.

Definition format_2f (num den : Z) : str :=
  let h := round_half_even (100 * num) den in
  str_of_int (h / 100) ++ lit "." ++ digits 2 (h mod 100).

(** The loop of [format_file_size] over the units that are left, the
    size being [num / den]. *)
Fixpoint format_units (units : list string) (num den : Z) : str :=
  match units with
  | [] => format_2f num den ++ lit " TB"
  | unit :: units' =>
      if num <? 1024 * den then format_2f num den ++ lit " " ++ lit unit
      else format_units units' num (den * 1024)
  end.

(** [format_file_size(size_in_bytes)] (logs.py, 24-37).  The divisions
    by [1024.0] are exact in floating point for a size below [2^53]. *)
Definition format_file_size (size_in_bytes : Z) : str :=
  format_units ["B"; "KB"; "MB"; "GB"]%string size_in_bytes 1.

(** One dictionary of the listing. *)
Record FileInfo : Type := {
  info_ctime : str;
  info_filename : str;
  info_size : str
}.

(** [get_log_files_list()] (logs.py, 62-70); [fromtimestamp] is
    [datetime.fromtimestamp], which depends on the local time zone. *)
Definition get_log_files_list (fromtimestamp : Z -> datetime)
    (dir : directory) : list FileInfo :=
  map (fun pc : File * Z =>
         {| info_ctime := strftime "%Y-%m-%d %H:%M:%S" (fromtimestamp (snd pc));
            info_filename := file_name (fst pc);
            info_size := format_file_size (st_size (fst pc)) |})
      (filter (fun pc : File * Z => 0 <? st_size (fst pc)) (get_log_files dir)).

(** [a // b], which raises [ZeroDivisionError] for [b = 0]. *)
Definition floordiv (a b : Z) : result Z :=
  if b =? 0 then Raise OtherException else Ok (a / b).

(** [file_path.suffix == '.zip']: the name ends with [.zip] and that dot
    is not its first character. *)
Definition suffix_is_zip (f : File) : bool :=
  endswith (file_name f) (lit ".zip") && (4 <? length (file_name f))%nat.

(** [read_log_file(file_path, page, page_size)] (logger.py, 142-178). *)
Definition read_log_file (f : File) (page page_size : Z)
    : result (Z * list str) :=
  let paged (content : list str) : result (Z * list str) :=
    (total_pages <- floordiv (Z.of_nat (length content) + page_size - 1) page_size ;;
     let start_idx := (page - 1) * page_size in
     let end_idx := start_idx + page_size in
     Ok (total_pages, slice content start_idx end_idx))%result in
  if suffix_is_zip f then
    match zip_members f with
    | None => Raise OtherException
    | Some members =>
        match find (fun m => endswith (fst m) (lit ".log")) members with
        | None => Ok (0, [])
        | Some (_, content) => paged content
        end
    end
  else
    match text_lines f with
    | None => Raise OtherException
    | Some content => paged content
    end.

(* ===================================================================== *)
(** ** Pagination *)

(** What [json.loads] does with a line. *)
Inductive loads_result (V : Type) : Type :=
| Parsed (v : V)
| JSONDecodeError
| LoadsError.           (* an exception that is no [JSONDecodeError] *)
Arguments Parsed {V} v.
Arguments JSONDecodeError {V}.
Arguments LoadsError {V}.

(** The [json] module of the standard library. *)
Class Json : Type := {
  json_value : Type;
  (** [json.loads(s)] *)
  json_loads : str -> loads_result json_value;
  (** [json.dumps(v, ensure_ascii=False)] *)
  json_dumps : json_value -> str
}.

(** The dictionary [get_log_content] returns. *)
Record Page : Type := {
  logs : list str;
  total : Z;
  total_pages : Z;
  current_page : Z;
  page_size : Z
}.

(** [os.path.exists(log_dir / filename)] and the file it names. *)
Definition lookup (dir : directory) (filename : str) : option File :=
  find (fun f => str_eqb (file_name f) filename) dir.

Section Pagination.
Context {J : Json}.

(** The body of the loop over the lines of the page (logs.py,
    118-124). *)
Definition render_line (log : str) : result str :=
  match json_loads log with
  | Parsed log_obj => Ok (json_dumps log_obj)
  | JSONDecodeError => Ok (strip log)
  | LoadsError => Raise OtherException
  end.

Fixpoint render_lines (lines : list str) : result (list str) :=
  match lines with
  | [] => Ok []
  | log :: lines' =>
      (s <- render_line log ;;
       rest <- render_lines lines' ;;
       Ok (s :: rest))%result
  end.

(** The [try] block of [get_log_content] (logs.py, 86-133). *)
Definition get_log_content_body (dir : directory) (filename : str)
    (page page_size : Z) : result Page :=
  match get_log_files dir with
  | [] => Raise (HTTPException 404)
  | _ :: _ =>
      match lookup dir filename with
      | None => Raise (HTTPException 404)
      | Some log_file =>
          match text_lines log_file with
          | None => Raise OtherException
          | Some all_logs =>
              (let total_logs := Z.of_nat (length all_logs) in
               total_pages <- floordiv (total_logs + page_size - 1) page_size ;;
               let page := if total_pages <? page then total_pages else page in
               let page := if page <? 1 then 1 else page in
               let start_idx := (page - 1) * page_size in
               let end_idx := Z.min (start_idx + page_size) total_logs in
               logs <- render_lines (slice all_logs start_idx end_idx) ;;
               Ok {| logs := logs;
                     total := total_logs;
                     total_pages := total_pages;
                     current_page := page;
                     page_size := page_size |})%result
          end
      end
  end.

(** [get_log_content(filename, page, page_size)] (logs.py, 73-138):
    an [HTTPException] of the body goes through, any other exception
    becomes the status 500. *)
Definition get_log_content (dir : directory) (filename : str)
    (page page_size : Z) : result Page :=
  try_except (get_log_content_body dir filename page page_size)
    (fun e => match e with
              | HTTPException status => Raise (HTTPException status)
              | _ => Raise (HTTPException 500)
              end).
End Pagination.

(** The bounds FastAPI checks before it calls [get_log_content]:
    [page: Query(1, ge=1)] and [page_size: Query(100, ge=1, le=1000)]. *)
Definition valid_query (page page_size : Z) : Prop :=
  1 <= page /\ 1 <= page_size <= 1000.

(* ===================================================================== *)
(** ** A JSON codec

    An instance of [Json] to run the pagination on: the JSON documents
    without fractions and exponents, read and written the way
    [json.loads] and [json.dumps(..., ensure_ascii=False)] do it.  A
    number with a fraction or an exponent, [NaN] and [Infinity] are
    floats in Python; they are outside of this codec, which reports
    them as a decoding error. *)

#[local] Unset Elimination Schemes.
Inductive json : Type :=
| JNull
| JBool (b : bool)
| JInt (n : Z)
| JStr (s : str)
| JArr (items : list json)
| JObj (members : list (str * json)).
#[local] Set Elimination Schemes.

(** Induction on a value, through its arrays and objects. *)
Section JsonInduction.
Variable P : json -> Prop.
Hypothesis Hnull : P JNull.
Hypothesis Hbool : forall b, P (JBool b).
Hypothesis Hint : forall n, P (JInt n).
Hypothesis Hstr : forall s, P (JStr s).
Hypothesis Harr : forall items, Forall P items -> P (JArr items).
Hypothesis Hobj :
  forall members, Forall (fun m => P (snd m)) members -> P (JObj members).

Fixpoint json_ind (v : json) : P v :=
  match v with
  | JNull => Hnull
  | JBool b => Hbool b
  | JInt n => Hint n
  | JStr s => Hstr s
  | JArr items =>
      Harr ((fix go (l : list json) : Forall P l :=
               match l with
               | [] => Forall_nil P
               | x :: l' => Forall_cons x (json_ind x) (go l')
               end) items)
  | JObj members =>
      Hobj ((fix go (l : list (str * json)) : Forall (fun m => P (snd m)) l :=
               match l with
               | [] => Forall_nil _
               | m :: l' =>
                   @Forall_cons _ (fun m => P (snd m)) m l' (json_ind (snd m)) (go l')
               end) members)
  end.
End JsonInduction.

(** *** Writing *)

Definition hex_digit (d : N) : char :=
  (if d <? 10 then 48 + d else 87 + d)%N.

(** One character inside a string literal. *)
Definition escape (c : char) : str :=
  (if c =? 34 then [92; 34]
   else if c =? 92 then lit "\\"
   else if c =? 10 then lit "\n"
   else if c =? 13 then lit "\r"
   else if c =? 9 then lit "\t"
   else if c =? 8 then lit "\b"
   else if c =? 12 then lit "\f"
   else if c <? 32 then lit "\u00" ++ [hex_digit (c / 16); hex_digit (c mod 16)]
   else [c])%N.

Definition quote (s : str) : str :=
  34%N :: flat_map escape s ++ [34%N].

(** [", ".join(parts)] *)
Fixpoint join (parts : list str) : str :=
  match parts with
  | [] => []
  | [p] => p
  | p :: parts' => p ++ lit ", " ++ join parts'
  end.

Fixpoint dumps (v : json) : str :=
  match v with
  | JNull => lit "null"
  | JBool true => lit "true"
  | JBool false => lit "false"
  | JInt n => str_of_int n
  | JStr s => quote s
  | JArr items => lit "[" ++ join (map dumps items) ++ lit "]"
  | JObj members =>
      lit "{"
        ++ join (map (fun m => quote (fst m) ++ lit ": " ++ dumps (snd m)) members)
        ++ lit "}"
  end.

(** *** Reading *)

Definition is_ws (c : char) : bool :=
  ((c =? 32) || (c =? 9) || (c =? 10) || (c =? 13))%N.

Fixpoint skip_ws (s : str) : str :=
  match s with
  | [] => []
  | c :: s' => if is_ws c then skip_ws s' else s
  end.

Definition is_digit (c : char) : bool := ((48 <=? c) && (c <=? 57))%N.

Definition digit_value (c : char) : Z := Z.of_N c - 48.

Fixpoint scan_digits (acc : Z) (s : str) : Z * str :=
  match s with
  | [] => (acc, [])
  | c :: s' =>
      if is_digit c then scan_digits (acc * 10 + digit_value c) s' else (acc, s)
  end.

(** The digits of an integer: a lone zero, or digits that begin with
    another one. *)
Definition parse_natural (s : str) : option (Z * str) :=
  match s with
  | [] => None
  | c :: s' =>
      if (c =? 48)%N then Some (0, s')
      else if is_digit c then Some (scan_digits 0 s)
      else None
  end.

(** What may not follow the digits of an integer. *)
Definition continues_number (s : str) : bool :=
  match s with
  | [] => false
  | c :: _ => is_digit c || (c =? 46)%N || (c =? 101)%N || (c =? 69)%N
  end.

Definition parse_int (s : str) : option (Z * str) :=
  let signed (sign : Z) (digits : str) :=
    match parse_natural digits with
    | Some (n, rest) =>
        if continues_number rest then None else Some (sign * n, rest)
    | None => None
    end in
  match s with
  | [] => None
  | c :: s' => if (c =? 45)%N then signed (-1) s' else signed 1 s
  end.

Definition hex_value (c : char) : option N :=
  (if (48 <=? c) && (c <=? 57) then Some (c - 48)
   else if (97 <=? c) && (c <=? 102) then Some (c - 87)
   else if (65 <=? c) && (c <=? 70) then Some (c - 55)
   else None)%N.

Definition hex4 (a b c d : char) : option N :=
  match hex_value a, hex_value b, hex_value c, hex_value d with
  | Some x, Some y, Some z, Some t => Some (((x * 16 + y) * 16 + z) * 16 + t)%N
  | _, _, _, _ => None
  end.

(** The character a backslash and [e] stand for. *)
Definition unescape (e : char) : option char :=
  (if e =? 34 then Some 34
   else if e =? 92 then Some 92
   else if e =? 47 then Some 47
   else if e =? 98 then Some 8
   else if e =? 102 then Some 12
   else if e =? 110 then Some 10
   else if e =? 114 then Some 13
   else if e =? 116 then Some 9
   else None)%N.

Definition cons_char (c : char) (r : option (str * str)) : option (str * str) :=
  match r with
  | Some (s, rest) => Some (c :: s, rest)
  | None => None
  end.

(** A string literal behind its opening quote.  A [\u] escape takes
    four hexadecimal digits, and two of them that form a surrogate pair
    give one character; a raw control character ends the parse. *)
Fixpoint parse_string (s : str) : option (str * str) :=
  match s with
  | [] => None
  | c :: s1 =>
      if (c =? 34)%N then Some ([], s1)
      else if (c =? 92)%N then
        match s1 with
        | [] => None
        | e :: s2 =>
            if (e =? 117)%N then
              match s2 with
              | h1 :: h2 :: h3 :: h4 :: s6 =>
                  match hex4 h1 h2 h3 h4 with
                  | None => None
                  | Some uni =>
                      let single := cons_char uni (parse_string s6) in
                      if ((55296 <=? uni) && (uni <=? 56319))%N then
                        match s6 with
                        | b :: u :: g1 :: g2 :: g3 :: g4 :: s12 =>
                            if ((b =? 92) && (u =? 117))%N then
                              match hex4 g1 g2 g3 g4 with
                              | Some uni2 =>
                                  if ((56320 <=? uni2) && (uni2 <=? 57343))%N then
                                    cons_char
                                      (65536 + (uni - 55296) * 1024 + (uni2 - 56320))%N
                                      (parse_string s12)
                                  else single
                              | None => single
                              end
                            else single
                        | _ => single
                        end
                      else single
                  end
              | _ => None
              end
            else
              match unescape e with
              | Some ch => cons_char ch (parse_string s2)
              | None => None
              end
        end
      else if (c <? 32)%N then None
      else cons_char c (parse_string s1)
  end.

(** [d[key] = v] on a dictionary kept in insertion order. *)
Fixpoint dict_set (key : str) (v : json) (d : list (str * json))
    : list (str * json) :=
  match d with
  | [] => [(key, v)]
  | (k, x) :: d' =>
      if str_eqb k key then (k, v) :: d' else (k, x) :: dict_set key v d'
  end.

(** [dict(pairs)] *)
Definition dict_of_pairs (pairs : list (str * json)) : list (str * json) :=
  fold_left (fun d kv => dict_set (fst kv) (snd kv) d) pairs [].

(** The scanner, with fuel for its recursion: a value; the elements of
    an array behind its bracket; the members of an object behind its
    brace. *)
Fixpoint parse_value (fuel : nat) (s : str) {struct fuel}
    : option (json * str) :=
  match fuel with
  | O => None
  | S fuel' =>
      match s with
      | [] => None
      | c :: s' =>
          if (c =? 34)%N then
            match parse_string s' with
            | Some (x, rest) => Some (JStr x, rest)
            | None => None
            end
          else if (c =? 123)%N then
            match skip_ws s' with
            | [] => None
            | c1 :: s1 =>
                if (c1 =? 125)%N then Some (JObj [], s1)
                else
                  match parse_members fuel' (c1 :: s1) with
                  | Some (pairs, rest) => Some (JObj (dict_of_pairs pairs), rest)
                  | None => None
                  end
            end
          else if (c =? 91)%N then
            match skip_ws s' with
            | [] => None
            | c1 :: s1 =>
                if (c1 =? 93)%N then Some (JArr [], s1)
                else
                  match parse_items fuel' (c1 :: s1) with
                  | Some (items, rest) => Some (JArr items, rest)
                  | None => None
                  end
            end
          else if startswith s (lit "null") then Some (JNull, skipn 4 s)
          else if startswith s (lit "true") then Some (JBool true, skipn 4 s)
          else if startswith s (lit "false") then Some (JBool false, skipn 5 s)
          else
            match parse_int s with
            | Some (n, rest) => Some (JInt n, rest)
            | None => None
            end
      end
  end

with parse_items (fuel : nat) (s : str) {struct fuel}
    : option (list json * str) :=
  match fuel with
  | O => None
  | S fuel' =>
      match parse_value fuel' s with
      | None => None
      | Some (v, rest) =>
          match skip_ws rest with
          | [] => None
          | c :: rest' =>
              if (c =? 93)%N then Some ([v], rest')
              else if (c =? 44)%N then
                match parse_items fuel' (skip_ws rest') with
                | Some (vs, rest'') => Some (v :: vs, rest'')
                | None => None
                end
              else None
          end
      end
  end

with parse_members (fuel : nat) (s : str) {struct fuel}
    : option (list (str * json) * str) :=
  match fuel with
  | O => None
  | S fuel' =>
      match s with
      | [] => None
      | q :: s' =>
          if (q =? 34)%N then
            match parse_string s' with
            | None => None
            | Some (key, s1) =>
                match skip_ws s1 with
                | [] => None
                | colon :: s2 =>
                    if (colon =? 58)%N then
                      match parse_value fuel' (skip_ws s2) with
                      | None => None
                      | Some (v, rest) =>
                          match skip_ws rest with
                          | [] => None
                          | c :: rest' =>
                              if (c =? 125)%N then Some ([(key, v)], rest')
                              else if (c =? 44)%N then
                                match parse_members fuel' (skip_ws rest') with
                                | Some (ms, rest'') => Some ((key, v) :: ms, rest'')
                                | None => None
                                end
                              else None
                          end
                      end
                    else None
                end
            end
          else None
      end
  end.

(** A dictionary has the key. *)
Definition has_key (key : str) (d : list (str * json)) : bool :=
  existsb (fun kv => str_eqb (fst kv) key) d.

Fixpoint keys_unique (d : list (str * json)) : bool :=
  match d with
  | [] => true
  | kv :: d' => negb (has_key (fst kv) d') && keys_unique d'
  end.

(** A value [loads] can return: no object in it has a key twice. *)
Fixpoint well_formed (v : json) : bool :=
  match v with
  | JArr items => forallb well_formed items
  | JObj members =>
      keys_unique members && forallb (fun m => well_formed (snd m)) members
  | _ => true
  end.

(** The text of one member of an object. *)
Definition member_text (m : str * json) : str :=
  quote (fst m) ++ lit ": " ++ dumps (snd m).

(** [parse_value] reads the text of [v] back, whatever follows it that
    does not continue a number, given fuel for twice its length. *)
Definition reads_back (v : json) : Prop :=
  well_formed v = true ->
  forall (rest : str) (fuel : nat),
    continues_number rest = false ->
    (2 * length (dumps v) < fuel)%nat ->
    parse_value fuel (dumps v ++ rest) = Some (v, rest).

(** The first character of a written value tells what it is. *)
Inductive opens : json -> char -> Prop :=
| opens_null : opens JNull 110%N
| opens_true : opens (JBool true) 116%N
| opens_false : opens (JBool false) 102%N
| opens_minus n : opens (JInt n) 45%N
| opens_digit n c : is_digit c = true -> opens (JInt n) c
| opens_str s : opens (JStr s) 34%N
| opens_arr items : opens (JArr items) 91%N
| opens_obj members : opens (JObj members) 123%N.

(** [json.loads(s)]: one value between white space, and nothing else. *)
Definition loads (s : str) : loads_result json :=
  match parse_value (2 * length s + 1) (skip_ws s) with
  | Some (v, rest) =>
      match skip_ws rest with
      | [] => Parsed v
      | _ :: _ => JSONDecodeError
      end
  | None => JSONDecodeError
  end.

#[export] Instance MiniJson : Json :=
  {| json_value := json; json_loads := loads; json_dumps := dumps |}.

(* ===================================================================== *)
(** ** Vocabulary of the statements *)

(** The send to [c] raises: [c] is connected and [send_json] fails. *)
Definition delivery_fails (w : World) (log : LogEntry) (c : WebSocket) : bool :=
  client_connected w c && negb (send_json_ok w c log).

(** What one turn of the loop of [broadcast_log] does to [c]. *)
Definition delivery_events (w : World) (log : LogEntry) (c : WebSocket)
    : list event :=
  if client_connected w c then
    if send_json_ok w c log then [EvSendJson c log true]
    else [EvSendJson c log false; EvClose c (close_ok w c); EvUnregister c]
  else [].

(** The records that reached [ws], in the order they were sent. *)
Fixpoint delivered_logs (ws : WebSocket) (tr : list event) : list LogEntry :=
  match tr with
  | [] => []
  | EvSendJson ws' log true :: tr' =>
      if Nat.eqb ws' ws then log :: delivered_logs ws tr'
      else delivered_logs ws tr'
  | _ :: tr' => delivered_logs ws tr'
  end.

(** The first record sent to [ws] comes before [ws] enters the
    registry. *)
Definition registered_after_replay_begins (ws : WebSocket) (tr : list event)
    : Prop :=
  match find_index (is_send_json ws) tr, find_index (is_register ws) tr with
  | Some i, Some j => (i < j)%nat
  | _, _ => False
  end.

(** [ws] enters the registry before any record is sent to it. *)
Definition registered_before_replay (ws : WebSocket) (tr : list event)
    : Prop :=
  exists j, find_index (is_register ws) tr = Some j /\
    forall i, find_index (is_send_json ws) tr = Some i -> (j < i)%nat.

(** The dictionary of the listing for the file [f]. *)
Definition file_info (fromtimestamp : Z -> datetime) (f : File) : FileInfo :=
  {| info_ctime := strftime "%Y-%m-%d %H:%M:%S" (fromtimestamp (st_ctime f));
     info_filename := file_name f;
     info_size := format_file_size (st_size f) |}.

(** A log segment: a file whose name ends in [.log] or [.log.zip]. *)
Definition is_segment (f : File) : bool :=
  endswith (file_name f) (lit ".log") || endswith (file_name f) (lit ".log.zip").

(** A file the listing is to show: a segment that is not empty. *)
Definition listed (f : File) : bool := is_segment f && (0 <? st_size f).

(** The file as [open] sees it, whatever archive its bytes may be. *)
Definition without_archive (f : File) : File :=
  {| file_name := file_name f;
     st_ctime := st_ctime f;
     st_size := st_size f;
     text_lines := text_lines f;
     zip_members := None |}.

(** Newest first. *)
Definition newer_or_same (a b : File) : Prop := st_ctime b <= st_ctime a.

(** What [json] promises about a text it has accepted: the text
    [json.dumps] writes for the value, with or without a line end
    behind it, is accepted again and comes out as the same text. *)
Class JsonCanonical (J : Json) : Prop :=
  canonical_text :
    forall (s : str) (v : json_value) (eol : str),
      json_loads s = Parsed v ->
      eol = [] \/ eol = [10%N] ->
      exists v',
        json_loads (json_dumps v ++ eol) = Parsed v'
        /\ json_dumps v' = json_dumps v.

(** [s] is [l] without the white space around it. *)
Definition trimmed (s l : str) : Prop :=
  exists pre post,
    l = pre ++ s ++ post
    /\ forallb isspace pre = true
    /\ forallb isspace post = true
    /\ match s with [] => True | c :: _ => isspace c = false end
    /\ match rev s with [] => True | c :: _ => isspace c = false end.

(** How [get_log_content] turns the line [log] of the file into the
    line [out] of the page. *)
Definition rendered {J : Json} (log out : str) : Prop :=
  match json_loads log with
  | Parsed v =>
      out = json_dumps v
      /\ render_line out = Ok out
      /\ render_line (out ++ [10%N]) = Ok out
  | JSONDecodeError => out = strip log /\ trimmed out log
  | LoadsError => False
  end.

(** The page number [get_log_content] settles on, for [total_pages]
    pages and the number [page] asked for (logs.py, 107-110). *)
Definition settled_page (total_pages page : Z) : Z :=
  let page := if total_pages <? page then total_pages else page in
  if page <? 1 then 1 else page.

(** The lines of the file that make the page [page]. *)
Definition page_lines (all_logs : list str) (page page_size : Z) : list str :=
  slice all_logs ((page - 1) * page_size)
    (Z.min ((page - 1) * page_size + page_size) (Z.of_nat (length all_logs))).

(* ===================================================================== *)
(** ** Sample data *)

(** A transport on which nothing fails. *)
Definition quiet_world : World :=
  {| client_connected := fun _ => true;
     send_json_ok := fun _ _ => true;
     close_ok := fun _ => true;
     send_text_ok := fun _ => true |}.

(** A transport on which the viewer 7 has gone: it still counts as
    connected, and every send to it raises. *)
Definition broken_world : World :=
  {| client_connected := fun _ => true;
     send_json_ok := fun ws _ => negb (Nat.eqb ws 7%nat);
     close_ok := fun _ => true;
     send_text_ok := fun _ => true |}.

(** 2024-01-02 03:04:05.123456 *)
Definition sample_time : datetime :=
  {| year := 2024; month := 1; day := 2;
     hour := 3; minute := 4; second := 5; microsecond := 123456 |}.

Definition sample_record (msg : string) : LogRecord :=
  {| rec_time := sample_time;
     rec_level := lit "INFO";
     rec_name := lit "app.main";
     rec_function := lit "startup";
     rec_line := 42;
     rec_message := lit msg |}.

(** A literal in which an apostrophe stands for the double quote. *)
Definition jlit (s : string) : str :=
  map (fun c => if (c =? 39)%N then 34%N else c) (lit s).

(** A line of a file, with its line end. *)
Definition text_line (s : str) : str := s ++ [10%N].

Definition sample_log : File :=
  {| file_name := lit "app.log";
     st_ctime := 1704164645;
     st_size := 31;
     text_lines := Some [text_line (jlit "{'a':1}"); text_line (lit "  not json  ");
                         text_line (jlit "[1, 'x', null]")];
     zip_members := None |}.

(** A file that exists and holds nothing. *)
Definition empty_log : File :=
  {| file_name := lit "empty.log";
     st_ctime := 1704164000;
     st_size := 0;
     text_lines := Some [];
     zip_members := None |}.

(** A rotated and compressed file: as text its bytes do not decode, as
    an archive it holds one log of two lines. *)
Definition sample_zip : File :=
  {| file_name := lit "app.2024-01-01.log.zip";
     st_ctime := 1704067200;
     st_size := 187;
     text_lines := None;
     zip_members :=
       Some [(lit "app.2024-01-01.log",
              [text_line (jlit "{'a':1}"); text_line (lit "second line")])] |}.

Definition sample_dir : directory := [sample_zip; empty_log; sample_log].

(** The first page of the sample log. *)
Definition sample_page : Page :=
  {| logs := [jlit "{'a': 1}"; lit "not json"; jlit "[1, 'x', null]"];
     total := 3;
     total_pages := 1;
     current_page := 1;
     page_size := 100 |}.

(* ===================================================================== *)
(** ** More vocabulary *)

(** The units of [format_file_size], in the order it tries them. *)
Definition units : list string := ["B"; "KB"; "MB"; "GB"; "TB"]%string.

(** [itertools.takewhile(p, l)] *)
Fixpoint take_while {A : Type} (p : A -> bool) (l : list A) : list A :=
  match l with
  | [] => []
  | x :: l' => if p x then x :: take_while p l' else []
  end.

(** A run of publishes, one after the other, with what it did. *)
Fixpoint publish_trace (w : World) (logs : list LogEntry) (st : State)
    : result (State * list event) :=
  match logs with
  | [] => Ok (st, [])
  | log :: logs' =>
      match broadcast_log w log st with
      | Ok (st1, tr1) =>
          match publish_trace w logs' st1 with
          | Ok (st2, tr2) => Ok (st2, tr1 ++ tr2)
          | Raise e => Raise e
          end
      | Raise e => Raise e
      end
  end.

Definition is_send_text (e : event) : bool :=
  match e with
  | EvSendText _ _ _ => true
  | _ => false
  end.

Definition is_heartbeat_received (e : event) : bool :=
  match e with
  | EvReceive _ data => str_eqb data (lit "heartbeat")
  | _ => false
  end.

(** The viewer has gone, or its channel has failed. *)
Definition is_end (m : inbound) : bool :=
  match m with
  | Text _ => false
  | Disconnected | Failed => true
  end.

(** A task that waits in [close] for a connection got there because the
    send to that connection raised. *)
Definition task_ok (w : World) (t : task) : Prop :=
  match t with
  | InClose log connection _ => send_json_ok w connection log = false
  | _ => True
  end.

Definition is_disconnect_of (ws : WebSocket) (a : action) : bool :=
  match a with
  | Disconnect ws' => Nat.eqb ws' ws
  | Resume _ => false
  end.


(** ** More sample data *)

(** Two records in the queue, the viewer 3 in the registry. *)
Definition sample_state : State :=
  {| log_queue := [log_entry (sample_record "first");
                   log_entry (sample_record "second")];
     active_connections := [3%nat] |}.

(** A viewer that sends a heartbeat and something else, and goes. *)
Definition sample_msgs : list inbound :=
  [Text (lit "heartbeat"); Text (lit "hello"); Disconnected].


(** The lines [read_log_file] reads from the file [f]: those of the
    file itself, or for a name that ends in [.zip] those of the first
    member of the archive whose name ends in [.log]. *)
Definition holds_log (f : File) (content : list str) : Prop :=
  (suffix_is_zip f = false /\ text_lines f = Some content)
  \/ (suffix_is_zip f = true
      /\ exists members name,
           zip_members f = Some members
           /\ find (fun m => endswith (fst m) (lit ".log")) members
              = Some (name, content)).

(** The timestamp of a formatted line: date, time and milliseconds. *)
Definition timestamp_ms (t : datetime) : str :=
  digits 4 (year t) ++ lit "-" ++ digits 2 (month t) ++ lit "-"
    ++ digits 2 (day t) ++ lit " " ++ digits 2 (hour t) ++ lit ":"
    ++ digits 2 (minute t) ++ lit ":" ++ digits 2 (second t) ++ lit "."
    ++ digits 3 (microsecond t / 1000).


(** The sample record, emitted 26 minutes later. *)
Definition later_record (msg : string) : LogRecord :=
  {| rec_time := {| year := 2024; month := 1; day := 2; hour := 3;
                    minute := 30; second := 5; microsecond := 123456 |};
     rec_level := lit "INFO";
     rec_name := lit "app.main";
     rec_function := lit "startup";
     rec_line := 42;
     rec_message := lit msg |}.


(* ===================================================================== *)
(** ** [app/core/config.py]: the configuration [logs.py] and [logger.py] read *)

(** [s.split(sep)] for a separator of one character: the pieces between
    the separators, of which there is always at least one. *)
Fixpoint split (sep : char) (s : str) : list str :=
  match s with
  | [] => [[]]
  | c :: s' =>
      if N.eqb c sep then [] :: split sep s'
      else match split sep s' with
           | part :: parts => (c :: part) :: parts
           | [] => [[c]]
           end
  end.

Module ConfigManager.
Section Values.

(** A value of a configuration: [None], [True] or [False], a [dict]
    with its items in the order of insertion, or a value of another
    type ([int], [float], [str], [list]). The code tells these four
    apart and looks no further into a value of another type but for its
    truth, [bool(a)]. *)
Variable other : Type.
Variable truth : other -> bool.

Inductive value : Type :=
| VNone
| VBool (b : bool)
| VOther (a : other)
| VDict (d : dict)
with dict : Type :=
| Empty
| Item (key : str) (v : value) (rest : dict).

Scheme value_dict_ind := Induction for value Sort Prop
  with dict_value_ind := Induction for dict Sort Prop.

(** [d.get(key)] *)
Fixpoint dict_get (d : dict) (key : str) : option value :=
  match d with
  | Empty => None
  | Item k v rest => if str_eqb k key then Some v else dict_get rest key
  end.

(** [d[key] = v]: a key of the dict keeps its place, a new one comes
    last. *)
Fixpoint setitem (d : dict) (key : str) (v : value) : dict :=
  match d with
  | Empty => Item key v Empty
  | Item k v' rest =>
      if str_eqb k key then Item k v rest else Item k v' (setitem rest key v)
  end.

(** [bool(v)] *)
Definition truthy (v : value) : bool :=
  match v with
  | VNone => false
  | VBool b => b
  | VOther a => truth a
  | VDict Empty => false
  | VDict (Item _ _ _) => true
  end.

(** The loop of [_create_nested_dict] (config.py, 113-116) over the
    parts of the key; [split] gives no empty list of parts, for which
    [parts[-1]] would raise. *)
Fixpoint nested (parts : list str) (v : value) : dict :=
  match parts with
  | [] => Empty
  | [part] => Item part v Empty
  | part :: parts' => Item part (VDict (nested parts' v)) Empty
  end.

(** [_create_nested_dict(key, value)] (config.py, 108-117) *)
Definition _create_nested_dict (key : str) (v : value) : dict :=
  nested (split 46%N key) v.

(** [_merge_configs(base, override)] (config.py, 199-207): the copy of
    [base] is [result], into which the items of [override] go one by
    one. No dict is changed in place. *)
Fixpoint _merge_configs (base override : dict) {struct override} : dict :=
  match override with
  | Empty => base
  | Item key v rest =>
      let result :=
        match dict_get base key, v with
        | Some (VDict b), VDict o => setitem base key (VDict (_merge_configs b o))
        | _, _ => setitem base key v
        end in
      _merge_configs result rest
  end.

(** The loop of [get] (config.py, 234-241) over the parts of the key. *)
Fixpoint walk (v : value) (keys : list str) (default : value) : value :=
  match keys with
  | [] => v
  | k :: keys' =>
      match v with
      | VDict d =>
          match dict_get d k with
          | None | Some VNone => default
          | Some v' => walk v' keys' default
          end
      | _ => default
      end
  end.

(** The fields of the manager. *)
Record manager : Type := {
  _config : dict;
  _json_config : dict;
  _env_file_config : dict;
  _env_vars_config : dict;
  config_override : value
}.

(** [get(key, default)] (config.py, 226-241) *)
Definition get (self : manager) (key : str) (default : value) : value :=
  match key with
  | [] => default
  | _ :: _ => walk (VDict (_config self)) (split 46%N key) default
  end.

(** [_load_config()] (config.py, 209-224), given what the three
    loaders return: [config.json], the [.env] file and the environment
    variables. *)
Definition _load_config (json_config env_file_config env_vars_config : dict)
    : manager :=
  let override :=
    match dict_get json_config (lit "CONFIG_OVERRIDE") with
    | Some v => v
    | None => VBool false
    end in
  {| _json_config := json_config;
     _env_file_config := env_file_config;
     _env_vars_config := env_vars_config;
     config_override := override;
     _config :=
       if truthy override then
         _merge_configs (_merge_configs env_file_config env_vars_config) json_config
       else
         _merge_configs (_merge_configs json_config env_file_config) env_vars_config |}.

(** What [set] does outside of the manager: the two files it writes
    and the environment variable it sets, named by the key it is given
    (the variable is [_convert_to_env_key(key)] and holds [str(value)]). *)
Inductive effect : Type :=
| SetEnviron (key : str) (v : value)
| SaveJsonConfig (json_config : dict)
| SaveEnvFile (env_file_config : dict).

(** [set(key, value, save)] (config.py, 119-154) *)
Definition set (self : manager) (key : str) (v : value) (save : bool)
    : manager * list effect :=
  let nested_config := _create_nested_dict key v in
  if truthy (config_override self) then
    let json_config := _merge_configs (_json_config self) nested_config in
    ({| _config := _config self;
        _json_config := json_config;
        _env_file_config := _env_file_config self;
        _env_vars_config := _env_vars_config self;
        config_override := config_override self |},
     if save then [SaveJsonConfig json_config] else [])
  else
    let env_vars_config := _merge_configs (_env_vars_config self) nested_config in
    let env_file_config := _merge_configs (_env_file_config self) nested_config in
    let json_config := _merge_configs (_json_config self) nested_config in
    ({| _config := _config self;
        _json_config := json_config;
        _env_file_config := env_file_config;
        _env_vars_config := env_vars_config;
        config_override := config_override self |},
     SetEnviron key v
       :: (if save then [SaveJsonConfig json_config; SaveEnvFile env_file_config]
           else [])).

(** No key comes twice in a dict, at any depth: what every [dict] of
    Python satisfies. *)
Fixpoint contains (d : dict) (key : str) : bool :=
  match d with
  | Empty => false
  | Item k _ rest => str_eqb k key || contains rest key
  end.

Fixpoint dict_ok (d : dict) : bool :=
  match d with
  | Empty => true
  | Item k v rest =>
      negb (contains rest k)
      && match v with VDict d' => dict_ok d' | _ => true end
      && dict_ok rest
  end.

(** A value that [get] can tell from its default: no [None], and none
    that is looked into further. *)
Definition is_leaf (v : value) : bool :=
  match v with
  | VBool _ | VOther _ => true
  | VNone | VDict _ => false
  end.

(** The value that [_merge_configs] stores under a key of the override,
    [old] being what the result holds under the key. *)
Definition merged (old : option value) (v : value) : value :=
  match old, v with
  | Some (VDict b), VDict o => VDict (_merge_configs b o)
  | _, _ => v
  end.

(** The items of [a], then those of [b]. *)
Fixpoint dict_app (a b : dict) : dict :=
  match a with
  | Empty => b
  | Item k v rest => Item k v (dict_app rest b)
  end.

(** The dict [d] gives the value [v] for the dotted [key]. *)
Definition gives (d : dict) (key : str) (v : value) : Prop :=
  is_leaf v = true /\ walk (VDict d) (split 46%N key) VNone = v.

(** The dict [d] has nothing under the first part of the dotted [key]. *)
Definition silent (d : dict) (key : str) : Prop :=
  contains d (hd [] (split 46%N key)) = false.

End Values.

Arguments VNone {other}.
Arguments VBool {other} b.
Arguments Empty {other}.

(** Three sources whose other values are strings: a [config.json], a
    [.env] file and the environment. *)
Definition str_truth (s : str) : bool :=
  match s with [] => false | _ :: _ => true end.

Definition text (s : string) : value str := VOther (lit s).

Definition sample_json_config : dict str :=
  Item (lit "CONFIG_OVERRIDE") (VBool false)
    (Item (lit "app")
       (VDict (Item (lit "name") (text "Nix")
                 (Item (lit "port") (text "8000") Empty)))
       (Item (lit "log") (VDict (Item (lit "level") (text "INFO") Empty))
          Empty)).

Definition sample_env_file_config : dict str :=
  Item (lit "app") (VDict (Item (lit "port") (text "9000") Empty)) Empty.

Definition sample_env_vars_config : dict str :=
  Item (lit "log") (VDict (Item (lit "level") (text "DEBUG") Empty)) Empty.

Definition sample_manager : manager str :=
  _load_config str_truth sample_json_config sample_env_file_config
    sample_env_vars_config.

End ConfigManager.


(* ===================================================================== *)
(** * Properties *)

(** ** The ring buffer *)

Section Deque.
Context {A : Type}.

Lemma tl_skipn (l : list A) (n : nat) : tl (skipn n l) = skipn (S n) l.
Proof.
  revert l; induction n as [|n IH]; intros [|x l]; simpl; auto.
Qed.

(** One [append] moves the window of the last [C] elements of what was
    pushed by one. *)
Lemma deque_append_window (C : nat) (pushed : list A) (x : A) :
  deque_append C (skipn (length pushed - C) pushed) x
  = skipn (length (pushed ++ [x]) - C) (pushed ++ [x]).
Proof.
  unfold deque_append.
  rewrite !length_app, length_skipn; simpl.
  destruct (Nat.ltb_spec C (length pushed - (length pushed - C) + 1)) as [Hlt | Hge].
  - assert (Hle : (C <= length pushed)%nat) by lia.
    replace (length pushed + 1 - C)%nat with (S (length pushed - C)) by lia.
    rewrite <- tl_skipn, skipn_app.
    replace (length pushed - C - length pushed)%nat with O by lia.
    reflexivity.
  - assert (Hlt : (length pushed < C)%nat) by lia.
    replace (length pushed - C)%nat with O by lia.
    replace (length pushed + 1 - C)%nat with O by lia.
    reflexivity.
Qed.

Lemma fold_deque_append (C : nat) (xs pushed : list A) :
  fold_left (deque_append C) xs (skipn (length pushed - C) pushed)
  = skipn (length (pushed ++ xs) - C) (pushed ++ xs).
Proof.
  revert pushed; induction xs as [|x xs IH]; intros pushed; simpl.
  - now rewrite app_nil_r.
  - rewrite deque_append_window, IH, <- app_assoc. reflexivity.
Qed.
End Deque.

(** ** The registry *)

Section Registry.
Variables (w : World) (log : LogEntry).

Local Abbreviation count := (count_occ Nat.eq_dec).

Lemma list_remove_present (c : WebSocket) (reg : list WebSocket) :
  (1 <= count reg c)%nat ->
  exists reg',
    list_remove Nat.eqb c reg = Ok reg'
    /\ count reg c = S (count reg' c)
    /\ (forall c', c' <> c -> count reg' c' = count reg c')
    /\ (forall p : WebSocket -> bool,
           p c = false -> filter p reg' = filter p reg).
Proof.
  induction reg as [|y reg IH]; simpl; intros Hc; [lia|].
  destruct (Nat.eqb_spec y c) as [-> | Hne].
  - exists reg. repeat split.
    + destruct (Nat.eq_dec c c); [reflexivity | contradiction].
    + intros c' Hc'. destruct (Nat.eq_dec c c'); [congruence | reflexivity].
    + intros p Hp. now rewrite Hp.
  - destruct (Nat.eq_dec y c) as [Heq | _]; [contradiction|].
    destruct (IH Hc) as (reg' & Hrm & Hcnt & Hother & Hfilter).
    exists (y :: reg'). rewrite Hrm. repeat split.
    + simpl. destruct (Nat.eq_dec y c); [contradiction | exact Hcnt].
    + intros c' Hc'. simpl. destruct (Nat.eq_dec y c'); rewrite (Hother c' Hc'); reflexivity.
    + intros p Hp. simpl. now rewrite (Hfilter p Hp).
Qed.

Lemma filter_keeps_all (p : WebSocket -> bool) (reg : list WebSocket) :
  (forall c, p c = false -> count reg c = O) -> filter p reg = reg.
Proof.
  induction reg as [|y reg IH]; simpl; intros H; [reflexivity|].
  destruct (p y) eqn:Hp.
  - f_equal. apply IH. intros c Hc. specialize (H c Hc).
    destruct (Nat.eq_dec y c); [discriminate | exact H].
  - specialize (H y Hp). destruct (Nat.eq_dec y y); [discriminate | contradiction].
Qed.

(** The loop never reaches a [remove] of a connection that is not in
    the registry, as long as every connection whose send fails is as
    often in the registry as in what is left of the copy. *)
Lemma broadcast_loop_balanced (snapshot reg : list WebSocket) :
  (forall c, delivery_fails w log c = true -> count snapshot c = count reg c) ->
  broadcast_loop w log snapshot reg
  = Ok (filter (fun c => negb (delivery_fails w log c)) reg,
        flat_map (delivery_events w log) snapshot).
Proof.
  revert reg; induction snapshot as [|c rest IH]; intros reg Hbal; simpl.
  - rewrite filter_keeps_all; [reflexivity|].
    intros c Hc. symmetry. apply Hbal.
    now destruct (delivery_fails w log c).
  - unfold delivery_events at 1.
    destruct (client_connected w c) eqn:Hconn.
    + destruct (send_json_ok w c log) eqn:Hsend.
      * rewrite IH; [reflexivity|].
        intros c' Hc'. rewrite <- (Hbal c' Hc'). simpl.
        destruct (Nat.eq_dec c c') as [-> | _]; [|reflexivity].
        unfold delivery_fails in Hc'. rewrite Hconn, Hsend in Hc'. discriminate.
      * assert (Hfail : delivery_fails w log c = true)
          by (unfold delivery_fails; now rewrite Hconn, Hsend).
        pose proof (Hbal c Hfail) as Hc. simpl in Hc.
        destruct (Nat.eq_dec c c) as [_ | ?]; [|contradiction].
        destruct (@list_remove_present c reg) as (reg1 & Hrm & Hcnt & Hother & Hfilter);
          [lia|].
        rewrite Hrm, IH.
        -- rewrite (Hfilter (fun c => negb (delivery_fails w log c)));
             [reflexivity | now rewrite Hfail].
        -- intros c' Hc'. destruct (Nat.eq_dec c c') as [<- | Hne].
           ++ lia.
           ++ rewrite Hother by congruence.
              rewrite <- (Hbal c' Hc'). simpl.
              destruct (Nat.eq_dec c c'); [contradiction | reflexivity].
    + rewrite IH; [reflexivity|].
      intros c' Hc'. rewrite <- (Hbal c' Hc'). simpl.
      destruct (Nat.eq_dec c c') as [-> | _]; [|reflexivity].
      unfold delivery_fails in Hc'. rewrite Hconn in Hc'. discriminate.
Qed.

Lemma broadcast_log_result (st : State) :
  broadcast_log w log st
  = Ok ({| log_queue := deque_append maxlen (log_queue st) log;
           active_connections :=
             filter (fun c => negb (delivery_fails w log c))
                    (active_connections st) |},
        flat_map (delivery_events w log) (active_connections st)).
Proof.
  unfold broadcast_log. now rewrite broadcast_loop_balanced.
Qed.
End Registry.

(** A publish that runs with no other task in between returns, for
    every record, every registry and every behaviour of the transport.
    The connections whose send raised are closed and taken out of the
    registry, and only they; every other connection of the registry is
    still served: the events are those of one delivery per registered
    connection, in registry order, so a connected one whose send works
    has received the record and is still registered. *)
Lemma broadcast_log_alone (w : World) (log : LogEntry) (st : State) :
  exists st' tr,
    broadcast_log w log st = Ok (st', tr)
    /\ active_connections st'
       = filter (fun c => negb (delivery_fails w log c)) (active_connections st)
    /\ tr = flat_map (delivery_events w log) (active_connections st)
    /\ (forall c, In c (active_connections st) ->
          delivery_fails w log c = true ->
          In (EvClose c (close_ok w c)) tr /\ ~ In c (active_connections st'))
    /\ (forall c, In c (active_connections st) ->
          client_connected w c = true -> send_json_ok w c log = true ->
          In (EvSendJson c log true) tr /\ In c (active_connections st')).
Proof.
  rewrite broadcast_log_result.
  eexists; eexists; split; [reflexivity|]. simpl.
  split; [reflexivity|]. split; [reflexivity|]. split.
  - intros c Hin Hfail. split.
    + apply in_flat_map. exists c. split; [exact Hin|].
      unfold delivery_fails in Hfail. apply andb_prop in Hfail as [Hc Hs].
      unfold delivery_events. rewrite Hc.
      destruct (send_json_ok w c log); [discriminate|]. simpl. auto.
    + rewrite filter_In, Hfail. intros [_ H]. discriminate.
  - intros c Hin Hc Hs. split.
    + apply in_flat_map. exists c. split; [exact Hin|].
      unfold delivery_events. rewrite Hc, Hs. simpl. auto.
    + apply filter_In. split; [exact Hin|].
      unfold delivery_fails. now rewrite Hc, Hs.
Qed.

(** The coroutine, run alone, is the function [broadcast_log]. *)
Lemma run_alone_broadcast_loop (w : World) (log : LogEntry)
    (snapshot reg reg' : list WebSocket) (tr : list event)
    (queue : list LogEntry) (fuel : nat) :
  broadcast_loop w log snapshot reg = Ok (reg', tr) ->
  (2 * length snapshot < fuel)%nat ->
  run_alone fuel w (enter_loop w log snapshot)
    {| log_queue := queue; active_connections := reg |}
  = (Finished, {| log_queue := queue; active_connections := reg' |}, tr).
Proof.
  revert reg reg' tr fuel.
  induction snapshot as [|c rest IH]; intros reg reg' tr fuel Hloop Hfuel.
  - simpl in Hloop. injection Hloop as <- <-.
    destruct fuel as [|fuel]; [simpl in Hfuel; lia | reflexivity].
  - cbn [broadcast_loop enter_loop] in *. cbn [length] in Hfuel.
    destruct (client_connected w c); [|apply IH; [exact Hloop | lia]].
    destruct fuel as [|fuel]; [lia|]. cbn [run_alone resume].
    destruct (send_json_ok w c log).
    + destruct (broadcast_loop w log rest reg) as [[reg1 tr1]|e] eqn:Hrest;
        [|discriminate].
      injection Hloop as <- <-.
      rewrite (IH reg reg1 tr1 fuel Hrest) by lia. reflexivity.
    + destruct (list_remove Nat.eqb c reg) as [reg1|e] eqn:Hrm; [|discriminate].
      destruct (broadcast_loop w log rest reg1) as [[reg2 tr2]|e] eqn:Hrest;
        [|discriminate].
      injection Hloop as <- <-.
      destruct fuel as [|fuel]; [lia|]. cbn [run_alone resume active_connections log_queue].
      rewrite Hrm. rewrite (IH reg1 reg2 tr2 fuel Hrest) by lia. reflexivity.
Qed.

Lemma run_alone_broadcast_log (w : World) (log : LogEntry) (st : State)
    (fuel : nat) :
  (2 * length (active_connections st) + 1 < fuel)%nat ->
  exists st' tr,
    broadcast_log w log st = Ok (st', tr)
    /\ run_alone fuel w (Start log) st = (Finished, st', tr).
Proof.
  intros Hfuel. rewrite broadcast_log_result.
  eexists; eexists; split; [reflexivity|].
  destruct fuel as [|fuel]; [lia|]. cbn [run_alone resume].
  erewrite run_alone_broadcast_loop; [reflexivity | | lia].
  apply broadcast_loop_balanced. reflexivity.
Qed.

(** C2, on two publishes while the viewer 7 has gone.  The first task
    finds the send to 7 raising and awaits [close]; the second task runs
    meanwhile, fails on 7 as well and takes it out of the registry; the
    first task goes on with [active_connections.remove(connection)],
    finds 7 gone, and [ValueError] leaves [broadcast_log].  It is the
    same when, instead of a second publish, the handler of the viewer
    takes the connection out of the registry meanwhile. *)
Theorem broadcast_log_raises_between_tasks :
  run_schedule broken_world
    [Resume 0; Resume 0; Resume 1; Resume 1; Resume 1; Resume 0]%nat
    [Start (log_entry (sample_record "first"));
     Start (log_entry (sample_record "second"))]
    {| log_queue := []; active_connections := [7%nat] |}
  = ([Crashed ValueError; Finished],
     {| log_queue := [log_entry (sample_record "first");
                      log_entry (sample_record "second")];
        active_connections := [] |})
  /\ run_schedule broken_world
       [Resume 0; Resume 0; Disconnect 7; Resume 0]%nat
       [Start (log_entry (sample_record "first"))]
       {| log_queue := []; active_connections := [7%nat] |}
     = ([Crashed ValueError],
        {| log_queue := [log_entry (sample_record "first")];
           active_connections := [] |}).
Proof.
  split; vm_compute; reflexivity.
Qed.

Lemma publish_all_queue (w : World) (logs : list LogEntry) (st : State) :
  exists st',
    publish_all w logs st = Ok st'
    /\ log_queue st' = fold_left (deque_append maxlen) logs (log_queue st).
Proof.
  revert st; induction logs as [|log logs IH]; intros st; simpl.
  - exists st. split; reflexivity.
  - rewrite broadcast_log_result.
    match goal with |- context [publish_all w logs ?s] => destruct (IH s) as (st' & Hrun & Hq) end.
    exists st'. split; [exact Hrun | exact Hq].
Qed.

(** C3. Whatever is published, in whatever number, the queue holds at
    most [maxlen = 1000] records, and after [n] publishes into the empty
    queue it holds the last [min n 1000] of them in the order they
    came: what was published without its [n - 1000] oldest records. *)
Theorem log_queue_keeps_last_records (w : World) (reg : list WebSocket)
    (pushed : list LogEntry) :
  maxlen = 1000%nat
  /\ exists st',
       publish_all w pushed {| log_queue := []; active_connections := reg |} = Ok st'
       /\ (length (log_queue st') <= maxlen)%nat
       /\ length (log_queue st') = Nat.min (length pushed) maxlen
       /\ log_queue st' = skipn (length pushed - maxlen) pushed.
Proof.
  split; [reflexivity|].
  destruct (publish_all_queue w pushed {| log_queue := []; active_connections := reg |})
    as (st' & Hrun & Hq).
  simpl in Hq.
  pose proof (fold_deque_append maxlen pushed (@nil LogEntry)) as Hfold.
  simpl in Hfold. rewrite Hfold in Hq.
  exists st'. split; [exact Hrun|].
  rewrite Hq, length_skipn. repeat split; lia.
Qed.

(** X7. The bound on the queue holds between tasks as well: however
    the publishes and the handlers take turns, the queue never holds
    more than [maxlen] records. *)
Lemma run_schedule_queue_bounded (w : World) (schedule : list action)
    (tasks : list task) (st : State) :
  (length (log_queue st) <= maxlen)%nat ->
  (length (log_queue (snd (run_schedule w schedule tasks st))) <= maxlen)%nat.
Proof.
  revert tasks st; induction schedule as [|[i | ws] schedule IH];
    intros tasks st Hlen; cbn [run_schedule]; [exact Hlen | | now apply IH].
  destruct (nth_error tasks i) as [t|]; [|now apply IH].
  destruct (resume w t st) as [[t' st'] tr] eqn:Hres. apply IH.
  destruct t as [log | log c rest | log c rest | | e]; cbn [resume] in Hres.
  - injection Hres as _ <- _. cbn [log_queue]. unfold deque_append.
    rewrite length_app. cbn [length].
    destruct (Nat.ltb_spec maxlen (length (log_queue st) + 1)) as [Hlt | Hge].
    + destruct (log_queue st) as [|x q]; cbn [app tl length] in *;
        [unfold maxlen in Hlt; lia | rewrite length_app; cbn [length]; lia].
    + rewrite length_app. cbn [length]. lia.
  - destruct (send_json_ok w c log); injection Hres as _ <- _; exact Hlen.
  - destruct (list_remove Nat.eqb c (active_connections st));
      injection Hres as _ <- _; exact Hlen.
  - injection Hres as _ <- _. exact Hlen.
  - injection Hres as _ <- _. exact Hlen.
Qed.

(** The copy of the registry is what makes the loop safe: on a copy
    that still holds a connection the registry has lost in the
    meantime, the [remove] after a failed send raises. *)
Remark broadcast_loop_stale_copy (w : World) (log : LogEntry) (c : WebSocket) :
  delivery_fails w log c = true ->
  broadcast_loop w log [c] [] = Raise ValueError.
Proof.
  unfold delivery_fails. intros H. apply andb_prop in H as [Hc Hs].
  simpl. rewrite Hc. destruct (send_json_ok w c log); [discriminate | reflexivity].
Qed.

(** ** A new viewer *)

Lemma replay_delivers_prefix (w : World) (ws : WebSocket) (queue : list LogEntry) :
  exists k,
    (k <= length queue)%nat
    /\ delivered_logs ws (replay w ws queue) = firstn k queue
    /\ ((forall log, In log queue -> send_json_ok w ws log = true) ->
        k = length queue).
Proof.
  induction queue as [|log queue (k & Hk & Hd & Hall)]; simpl.
  - exists O. repeat split; auto.
  - destruct (send_json_ok w ws log) eqn:Hs.
    + exists (S k). simpl. rewrite Nat.eqb_refl, Hd. repeat split; [lia|].
      intros H. f_equal. apply Hall. intros l Hl. apply H. now right.
    + exists O. repeat split; [lia|].
      intros H. rewrite (H log) in Hs by now left. discriminate.
Qed.

Lemma websocket_logs_trace (w : World) (ws : WebSocket) (msgs : list inbound)
    (st : State) :
  exists rest,
    snd (fst (websocket_logs w ws msgs st))
    = EvAccept ws :: EvRegister ws :: replay w ws (log_queue st) ++ rest.
Proof.
  unfold websocket_logs.
  destruct (heartbeat_loop w ws msgs (active_connections st ++ [ws]))
    as [[reg' tr] fin].
  exists tr. reflexivity.
Qed.



(** ** The listing of the log files *)

Section SortedReverse.
Context {A : Type} (key : A -> Z).

Let ge_key (a b : A) : Prop := key b <= key a.

Lemma insert_reverse_perm (x : A) (l : list A) :
  Permutation (insert_reverse key x l) (x :: l).
Proof.
  induction l as [|y l IH]; simpl; [reflexivity|].
  destruct (key x <? key y); [|reflexivity].
  rewrite IH. apply perm_swap.
Qed.

Lemma sorted_reverse_perm (l : list A) : Permutation (sorted_reverse key l) l.
Proof.
  induction l as [|x l IH]; simpl; [reflexivity|].
  rewrite insert_reverse_perm. now constructor.
Qed.

Lemma insert_reverse_sorted (x : A) (l : list A) :
  StronglySorted ge_key l -> StronglySorted ge_key (insert_reverse key x l).
Proof.
  induction 1 as [|y l Hs IH Hall]; simpl.
  - repeat constructor.
  - destruct (Z.ltb_spec (key x) (key y)) as [Hlt | Hge].
    + constructor; [exact IH|].
      apply (Permutation_Forall (Permutation_sym (insert_reverse_perm x l))).
      constructor; [unfold ge_key; lia | exact Hall].
    + constructor; [now constructor|].
      constructor; [exact Hge|].
      apply (Forall_impl _ (P := ge_key y)); [|exact Hall].
      unfold ge_key. intros z Hz. lia.
Qed.

Lemma sorted_reverse_sorted (l : list A) :
  StronglySorted ge_key (sorted_reverse key l).
Proof.
  induction l as [|x l IH]; simpl; [constructor|].
  now apply insert_reverse_sorted.
Qed.
End SortedReverse.

Lemma Permutation_filter {A : Type} (p : A -> bool) (l l' : list A) :
  Permutation l l' -> Permutation (filter p l) (filter p l').
Proof.
  induction 1 as [|x l l' _ IH|x y l|l l' l'' _ IH1 _ IH2]; simpl.
  - constructor.
  - destruct (p x); [now constructor | exact IH].
  - destruct (p x), (p y); try reflexivity. apply perm_swap.
  - now transitivity (filter p l').
Qed.

Lemma StronglySorted_filter {A : Type} (R : A -> A -> Prop) (p : A -> bool)
    (l : list A) :
  StronglySorted R l -> StronglySorted R (filter p l).
Proof.
  induction 1 as [|x l _ IH Hall]; simpl; [constructor|].
  destruct (p x); [|exact IH].
  constructor; [exact IH|].
  rewrite Forall_forall in *. intros y Hy. apply Hall.
  apply filter_In in Hy. tauto.
Qed.

Lemma StronglySorted_map {A B : Type} (R : A -> A -> Prop) (R' : B -> B -> Prop)
    (f : A -> B) (l : list A) :
  (forall a b, In a l -> In b l -> R a b -> R' (f a) (f b)) ->
  StronglySorted R l -> StronglySorted R' (map f l).
Proof.
  intros Hf Hs. induction Hs as [|x l _ IH Hall]; simpl; [constructor|].
  constructor.
  - apply IH. intros a b Ha Hb. apply Hf; now right.
  - rewrite Forall_forall in *. intros y Hy.
    apply in_map_iff in Hy as (z & <- & Hz).
    apply Hf; [now left | now right | now apply Hall].
Qed.

Lemma filter_either {A : Type} (p q : A -> bool) (l : list A) :
  (forall x, p x = true -> q x = false) ->
  Permutation (filter p l ++ filter q l) (filter (fun x => p x || q x) l).
Proof.
  intros Hpq. induction l as [|x l IH]; simpl; [constructor|].
  destruct (p x) eqn:Hp; simpl.
  - rewrite (Hpq x Hp). now constructor.
  - destruct (q x); [|exact IH].
    rewrite <- Permutation_middle. now constructor.
Qed.

Lemma filter_filter_andb {A : Type} (p q : A -> bool) (l : list A) :
  filter q (filter p l) = filter (fun x => p x && q x) l.
Proof.
  induction l as [|x l IH]; simpl; [reflexivity|].
  destruct (p x); simpl; [|exact IH].
  destruct (q x); now rewrite IH.
Qed.

(** No name matches both patterns of [get_log_files]. *)
Lemma log_is_not_zip (s : str) :
  endswith s (lit ".log") = true -> endswith s (lit ".log.zip") = false.
Proof.
  unfold endswith. change (rev (lit ".log")) with [103; 111; 108; 46]%N.
  change (rev (lit ".log.zip")) with [112; 105; 122; 46; 103; 111; 108; 46]%N.
  destruct (rev s) as [|c t]; [discriminate|]. cbn [startswith].
  destruct (N.eqb_spec 103 c) as [<- | _]; [intros _; reflexivity | discriminate].
Qed.

(** C8. The listing holds one dictionary per file of the directory
    whose name ends in [.log] or [.log.zip] and whose size is not zero,
    and none else; the dictionary gives the name, the creation time as
    text and the formatted size; the files come newest first. *)
Theorem get_log_files_list_newest_first (fromtimestamp : Z -> datetime)
    (dir : directory) :
  exists files,
    get_log_files_list fromtimestamp dir = map (file_info fromtimestamp) files
    /\ Permutation files (filter listed dir)
    /\ StronglySorted newer_or_same files
    /\ (forall f, In f dir -> st_size f = 0 -> ~ In f files).
Proof.
  set (pair := fun f : File => (f, st_ctime f)).
  set (nonempty := fun pc : File * Z => 0 <? st_size (fst pc)).
  assert (Hshape : Forall (fun pc : File * Z => snd pc = st_ctime (fst pc))
                     (get_log_files dir)).
  { unfold get_log_files.
    apply (Permutation_Forall (Permutation_sym (sorted_reverse_perm snd _))).
    apply Forall_app; split; apply Forall_forall; intros pc Hpc;
      apply in_map_iff in Hpc as (f & <- & _); reflexivity. }
  assert (Hperm : Permutation (map fst (filter nonempty (get_log_files dir)))
                    (filter listed dir)).
  { unfold get_log_files.
    rewrite (Permutation_filter nonempty (sorted_reverse_perm snd _)).
    rewrite <- filter_map_swap with (f := fun f => 0 <? st_size f).
    rewrite map_app, !map_map. simpl. rewrite !map_id.
    unfold glob.
    rewrite (Permutation_filter _ (filter_either _ _ dir
               (fun f => log_is_not_zip (file_name f)))).
    rewrite filter_filter_andb. reflexivity. }
  exists (map fst (filter nonempty (get_log_files dir))).
  split; [|split; [exact Hperm | split]].
  - unfold get_log_files_list. fold nonempty. rewrite map_map.
    apply map_ext_in. intros pc Hpc. apply filter_In in Hpc as [Hpc _].
    rewrite Forall_forall in Hshape. unfold file_info. now rewrite (Hshape pc Hpc).
  - apply StronglySorted_map with (R := fun a b : File * Z => snd b <= snd a).
    + intros a b Ha Hb Hab. apply filter_In in Ha as [Ha _], Hb as [Hb _].
      rewrite Forall_forall in Hshape. unfold newer_or_same.
      now rewrite <- (Hshape a Ha), <- (Hshape b Hb).
    + apply StronglySorted_filter. unfold get_log_files. apply sorted_reverse_sorted.
  - intros f _ Hsize Hin.
    apply (Permutation_in _ Hperm) in Hin. apply filter_In in Hin as [_ Hl].
    unfold listed in Hl. rewrite Hsize in Hl. rewrite andb_comm in Hl. discriminate.
Qed.

(** ** The record sent to viewers *)

(** For every record, the seventeenth character of the [time] field is
    the letter [m] that the format leaves behind its month, where the
    [formatted] field has the colon behind its minutes: [time] is never
    the beginning of [formatted]. *)
Lemma log_entry_time_has_stray_letter (r : LogRecord) :
  nth 16 (time (log_entry r)) 0%N = chr "m"
  /\ nth 16 (formatted (log_entry r)) 0%N = chr ":"
  /\ time (log_entry r)
     <> firstn (length (time (log_entry r))) (formatted (log_entry r)).
Proof.
  assert (Ht : nth 16 (time (log_entry r)) 0%N = chr "m") by (vm_compute; reflexivity).
  assert (Hlen : length (time (log_entry r)) = 24%nat) by (vm_compute; reflexivity).
  assert (Hf : nth 16 (firstn 24 (formatted (log_entry r))) 0%N = chr ":")
    by (vm_compute; reflexivity).
  split; [exact Ht|]. split.
  - vm_compute; reflexivity.
  - rewrite Hlen. intros Heq. rewrite <- Heq, Ht in Hf. discriminate.
Qed.

(** C10, on the record stamped 2024-01-02 03:04:05.123456: the [time]
    field repeats the month where the minutes belong and is one
    character longer than the timestamp the [formatted] field begins
    with. *)
Theorem log_entry_time_differs_from_formatted :
  time (log_entry (sample_record "hello")) = lit "2024-01-02 03:01m:05.123"
  /\ before_separator (formatted (log_entry (sample_record "hello")))
     = lit "2024-01-02 03:04:05.123"
  /\ formatted (log_entry (sample_record "hello"))
     = lit "2024-01-02 03:04:05.123 | INFO     | app.main:startup:42 | hello".
Proof.
  repeat split; vm_compute; reflexivity.
Qed.

(** ** The JSON codec reads back what it writes *)

Section Numbers.
Let step (a : Z) (c : char) : Z := a * 10 + digit_value c.

Lemma digit_is_digit (d : Z) :
  0 <= d <= 9 -> is_digit (digit d) = true /\ digit_value (digit d) = d.
Proof.
  intros Hd. unfold is_digit, digit_value, digit. split.
  - apply andb_true_intro; split; apply N.leb_le; lia.
  - lia.
Qed.

Lemma scan_digits_app (ds rest : str) (acc : Z) :
  forallb is_digit ds = true ->
  match rest with [] => true | c :: _ => negb (is_digit c) end = true ->
  scan_digits acc (ds ++ rest) = (fold_left step ds acc, rest).
Proof.
  intros Hds Hrest. revert acc.
  induction ds as [|d ds IH]; intros acc; simpl.
  - destruct rest as [|c rest]; [reflexivity|]. simpl.
    now destruct (is_digit c).
  - simpl in Hds. apply andb_prop in Hds as [Hd Hds].
    rewrite Hd. now apply IH.
Qed.

(** The digits [decimal_fuel] writes: they are digits, they begin with
    one that is not zero unless the number is zero, and they are worth
    the number. *)
Lemma decimal_fuel_digits (fuel : nat) (n : Z) :
  0 <= n < 2 ^ Z.of_nat (S fuel) ->
  exists d ds,
    decimal_fuel (S fuel) n = d :: ds
    /\ is_digit d = true
    /\ (0 < n -> d <> 48%N)
    /\ forallb is_digit ds = true
    /\ fold_left step (d :: ds) 0 = n.
Proof.
  revert n; induction fuel as [|fuel IH]; intros n Hn;
    cbn [decimal_fuel]; destruct (Z.ltb_spec n 10) as [Hlt | Hge].
  1, 3: assert (Hr : 0 <= n <= 9) by lia;
    exists (digit n), []; destruct (digit_is_digit Hr) as [Hd Hv];
    (split; [reflexivity|]); (split; [exact Hd|]);
    (split; [unfold digit; lia|]); (split; [reflexivity|]);
    simpl; unfold step; rewrite Hv; lia.
  - change (2 ^ Z.of_nat 1) with 2 in Hn. lia.
  - assert (Hdiv : 0 <= n / 10 < 2 ^ Z.of_nat (S fuel)).
    { split; [apply Z.div_pos; lia|].
      rewrite (Nat2Z.inj_succ (S fuel)), Z.pow_succ_r in Hn by lia.
      apply Z.div_lt_upper_bound; lia. }
    destruct (IH _ Hdiv) as (d & ds & Heq & Hd & Hnz & Hds & Hval).
    assert (Hr : 0 <= n mod 10 <= 9) by (pose proof (Z.mod_pos_bound n 10); lia).
    destruct (digit_is_digit Hr) as [Hd' Hv'].
    exists d, (ds ++ [digit (n mod 10)]).
    cbn [decimal_fuel] in Heq. rewrite Heq. repeat split; auto.
    + intros _. apply Hnz. apply Z.div_str_pos. lia.
    + rewrite forallb_app, Hds. simpl. now rewrite Hd'.
    + change (fold_left step ((d :: ds) ++ [digit (n mod 10)]) 0 = n).
      rewrite fold_left_app, Hval. simpl. unfold step. rewrite Hv'.
      pose proof (Z.div_mod n 10). lia.
Qed.

Lemma log2_fuel (n : Z) : 0 <= n -> 0 <= n < 2 ^ Z.of_nat (S (Z.to_nat (Z.log2 n))).
Proof.
  intros Hn. split; [exact Hn|].
  rewrite Nat2Z.inj_succ, Z2Nat.id by apply Z.log2_nonneg.
  destruct (Z.eq_dec n 0) as [-> | Hne]; [reflexivity|].
  apply Z.log2_spec. lia.
Qed.

Lemma parse_natural_decimal (n : Z) (rest : str) :
  0 <= n -> continues_number rest = false ->
  parse_natural (decimal_fuel (S (Z.to_nat (Z.log2 n))) n ++ rest)
  = Some (n, rest).
Proof.
  intros Hn Hrest.
  destruct (decimal_fuel_digits _ (log2_fuel Hn)) as (d & ds & Heq & Hd & Hnz & Hds & Hval).
  rewrite Heq. simpl.
  assert (Hnext : match rest with [] => true | c :: _ => negb (is_digit c) end = true).
  { destruct rest as [|c rest]; [reflexivity|]. simpl in Hrest.
    destruct (is_digit c); [discriminate | reflexivity]. }
  destruct (Z.eq_dec n 0) as [-> | Hne].
  - change (decimal_fuel (S (Z.to_nat (Z.log2 0))) 0) with [48%N] in Heq.
    injection Heq as <- <-. reflexivity.
  - destruct (N.eqb_spec d 48) as [H48 | _]; [exfalso; apply Hnz; [lia | exact H48]|].
    rewrite Hd. f_equal.
    rewrite scan_digits_app; [| exact Hds | exact Hnext].
    change (fold_left step (d :: ds) 0 = n) in Hval. now rewrite <- Hval.
Qed.

Lemma str_of_int_head (n : Z) :
  exists c t, str_of_int n = c :: t /\ (c = 45%N \/ is_digit c = true).
Proof.
  unfold str_of_int. destruct (Z.ltb_spec n 0) as [Hneg | Hpos].
  - eexists; eexists; split; [reflexivity | now left].
  - destruct (decimal_fuel_digits _ (log2_fuel Hpos)) as (d & ds & Heq & Hd & _).
    exists d, ds. split; [exact Heq | now right].
Qed.

Lemma parse_int_str_of_int (n : Z) (rest : str) :
  continues_number rest = false ->
  parse_int (str_of_int n ++ rest) = Some (n, rest).
Proof.
  intros Hrest. unfold str_of_int.
  destruct (Z.ltb_spec n 0) as [Hneg | Hpos].
  - change (chr "-") with 45%N. unfold parse_int. cbn [app].
    rewrite N.eqb_refl.
    rewrite parse_natural_decimal by (auto; lia).
    rewrite Hrest. f_equal. f_equal. lia.
  - pose proof (parse_natural_decimal rest Hpos Hrest) as Hnat.
    destruct (decimal_fuel_digits _ (log2_fuel Hpos)) as (d & ds & Heq & Hd & _).
    rewrite Heq in *. unfold parse_int.
    change ((d :: ds) ++ rest) with (d :: ds ++ rest) in *. cbv beta iota.
    destruct (N.eqb_spec d 45) as [-> | _]; [discriminate|].
    rewrite Hnat, Hrest. f_equal. f_equal. lia.
Qed.
End Numbers.

Section Strings.
(** What [escape] writes for a character is one of three things: a
    two-character escape, a [\u00XX] escape, or the character. *)
Lemma escape_shape (c : char) :
  (exists e, escape c = [92; e]%N /\ (e =? 117)%N = false /\ unescape e = Some c)
  \/ (exists h1 h2 h3 h4,
         escape c = [92; 117; h1; h2; h3; h4]%N
         /\ hex4 h1 h2 h3 h4 = Some c /\ (55296 <=? c)%N = false)
  \/ (escape c = [c] /\ (c =? 34)%N = false /\ (c =? 92)%N = false
      /\ (c <? 32)%N = false).
Proof.
  destruct (N.ltb_spec c 32) as [Hlt | Hge].
  - assert (Hk : (N.to_nat c < 32)%nat) by lia.
    rewrite <- (N2Nat.id c). revert Hk. generalize (N.to_nat c) as k. intros k Hk.
    do 32 (destruct k as [|k];
           [ first [ left; eexists; repeat split; reflexivity
                   | right; left; do 4 eexists; repeat split; reflexivity ] |]).
    lia.
  - destruct (N.eqb_spec c 34) as [-> | H34].
    { left. exists 34%N. repeat split. }
    destruct (N.eqb_spec c 92) as [-> | H92].
    { left. exists 92%N. repeat split. }
    right. right. unfold escape.
    rewrite (proj2 (N.eqb_neq c 34)), (proj2 (N.eqb_neq c 92)),
      (proj2 (N.eqb_neq c 10)), (proj2 (N.eqb_neq c 13)),
      (proj2 (N.eqb_neq c 9)), (proj2 (N.eqb_neq c 8)),
      (proj2 (N.eqb_neq c 12)), (proj2 (N.ltb_ge c 32)) by lia.
    repeat split; try apply N.eqb_neq; try apply N.ltb_ge; assumption.
Qed.

Lemma parse_string_escape (c : char) (t : str) :
  parse_string (escape c ++ t) = cons_char c (parse_string t).
Proof.
  destruct (escape_shape c)
    as [(e & -> & He & Hu) | [(h1 & h2 & h3 & h4 & -> & Hh & Hs) | (-> & H34 & H92 & H32)]].
  - cbn [app parse_string]. change (92 =? 34)%N with false.
    change (92 =? 92)%N with true. cbv iota. now rewrite He, Hu.
  - cbn [app parse_string]. change (92 =? 34)%N with false.
    change (92 =? 92)%N with true. change (117 =? 117)%N with true. cbv iota.
    now rewrite Hh, Hs.
  - cbn [app parse_string]. now rewrite H34, H92, H32.
Qed.

Lemma parse_string_quote (s rest : str) :
  parse_string (flat_map escape s ++ 34%N :: rest) = Some (s, rest).
Proof.
  induction s as [|c s IH]; [reflexivity|].
  cbn [flat_map]. rewrite <- app_assoc, parse_string_escape, IH. reflexivity.
Qed.
End Strings.


Lemma str_eqb_eq (s t : str) : str_eqb s t = true <-> s = t.
Proof.
  revert t; induction s as [|a s IH]; intros [|b t]; simpl; split;
    try discriminate; try reflexivity.
  - intros H. apply andb_prop in H as [Hab Hst].
    apply N.eqb_eq in Hab. apply IH in Hst. congruence.
  - intros H. injection H as -> ->. rewrite N.eqb_refl. now apply IH.
Qed.

Lemma str_eqb_sym (s t : str) : str_eqb s t = str_eqb t s.
Proof.
  destruct (str_eqb s t) eqn:Hst, (str_eqb t s) eqn:Hts; try reflexivity.
  - apply str_eqb_eq in Hst. subst. rewrite (proj2 (str_eqb_eq t t) eq_refl) in Hts.
    discriminate.
  - apply str_eqb_eq in Hts. subst. rewrite (proj2 (str_eqb_eq s s) eq_refl) in Hst.
    discriminate.
Qed.

Section Dictionaries.
Lemma dict_set_new (key : str) (v : json) (d : list (str * json)) :
  has_key key d = false -> dict_set key v d = d ++ [(key, v)].
Proof.
  induction d as [|[k x] d IH]; simpl; [reflexivity|].
  intros H. apply orb_false_elim in H as [Hk Hd].
  rewrite Hk. now rewrite IH.
Qed.

Lemma has_key_app (key : str) (d d' : list (str * json)) :
  has_key key (d ++ d') = has_key key d || has_key key d'.
Proof. unfold has_key. apply existsb_app. Qed.

Lemma fold_dict_set_fresh (pairs d : list (str * json)) :
  keys_unique pairs = true ->
  (forall kv, In kv pairs -> has_key (fst kv) d = false) ->
  fold_left (fun d kv => dict_set (fst kv) (snd kv) d) pairs d = d ++ pairs.
Proof.
  revert d; induction pairs as [|[k v] pairs IH]; intros d Hu Hfresh; simpl.
  - now rewrite app_nil_r.
  - simpl in Hu. apply andb_prop in Hu as [Hk Hu].
    apply negb_true_iff in Hk.
    rewrite dict_set_new by (apply (Hfresh (k, v)); now left).
    rewrite IH; [now rewrite <- app_assoc | exact Hu |].
    intros kv Hin. rewrite has_key_app, (Hfresh kv) by now right.
    simpl. rewrite orb_false_r.
    unfold has_key in Hk.
    destruct (str_eqb k (fst kv)) eqn:Heq; [|reflexivity].
    rewrite <- Hk. symmetry. apply existsb_exists.
    exists kv. split; [exact Hin|]. now rewrite str_eqb_sym.
Qed.

(** A list of pairs without a repeated key is the dictionary it
    makes. *)
Lemma dict_of_pairs_unique (pairs : list (str * json)) :
  keys_unique pairs = true -> dict_of_pairs pairs = pairs.
Proof.
  intros Hu. unfold dict_of_pairs. now rewrite fold_dict_set_fresh.
Qed.
End Dictionaries.

Section Values.
Lemma skip_ws_head (c : char) (t : str) :
  is_ws c = false -> skip_ws (c :: t) = c :: t.
Proof. intros H. simpl. now rewrite H. Qed.

Lemma is_digit_range (c : char) : is_digit c = true -> (48 <= c <= 57)%N.
Proof.
  unfold is_digit. intros H. apply andb_prop in H as [H1 H2].
  apply N.leb_le in H1, H2. lia.
Qed.

Lemma dumps_opens (v : json) : exists c t, dumps v = c :: t /\ opens v c.
Proof.
  destruct v as [|[|]|n|s|items|members];
    try (eexists; eexists; split; [reflexivity | constructor]).
  destruct (str_of_int_head n) as (c & t & Heq & [Hc | Hd]);
    exists c, t; (split; [exact Heq|]); [subst c|]; now constructor.
Qed.

Lemma opens_plain (v : json) (c : char) :
  opens v c ->
  is_ws c = false /\ (c =? 93)%N = false /\ (c =? 125)%N = false
  /\ (c =? 44)%N = false.
Proof.
  intros [| | | |n d Hd| | |]; try (repeat split; reflexivity).
  apply is_digit_range in Hd. unfold is_ws.
  repeat split; repeat (apply orb_false_intro); apply N.eqb_neq; lia.
Qed.

Lemma dumps_head (v : json) :
  exists c t, dumps v = c :: t /\ is_ws c = false /\ (c =? 93)%N = false
              /\ (c =? 125)%N = false.
Proof.
  destruct (dumps_opens v) as (c & t & Heq & Ho).
  destruct (opens_plain Ho) as (H1 & H2 & H3 & _).
  exists c, t. auto.
Qed.

Lemma parse_value_int (n : Z) (rest : str) (fuel : nat) :
  continues_number rest = false ->
  parse_value (S fuel) (str_of_int n ++ rest) = Some (JInt n, rest).
Proof.
  intros Hrest. pose proof (@parse_int_str_of_int n rest Hrest) as Hint.
  destruct (str_of_int_head n) as (c & t & Heq & Hc).
  rewrite Heq in *. cbn [app parse_value] in *.
  assert (Hr : (c = 45 \/ 48 <= c <= 57)%N)
    by (destruct Hc as [-> | Hd]; [now left | right; now apply is_digit_range]).
  rewrite (proj2 (N.eqb_neq c 34)), (proj2 (N.eqb_neq c 123)),
    (proj2 (N.eqb_neq c 91)) by lia.
  cbn [startswith lit chr].
  change (chr "n") with 110%N. change (chr "t") with 116%N.
  change (chr "f") with 102%N.
  rewrite (proj2 (N.eqb_neq 110 c)), (proj2 (N.eqb_neq 116 c)),
    (proj2 (N.eqb_neq 102 c)) by lia.
  cbn [andb]. now rewrite Hint.
Qed.
End Values.

Section RoundTrip.
Lemma join_cons2 (p q : str) (ps : list str) :
  join (p :: q :: ps) = p ++ 44%N :: 32%N :: join (q :: ps).
Proof. reflexivity. Qed.

Lemma join_dumps_head (v : json) (vs : list json) :
  exists c t, join (map dumps (v :: vs)) = c :: t /\ is_ws c = false
              /\ (c =? 93)%N = false.
Proof.
  destruct (dumps_head v) as (c & t & Heq & Hws & H93 & _).
  destruct vs as [|v2 vs].
  - exists c, t. simpl. auto.
  - cbn [map]. rewrite join_cons2, Heq. eexists; eexists.
    split; [reflexivity | auto].
Qed.

Lemma parse_items_join (items : list json) :
  Forall reads_back items ->
  forallb well_formed items = true ->
  items <> [] ->
  forall (rest : str) (fuel : nat),
    (2 * length (join (map dumps items)) + 1 < fuel)%nat ->
    parse_items fuel (join (map dumps items) ++ 93%N :: rest)
    = Some (items, rest).
Proof.
  induction items as [|v vs IH]; intros Hall Hwf Hne rest fuel Hfuel;
    [congruence|].
  apply Forall_cons_iff in Hall as [Hv Hvs].
  cbn [forallb] in Hwf. apply andb_prop in Hwf as [Hwfv Hwfvs].
  destruct fuel as [|fuel]; [lia|].
  destruct vs as [|v2 vs].
  - cbn [map join] in *. cbn [parse_items].
    rewrite (Hv Hwfv) by (reflexivity || lia).
    rewrite skip_ws_head by reflexivity.
    reflexivity.
  - cbn [map] in *. rewrite join_cons2 in *.
    rewrite length_app in Hfuel. cbn [length] in Hfuel.
    rewrite <- app_assoc. cbn [app parse_items].
    rewrite (Hv Hwfv) by (reflexivity || lia).
    rewrite skip_ws_head by reflexivity.
    change (44 =? 93)%N with false. change (44 =? 44)%N with true. cbv iota.
    destruct (join_dumps_head v2 vs) as (c & t & Heq & Hws & _).
    cbn [map] in Heq.
    assert (Hskip : forall tail, skip_ws (join (dumps v2 :: map dumps vs) ++ tail)
                                 = join (dumps v2 :: map dumps vs) ++ tail).
    { intros tail. rewrite Heq. apply skip_ws_head. exact Hws. }
    change (skip_ws (32%N :: join (dumps v2 :: map dumps vs) ++ 93%N :: rest))
      with (skip_ws (join (dumps v2 :: map dumps vs) ++ 93%N :: rest)).
    rewrite Hskip, IH; [reflexivity | exact Hvs | exact Hwfvs | discriminate | lia].
Qed.

Lemma member_text_app (k : str) (v : json) (tail : str) :
  member_text (k, v) ++ tail
  = 34%N :: flat_map escape k ++ 34%N :: 58%N :: 32%N :: dumps v ++ tail.
Proof.
  unfold member_text, quote. cbn [fst snd app].
  rewrite <- !app_assoc. reflexivity.
Qed.

Lemma member_text_length (k : str) (v : json) :
  (length (dumps v) < length (member_text (k, v)))%nat.
Proof.
  unfold member_text. rewrite !length_app. cbn [fst snd lit length]. lia.
Qed.

Lemma parse_members_join (members : list (str * json)) :
  Forall (fun m => reads_back (snd m)) members ->
  forallb (fun m => well_formed (snd m)) members = true ->
  members <> [] ->
  forall (rest : str) (fuel : nat),
    (2 * length (join (map member_text members)) + 1 < fuel)%nat ->
    parse_members fuel (join (map member_text members) ++ 125%N :: rest)
    = Some (members, rest).
Proof.
  induction members as [|[k v] ms IH]; intros Hall Hwf Hne rest fuel Hfuel;
    [congruence|].
  apply Forall_cons_iff in Hall as [Hv Hms]. cbn [snd] in Hv.
  cbn [forallb snd] in Hwf. apply andb_prop in Hwf as [Hwfv Hwfms].
  destruct fuel as [|fuel]; [lia|].
  destruct (dumps_head v) as (c & t & Heq & Hws & _).
  assert (Hskip : forall tail, skip_ws (32%N :: dumps v ++ tail) = dumps v ++ tail).
  { intros tail.
    change (skip_ws (32%N :: dumps v ++ tail)) with (skip_ws (dumps v ++ tail)).
    rewrite Heq. apply (@skip_ws_head c (t ++ tail) Hws). }
  pose proof (member_text_length k v) as Hlen.
  destruct ms as [|[k2 v2] ms].
  - cbn [map join] in *. rewrite member_text_app. cbn [parse_members].
    change (34 =? 34)%N with true. cbv iota.
    rewrite parse_string_quote, skip_ws_head by reflexivity.
    change (58 =? 58)%N with true. cbv iota.
    rewrite Hskip, (Hv Hwfv) by (reflexivity || lia).
    rewrite skip_ws_head by reflexivity.
    reflexivity.
  - cbn [map] in *. rewrite join_cons2 in *.
    rewrite length_app in Hfuel. cbn [length] in Hfuel.
    rewrite <- app_assoc. cbn [app]. rewrite member_text_app.
    cbn [parse_members].
    change (34 =? 34)%N with true. cbv iota.
    rewrite parse_string_quote, skip_ws_head by reflexivity.
    change (58 =? 58)%N with true. cbv iota.
    rewrite Hskip, (Hv Hwfv) by (reflexivity || lia).
    rewrite skip_ws_head by reflexivity.
    change (44 =? 125)%N with false. change (44 =? 44)%N with true. cbv iota.
    assert (Hnext : forall tail,
               skip_ws (32%N :: join (member_text (k2, v2) :: map member_text ms) ++ tail)
               = join (member_text (k2, v2) :: map member_text ms) ++ tail).
    { intros tail. destruct ms as [|m3 ms]; cbn [map].
      - cbn [join]. now rewrite member_text_app.
      - rewrite join_cons2, <- app_assoc. now rewrite member_text_app. }
    rewrite Hnext, IH; [reflexivity | exact Hms | exact Hwfms | discriminate | lia].
Qed.

(** Every value is read back from its text. *)
Lemma parse_value_dumps (v : json) : reads_back v.
Proof.
  induction v as [|b|n|s|items IH|members IH] using json_ind;
    intros Hwf rest fuel Hrest Hfuel;
    (destruct fuel as [|fuel]; [lia|]).
  - cbn. reflexivity.
  - destruct b; cbn; reflexivity.
  - now apply parse_value_int.
  - cbn [dumps]. unfold quote. cbn [app parse_value].
    change (34 =? 34)%N with true. cbv iota.
    rewrite <- app_assoc. cbn [app]. now rewrite parse_string_quote.
  - cbn [dumps well_formed] in *. rewrite !length_app in Hfuel.
    cbn [lit length] in Hfuel.
    rewrite <- !app_assoc. cbn [lit chr app parse_value].
    change (chr "[") with 91%N. change (chr "]") with 93%N.
    change (91 =? 34)%N with false. change (91 =? 123)%N with false.
    change (91 =? 91)%N with true. cbv iota.
    destruct items as [|v vs]; [reflexivity|].
    destruct (join_dumps_head v vs) as (c & t & Heq & Hws & H93).
    pose proof (@parse_items_join (v :: vs) IH Hwf ltac:(discriminate) rest fuel) as Hitems.
    rewrite Heq in *. cbn [app] in *. rewrite skip_ws_head by exact Hws.
    rewrite H93, Hitems by lia. reflexivity.
  - cbn [dumps well_formed] in *. apply andb_prop in Hwf as [Hkeys Hwf].
    change (map (fun m => quote (fst m) ++ lit ": " ++ dumps (snd m)) members)
      with (map member_text members) in *.
    rewrite !length_app in Hfuel. cbn [lit length] in Hfuel.
    rewrite <- !app_assoc. cbn [lit chr app parse_value].
    change (chr "{") with 123%N. change (chr "}") with 125%N.
    change (123 =? 34)%N with false. change (123 =? 123)%N with true. cbv iota.
    destruct members as [|[k v] ms]; [reflexivity|].
    pose proof (@parse_members_join ((k, v) :: ms) IH Hwf ltac:(discriminate) rest fuel)
      as Hmembers.
    assert (Hhead : exists t, join (map member_text ((k, v) :: ms)) = 34%N :: t).
    { destruct ms as [|m2 ms]; cbn [map].
      - eexists. unfold member_text, quote. reflexivity.
      - rewrite join_cons2. eexists. unfold member_text, quote. reflexivity. }
    destruct Hhead as (t & Heq). rewrite Heq in *. cbn [app] in *.
    rewrite skip_ws_head by reflexivity.
    change (34 =? 125)%N with false. cbv iota.
    rewrite Hmembers by lia. now rewrite dict_of_pairs_unique.
Qed.
End RoundTrip.

Section WellFormed.
Let good (m : str * json) : bool := well_formed (snd m).

Lemma has_key_dict_set (k key : str) (v : json) (d : list (str * json)) :
  has_key k d = false -> str_eqb key k = false ->
  has_key k (dict_set key v d) = false.
Proof.
  intros Hd Hk. induction d as [|[k0 x] d IH]; simpl in *.
  - now rewrite Hk.
  - apply orb_false_elim in Hd as [H0 Hd].
    destruct (str_eqb k0 key); simpl; rewrite H0; simpl; auto.
Qed.

Lemma keys_unique_dict_set (key : str) (v : json) (d : list (str * json)) :
  keys_unique d = true -> keys_unique (dict_set key v d) = true.
Proof.
  induction d as [|[k x] d IH]; simpl; [reflexivity|].
  intros H. apply andb_prop in H as [Hk Hd].
  destruct (str_eqb k key) eqn:Heq; simpl.
  - now rewrite Hk, Hd.
  - rewrite IH by exact Hd. rewrite andb_true_r.
    apply negb_true_iff. apply negb_true_iff in Hk.
    apply has_key_dict_set; [exact Hk | now rewrite str_eqb_sym].
Qed.

Lemma good_dict_set (key : str) (v : json) (d : list (str * json)) :
  well_formed v = true -> forallb good d = true ->
  forallb good (dict_set key v d) = true.
Proof.
  intros Hv. induction d as [|[k x] d IH]; simpl.
  - intros _. unfold good. simpl. now rewrite Hv.
  - intros H. apply andb_prop in H as [Hx Hd].
    destruct (str_eqb k key); simpl.
    + unfold good at 1. simpl. now rewrite Hv, Hd.
    + now rewrite Hx, IH.
Qed.

Lemma dict_of_pairs_well_formed (pairs : list (str * json)) :
  forallb good pairs = true -> well_formed (JObj (dict_of_pairs pairs)) = true.
Proof.
  intros Hp. unfold dict_of_pairs.
  assert (Hfold : forall d,
             keys_unique d = true -> forallb good d = true ->
             keys_unique (fold_left (fun d kv => dict_set (fst kv) (snd kv) d) pairs d) = true
             /\ forallb good (fold_left (fun d kv => dict_set (fst kv) (snd kv) d) pairs d) = true).
  { induction pairs as [|[k v] pairs IH]; intros d Hu Hg; simpl; [auto|].
    simpl in Hp. apply andb_prop in Hp as [Hv Hp].
    apply IH; [exact Hp | now apply keys_unique_dict_set | now apply good_dict_set]. }
  destruct (Hfold [] eq_refl eq_refl) as [Hu Hg].
  cbn [well_formed]. unfold good in Hg. now rewrite Hu, Hg.
Qed.

Ltac break_parse H :=
  repeat match type of H with
         | context [match ?x with _ => _ end] => destruct x eqn:?; try discriminate H
         end.

(** What the scanner returns is well formed. *)
Lemma parse_well_formed (fuel : nat) :
  (forall s v rest, parse_value fuel s = Some (v, rest) -> well_formed v = true)
  /\ (forall s vs rest, parse_items fuel s = Some (vs, rest) ->
        forallb well_formed vs = true)
  /\ (forall s ms rest, parse_members fuel s = Some (ms, rest) ->
        forallb good ms = true).
Proof.
  induction fuel as [|fuel (IHv & IHi & IHm)];
    [repeat split; intros; discriminate|].
  split; [|split].
  - intros s v rest H. cbn [parse_value] in H. break_parse H;
      injection H as <- <-; try reflexivity.
    + apply dict_of_pairs_well_formed. eapply IHm; eassumption.
    + simpl. eapply IHi; eassumption.
  - intros s vs rest H. cbn [parse_items] in H. break_parse H;
      injection H as <- <-; simpl.
    + erewrite IHv by eassumption. reflexivity.
    + erewrite IHv, IHi by eassumption. reflexivity.
  - intros s ms rest H. cbn [parse_members] in H. break_parse H;
      injection H as <- <-; simpl; unfold good at 1; simpl.
    + erewrite IHv by eassumption. reflexivity.
    + erewrite IHv, IHm by eassumption. reflexivity.
Qed.

Lemma loads_well_formed (s : str) (v : json) :
  loads s = Parsed v -> well_formed v = true.
Proof.
  unfold loads. intros H. break_parse H. injection H as <-.
  eapply (proj1 (parse_well_formed _)); eassumption.
Qed.
End WellFormed.

(** The text [dumps] writes for a well-formed value, with or without a
    line end behind it, is read back as that value. *)
Lemma loads_dumps (v : json) (eol : str) :
  well_formed v = true -> eol = [] \/ eol = [10%N] ->
  loads (dumps v ++ eol) = Parsed v.
Proof.
  intros Hwf Heol. unfold loads.
  destruct (dumps_head v) as (c & t & Heq & Hws & _).
  assert (Hskip : skip_ws (dumps v ++ eol) = dumps v ++ eol)
    by (rewrite Heq; apply (@skip_ws_head c (t ++ eol) Hws)).
  rewrite Hskip, (@parse_value_dumps v Hwf eol).
  - destruct Heol as [-> | ->]; reflexivity.
  - destruct Heol as [-> | ->]; reflexivity.
  - rewrite length_app. lia.
Qed.

(** What [loads] accepts, [dumps] writes as a text that [loads] reads
    back as the same value. *)
Lemma loads_dumps_loads (s : str) (v : json) (eol : str) :
  loads s = Parsed v -> eol = [] \/ eol = [10%N] ->
  loads (dumps v ++ eol) = Parsed v.
Proof.
  intros Hs Heol. apply loads_dumps; [|exact Heol].
  now apply loads_well_formed with (s := s).
Qed.

#[export] Instance MiniJson_canonical : JsonCanonical MiniJson.
Proof.
  intros s v eol Hs Heol. exists v. split; [|reflexivity].
  exact (@loads_dumps_loads s v eol Hs Heol).
Qed.

(** ** Pagination *)

Section Strip.
Lemma lstrip_split (l : str) :
  exists pre,
    l = pre ++ lstrip l
    /\ forallb isspace pre = true
    /\ match lstrip l with [] => True | c :: _ => isspace c = false end.
Proof.
  induction l as [|c l (pre & Heq & Hpre & Hhd)]; simpl.
  - exists []. auto.
  - destruct (isspace c) eqn:Hc.
    + exists (c :: pre). simpl. rewrite Hc, Hpre. repeat split; auto. now f_equal.
    + exists []. auto.
Qed.

(** [strip] gives the line without the white space around it. *)
Lemma strip_trimmed (l : str) : trimmed (strip l) l.
Proof.
  unfold trimmed, strip, rstrip.
  destruct (lstrip_split l) as (pre & Hl & Hpre & Hhd).
  destruct (lstrip_split (rev (lstrip l))) as (post & Hr & Hpost & Hlast).
  set (m := lstrip l) in *. set (core := lstrip (rev m)) in *.
  assert (Hm : m = rev core ++ rev post).
  { rewrite <- rev_app_distr, <- Hr. now rewrite rev_involutive. }
  exists pre, (rev post). repeat split.
  - now rewrite <- Hm.
  - exact Hpre.
  - rewrite forallb_forall in *. intros x Hx. apply Hpost. now apply in_rev.
  - destruct (rev core) as [|a t] eqn:Hcore; [exact I|].
    rewrite Hm in Hhd. exact Hhd.
  - now rewrite rev_involutive.
Qed.
End Strip.

Section Pages.
Context {J : Json}.

Lemma render_lines_raises (ls : list str) (e : exn) :
  render_lines ls = Raise e -> e = OtherException.
Proof.
  induction ls as [|log ls IH]; simpl; [discriminate|].
  unfold render_line. destruct (json_loads log); simpl;
    try (destruct (render_lines ls); simpl; [discriminate | intros H; injection H as <-; now apply IH]).
  intros H. now injection H.
Qed.

Lemma render_lines_each (ls outs : list str) :
  render_lines ls = Ok outs ->
  Forall2 (fun log out => render_line log = Ok out) ls outs.
Proof.
  revert outs; induction ls as [|log ls IH]; intros outs; simpl.
  - intros H. injection H as <-. constructor.
  - destruct (render_line log) as [out|e] eqn:Hlog; simpl; [|discriminate].
    destruct (render_lines ls) as [rest|e]; simpl; [|discriminate].
    intros H. injection H as <-. constructor; [exact Hlog | now apply IH].
Qed.

Lemma render_lines_total (ls : list str) :
  (forall log, In log ls -> json_loads log <> LoadsError) ->
  exists outs, render_lines ls = Ok outs.
Proof.
  induction ls as [|log ls IH]; intros Hno; simpl.
  - now exists [].
  - destruct IH as (rest & ->); [intros l Hl; apply Hno; now right|].
    assert (Hlog : json_loads log <> LoadsError) by (apply Hno; now left).
    unfold render_line. destruct (json_loads log); simpl;
      [eexists; reflexivity | eexists; reflexivity | congruence].
Qed.

Lemma slice_incl {A : Type} (l : list A) (a b : Z) (x : A) :
  In x (slice l a b) -> In x l.
Proof.
  unfold slice. intros H.
  match type of H with
  | In x (firstn ?n (skipn ?k l)) =>
      rewrite <- (firstn_skipn k l); apply in_or_app; right;
      rewrite <- (firstn_skipn n (skipn k l)); apply in_or_app; now left
  end.
Qed.

(** The result of [get_log_content], case by case. *)
Lemma get_log_content_cases (dir : directory) (filename : str)
    (page page_size : Z) :
  get_log_content dir filename page page_size =
  match get_log_files dir with
  | [] => Raise (HTTPException 404)
  | _ :: _ =>
      match lookup dir filename with
      | None => Raise (HTTPException 404)
      | Some log_file =>
          match text_lines log_file with
          | None => Raise (HTTPException 500)
          | Some all_logs =>
              if page_size =? 0 then Raise (HTTPException 500)
              else
                let total_logs := Z.of_nat (length all_logs) in
                let total_pages := (total_logs + page_size - 1) / page_size in
                let page := settled_page total_pages page in
                match render_lines (page_lines all_logs page page_size) with
                | Ok logs =>
                    Ok {| logs := logs;
                          total := total_logs;
                          total_pages := total_pages;
                          current_page := page;
                          page_size := page_size |}
                | Raise _ => Raise (HTTPException 500)
                end
          end
      end
  end.
Proof.
  unfold get_log_content, get_log_content_body.
  destruct (get_log_files dir); [reflexivity|].
  destruct (lookup dir filename) as [f|]; [|reflexivity].
  destruct (text_lines f) as [all_logs|]; [|reflexivity].
  unfold floordiv. destruct (page_size =? 0); [reflexivity|].
  cbn [bind]. fold (settled_page ((Z.of_nat (length all_logs) + page_size - 1) / page_size) page).
  match goal with
  | |- context [render_lines ?ls] =>
      change ls with (page_lines all_logs
        (settled_page ((Z.of_nat (length all_logs) + page_size - 1) / page_size) page)
        page_size);
      destruct (render_lines (page_lines all_logs
        (settled_page ((Z.of_nat (length all_logs) + page_size - 1) / page_size) page)
        page_size)) as [outs|e] eqn:Hr
  end; cbn [bind try_except]; [reflexivity|].
  now rewrite (render_lines_raises _ Hr).
Qed.
End Pages.

Section Segments.
Lemma filter_nil_iff {A : Type} (p : A -> bool) (l : list A) :
  filter p l = [] <-> forall x, In x l -> p x = false.
Proof.
  induction l as [|y l IH]; simpl.
  - split; [intros _ x [] | reflexivity].
  - destruct (p y) eqn:Hy; split.
    + discriminate.
    + intros H. rewrite (H y) in Hy by now left. discriminate.
    + intros H x [<- | Hx]; [exact Hy | now apply IH].
    + intros H. apply IH. intros x Hx. apply H. now right.
Qed.

(** There is no log file to list exactly when the directory holds no
    segment. *)
Lemma get_log_files_nil (dir : directory) :
  get_log_files dir = [] <-> forall f, In f dir -> is_segment f = false.
Proof.
  unfold get_log_files, glob. split.
  - intros H f Hf.
    pose proof (sorted_reverse_perm snd
      (map (fun f => (f, st_ctime f))
           (filter (fun f => endswith (file_name f) (lit ".log")) dir)
       ++ map (fun f => (f, st_ctime f))
           (filter (fun f => endswith (file_name f) (lit ".log.zip")) dir))) as Hp.
    rewrite H in Hp. apply Permutation_nil in Hp.
    apply app_eq_nil in Hp as [H1 H2].
    apply map_eq_nil in H1, H2.
    unfold is_segment.
    rewrite (proj1 (filter_nil_iff _ _) H1 f Hf), (proj1 (filter_nil_iff _ _) H2 f Hf).
    reflexivity.
  - intros H.
    rewrite (proj2 (filter_nil_iff (fun f => endswith (file_name f) (lit ".log")) dir)),
      (proj2 (filter_nil_iff (fun f => endswith (file_name f) (lit ".log.zip")) dir)).
    + reflexivity.
    + intros f Hf. specialize (H f Hf). unfold is_segment in H.
      now apply orb_false_elim in H.
    + intros f Hf. specialize (H f Hf). unfold is_segment in H.
      now apply orb_false_elim in H.
Qed.
End Segments.


Section Clamping.
Lemma ceiling_pages (n page_size : Z) :
  0 <= n -> 1 <= page_size ->
  ((n + page_size - 1) / page_size - 1) * page_size < n
  /\ n <= (n + page_size - 1) / page_size * page_size.
Proof.
  intros Hn Hps.
  pose proof (Z.div_mod (n + page_size - 1) page_size ltac:(lia)) as Hdm.
  pose proof (Z.mod_pos_bound (n + page_size - 1) page_size ltac:(lia)) as Hr.
  nia.
Qed.

Lemma settled_page_cases (total_pages page : Z) :
  0 <= total_pages ->
  (total_pages < page -> 0 < total_pages ->
   settled_page total_pages page = total_pages)
  /\ (page < 1 -> settled_page total_pages page = 1)
  /\ (total_pages = 0 -> settled_page total_pages page = 1)
  /\ (1 <= page <= total_pages -> settled_page total_pages page = page).
Proof.
  intros Htp. unfold settled_page.
  destruct (Z.ltb_spec total_pages page);
    [destruct (Z.ltb_spec total_pages 1) | destruct (Z.ltb_spec page 1)];
    repeat split; intros; lia.
Qed.
End Clamping.

(** C4, as the code has it.  For a file that can be read, with
    [total_lines] lines, and a page size from 1 to 1000, whatever the
    page number, [get_log_content] returns a page; its [total_pages] is
    [total_lines / page_size] rounded up; a page number above
    [total_pages] gives [current_page = total_pages] when the file has
    a line, and a page number below 1 gives [current_page = 1].  A file
    without a line gives [current_page = 1]. *)
Theorem get_log_content_clamps_page {J : Json} (dir : directory)
    (filename : str) (f : File) (all_logs : list str) (page page_size : Z) :
  get_log_files dir <> [] ->
  lookup dir filename = Some f ->
  text_lines f = Some all_logs ->
  (forall log, In log all_logs -> json_loads log <> LoadsError) ->
  1 <= page_size <= 1000 ->
  exists pg,
    get_log_content dir filename page page_size = Ok pg
    /\ total pg = Z.of_nat (length all_logs)
    /\ (total_pages pg - 1) * page_size < total pg <= total_pages pg * page_size
    /\ (total_pages pg < page -> 0 < total pg -> current_page pg = total_pages pg)
    /\ (page < 1 -> current_page pg = 1)
    /\ (total pg = 0 -> current_page pg = 1)
    /\ (1 <= page <= total_pages pg -> current_page pg = page).
Proof.
  intros Hseg Hfile Htext Hjson Hps.
  rewrite get_log_content_cases, Hfile, Htext.
  destruct (get_log_files dir) as [|pc files]; [congruence|].
  destruct (Z.eqb_spec page_size 0) as [? | _]; [lia|]. cbv zeta.
  set (n := Z.of_nat (length all_logs)).
  set (tp := (n + page_size - 1) / page_size).
  destruct (render_lines_total (page_lines all_logs (settled_page tp page) page_size))
    as (outs & ->).
  { intros log Hlog. apply Hjson. unfold page_lines in Hlog.
    now apply slice_incl in Hlog. }
  destruct (@ceiling_pages n page_size ltac:(lia) ltac:(lia)) as [Hlow Hhigh].
  fold tp in Hlow, Hhigh.
  assert (Htp : 0 <= tp) by nia.
  destruct (@settled_page_cases tp page Htp) as (Habove & Hbelow & Hzero & Hin).
  eexists. split; [reflexivity|]. cbn [total total_pages current_page].
  split; [exact (eq_refl n)|]. split; [split; assumption|].
  split; [intros H1 H2; apply Habove; [exact H1 | nia]|].
  split; [exact Hbelow|]. split; [|exact Hin].
  intros H0. apply Hzero. nia.
Qed.

(** The hypotheses of the theorem hold for the second page of two
    lines of the sample log. *)
Lemma get_log_content_clamps_page_sample :
  exists pg,
    get_log_content sample_dir (lit "app.log") 7 2 = Ok pg
    /\ total pg = 3
    /\ (total_pages pg - 1) * 2 < total pg <= total_pages pg * 2
    /\ (total_pages pg < 7 -> 0 < total pg -> current_page pg = total_pages pg)
    /\ (7 < 1 -> current_page pg = 1)
    /\ (total pg = 0 -> current_page pg = 1)
    /\ (1 <= 7 <= total_pages pg -> current_page pg = 7).
Proof.
  apply (@get_log_content_clamps_page MiniJson sample_dir (lit "app.log") sample_log
           [text_line (jlit "{'a':1}"); text_line (lit "  not json  ");
            text_line (jlit "[1, 'x', null]")] 7 2).
  - vm_compute. discriminate.
  - vm_compute. reflexivity.
  - reflexivity.
  - intros log Hlog. unfold json_loads, MiniJson, loads.
    destruct (parse_value _ _) as [[v rest]|]; [destruct (skip_ws rest)|]; discriminate.
  - lia.
Defined.

(** C4, as the claim has it, fails on a file without a line: the page
    number 3 is above [total_pages = 0], and [current_page] is 1. *)
Lemma get_log_content_page_above_none :
  exists pg,
    get_log_content sample_dir (lit "empty.log") 3 100 = Ok pg
    /\ total_pages pg < 3
    /\ current_page pg <> total_pages pg.
Proof.
  eexists. split; [vm_compute; reflexivity|].
  cbn [total_pages current_page]. split; [lia | discriminate].
Qed.

(** C9. For a file that exists and has no line, every page number from
    1 on and every page size from 1 to 1000 give [total_pages = 0], no
    line and [current_page = 1]: the one case in which [current_page]
    is above [total_pages]. *)
Theorem get_log_content_empty_file {J : Json} (dir : directory)
    (filename : str) (f : File) (page page_size : Z) :
  get_log_files dir <> [] ->
  lookup dir filename = Some f ->
  text_lines f = Some [] ->
  valid_query page page_size ->
  exists pg,
    get_log_content dir filename page page_size = Ok pg
    /\ logs pg = [] /\ total pg = 0 /\ total_pages pg = 0 /\ current_page pg = 1
    /\ total_pages pg < current_page pg.
Proof.
  intros Hseg Hfile Htext [Hpage Hps].
  rewrite get_log_content_cases, Hfile, Htext.
  destruct (get_log_files dir) as [|pc files]; [congruence|].
  destruct (Z.eqb_spec page_size 0) as [? | _]; [lia|]. cbv zeta.
  cbn [length Z.of_nat].
  assert (Htp : (0 + page_size - 1) / page_size = 0)
    by (apply Z.div_small; lia).
  rewrite Htp.
  assert (Hp : settled_page 0 page = 1).
  { unfold settled_page. destruct (Z.ltb_spec 0 page); [reflexivity | lia]. }
  rewrite Hp.
  assert (Hnil : page_lines (@nil (list N)) 1 page_size = [])
    by (unfold page_lines, slice; now rewrite skipn_nil, firstn_nil).
  rewrite Hnil. eexists. split; [reflexivity|].
  cbn [logs total total_pages current_page]. repeat split; lia.
Qed.

(** The hypotheses of the theorem hold for the empty file of the
    sample directory. *)
Lemma get_log_content_empty_file_sample :
  exists pg,
    get_log_content sample_dir (lit "empty.log") 3 100 = Ok pg
    /\ logs pg = [] /\ total pg = 0 /\ total_pages pg = 0 /\ current_page pg = 1
    /\ total_pages pg < current_page pg.
Proof.
  apply (@get_log_content_empty_file MiniJson sample_dir (lit "empty.log") empty_log 3 100).
  - vm_compute. discriminate.
  - vm_compute. reflexivity.
  - reflexivity.
  - unfold valid_query. lia.
Defined.

Section Lines.
Context {J : Json} {HJ : JsonCanonical J}.

Lemma render_line_rendered (log out : str) :
  render_line log = Ok out -> rendered log out.
Proof.
  unfold rendered, render_line at 1.
  destruct (json_loads log) as [v| |] eqn:Hlog; intros H;
    [injection H as <- | injection H as <- | discriminate].
  - destruct (@canonical_text J HJ log v [] Hlog (or_introl eq_refl)) as (v1 & Hv1 & Hd1).
    destruct (@canonical_text J HJ log v [10%N] Hlog (or_intror eq_refl)) as (v2 & Hv2 & Hd2).
    rewrite app_nil_r in Hv1. unfold render_line.
    rewrite Hv1, Hv2, Hd1, Hd2. auto.
  - split; [reflexivity | apply strip_trimmed].
Qed.
End Lines.



(** ** Compressed segments *)

Section Archives.
Context {J : Json}.

Lemma lookup_without_archive (dir : directory) (filename : str) :
  lookup (map without_archive dir) filename
  = option_map without_archive (lookup dir filename).
Proof.
  unfold lookup. induction dir as [|f dir IH]; simpl; [reflexivity|].
  destruct (str_eqb (file_name f) filename); [reflexivity | exact IH].
Qed.

Lemma get_log_files_without_archive (dir : directory) :
  get_log_files (map without_archive dir) = [] <-> get_log_files dir = [].
Proof.
  rewrite !get_log_files_nil. split; intros H f Hf.
  - apply (H (without_archive f)). now apply in_map.
  - apply in_map_iff in Hf as (g & <- & Hg). apply (H g Hg).
Qed.

(** [get_log_content] reads every file as text: what archive the
    bytes of a file may be makes no difference to what it returns. *)
Lemma get_log_content_ignores_archives (dir : directory) (filename : str)
    (page page_size : Z) :
  get_log_content (map without_archive dir) filename page page_size
  = get_log_content dir filename page page_size.
Proof.
  rewrite !get_log_content_cases, lookup_without_archive.
  pose proof (get_log_files_without_archive dir) as Hnil.
  destruct (get_log_files (map without_archive dir)) as [|pc files],
           (get_log_files dir) as [|pc' files'];
    try reflexivity.
  - destruct Hnil as [Hnil _]. specialize (Hnil eq_refl). discriminate.
  - destruct Hnil as [_ Hnil]. specialize (Hnil eq_refl). discriminate.
  - destruct (lookup dir filename) as [f|]; reflexivity.
Qed.
End Archives.

(** C7, on the compressed segment of the sample directory.
    [read_log_file] opens the archive and gives the two lines of the log
    inside; [get_log_content] does not call it: it opens the file as
    text, the bytes of the archive do not decode, and the request ends
    with the status 500. *)
Theorem get_log_content_does_not_decompress :
  read_log_file sample_zip 1 100
  = Ok (1, [text_line (jlit "{'a':1}"); text_line (lit "second line")])
  /\ get_log_content sample_dir (file_name sample_zip) 1 100
     = Raise (HTTPException 500).
Proof.
  split; vm_compute; reflexivity.
Qed.

(** * More of the code *)

(** ** [format_file_size] *)

Lemma round_half_even_nearest (num den : Z) :
  0 < den -> 2 * Z.abs (num - round_half_even num den * den) <= den.
Proof.
  intros Hden. unfold round_half_even.
  pose proof (Z.div_mod num den ltac:(lia)) as Hdm.
  pose proof (Z.mod_pos_bound num den Hden) as Hr.
  destruct (Z.ltb_spec (2 * (num mod den)) den);
    [|destruct (Z.ltb_spec den (2 * (num mod den))); [|destruct (Z.even (num / den))]];
    nia.
Qed.

Lemma format_units_unit (unit : string) (rest : list string) (num den : Z) :
  num < 1024 * den ->
  format_units (unit :: rest) num den = format_2f num den ++ lit " " ++ lit unit.
Proof.
  intros H. cbn [format_units]. now rewrite (proj2 (Z.ltb_lt _ _) H).
Qed.

Lemma format_units_next (unit : string) (rest : list string) (num den : Z) :
  1024 * den <= num ->
  format_units (unit :: rest) num den = format_units rest num (den * 1024).
Proof.
  intros H. cbn [format_units]. now rewrite (proj2 (Z.ltb_ge _ _) H).
Qed.

(** X1. For a size from 0 to below [2^53] (the sizes a float holds
    exactly), [format_file_size] prints the size divided by [1024^k],
    rounded to the nearest hundredth, and the unit number [k] of B, KB,
    MB, GB, TB, where [k] is the first unit in which the size is below
    1024 and TB when there is none. *)
Theorem format_file_size_rounds (n : Z) :
  0 <= n < 2 ^ 53 ->
  exists (k : nat) (h : Z),
    (k <= 4)%nat
    /\ format_file_size n
       = str_of_int (h / 100) ++ lit "." ++ digits 2 (h mod 100)
           ++ lit " " ++ lit (nth k units ""%string)
    /\ 2 * Z.abs (100 * n - h * 1024 ^ Z.of_nat k) <= 1024 ^ Z.of_nat k
    /\ ((0 < k)%nat -> 1024 ^ Z.of_nat k <= n)
    /\ ((k < 4)%nat -> n < 1024 ^ Z.of_nat (S k)).
Proof.
  intros [Hn _]. unfold format_file_size.
  assert (Hshape : forall k den unit,
             den = 1024 ^ Z.of_nat k ->
             exists h,
               format_2f n den ++ lit " " ++ lit unit
               = str_of_int (h / 100) ++ lit "." ++ digits 2 (h mod 100)
                   ++ lit " " ++ lit unit
               /\ 2 * Z.abs (100 * n - h * 1024 ^ Z.of_nat k) <= 1024 ^ Z.of_nat k).
  { intros k den unit ->. exists (round_half_even (100 * n) (1024 ^ Z.of_nat k)).
    split; [unfold format_2f; now rewrite <- !app_assoc|].
    apply round_half_even_nearest. apply Z.pow_pos_nonneg; lia. }
  destruct (Z.lt_ge_cases n 1024) as [H0 | H0].
  { rewrite format_units_unit by lia.
    destruct (Hshape 0%nat 1 "B"%string eq_refl) as (h & Heq & Hh).
    exists 0%nat, h. split; [lia|]. split; [exact Heq|]. split; [exact Hh|].
    split; intros; simpl Z.of_nat in *; lia. }
  rewrite format_units_next by lia.
  destruct (Z.lt_ge_cases n (1024 ^ 2)) as [H1 | H1].
  { rewrite format_units_unit by lia.
    destruct (Hshape 1%nat (1 * 1024) "KB"%string eq_refl) as (h & Heq & Hh).
    exists 1%nat, h. split; [lia|]. split; [exact Heq|]. split; [exact Hh|].
    split; intros; simpl Z.of_nat in *; lia. }
  rewrite format_units_next by lia.
  destruct (Z.lt_ge_cases n (1024 ^ 3)) as [H2 | H2].
  { rewrite format_units_unit by lia.
    destruct (Hshape 2%nat (1 * 1024 * 1024) "MB"%string eq_refl) as (h & Heq & Hh).
    exists 2%nat, h. split; [lia|]. split; [exact Heq|]. split; [exact Hh|].
    split; intros; simpl Z.of_nat in *; lia. }
  rewrite format_units_next by lia.
  destruct (Z.lt_ge_cases n (1024 ^ 4)) as [H3 | H3].
  { rewrite format_units_unit by lia.
    destruct (Hshape 3%nat (1 * 1024 * 1024 * 1024) "GB"%string eq_refl) as (h & Heq & Hh).
    exists 3%nat, h. split; [lia|]. split; [exact Heq|]. split; [exact Hh|].
    split; intros; simpl Z.of_nat in *; lia. }
  rewrite format_units_next by lia. cbn [format_units].
  destruct (Hshape 4%nat (1 * 1024 * 1024 * 1024 * 1024) "TB"%string eq_refl)
    as (h & Heq & Hh).
  exists 4%nat, h. split; [lia|]. split; [exact Heq|]. split; [exact Hh|].
  split; intros; simpl Z.of_nat in *; lia.
Qed.

(** The size of the sample log, 31 bytes, is in that range. *)
Lemma format_file_size_rounds_sample :
  exists (k : nat) (h : Z),
    (k <= 4)%nat
    /\ format_file_size 31
       = str_of_int (h / 100) ++ lit "." ++ digits 2 (h mod 100)
           ++ lit " " ++ lit (nth k units ""%string)
    /\ 2 * Z.abs (100 * 31 - h * 1024 ^ Z.of_nat k) <= 1024 ^ Z.of_nat k
    /\ ((0 < k)%nat -> 1024 ^ Z.of_nat k <= 31)
    /\ ((k < 4)%nat -> 31 < 1024 ^ Z.of_nat (S k)).
Proof.
  apply (@format_file_size_rounds 31). lia.
Defined.

(** X2. A size from 0 to below 1024 is printed as it is, in bytes and
    with two zeros behind the point. *)
Theorem format_file_size_bytes (n : Z) :
  0 <= n < 1024 -> format_file_size n = str_of_int n ++ lit ".00 B".
Proof.
  intros Hn. unfold format_file_size. rewrite format_units_unit by lia.
  unfold format_2f, round_half_even.
  rewrite Z.div_1_r, Z.mod_1_r. change (2 * 0 <? 1) with true. cbv iota.
  replace (100 * n / 100) with n by (rewrite Z.mul_comm; symmetry; apply Z.div_mul; lia).
  replace (100 * n mod 100) with 0 by (rewrite Z.mul_comm; symmetry; apply Z.mod_mul; lia).
  rewrite <- !app_assoc. reflexivity.
Qed.

Lemma format_file_size_bytes_sample :
  format_file_size 31 = str_of_int 31 ++ lit ".00 B".
Proof.
  apply (@format_file_size_bytes 31). lia.
Defined.

(** ** [websocket_logs]: the life of a session *)

Lemma list_contains_In (ws : WebSocket) (reg : list WebSocket) :
  list_contains Nat.eqb ws reg = true <-> In ws reg.
Proof.
  induction reg as [|c reg IH]; simpl; [split; [discriminate | tauto]|].
  rewrite orb_true_iff, IH, Nat.eqb_eq. tauto.
Qed.

Lemma list_remove_last (ws : WebSocket) (reg : list WebSocket) :
  ~ In ws reg -> list_remove Nat.eqb ws (reg ++ [ws]) = Ok reg.
Proof.
  induction reg as [|c reg IH]; simpl; intros Hnot.
  - now rewrite Nat.eqb_refl.
  - destruct (Nat.eqb_spec c ws) as [-> | _]; [tauto|].
    rewrite IH by tauto. reflexivity.
Qed.

Lemma safe_remove_last (ws : WebSocket) (reg : list WebSocket) :
  ~ In ws reg -> safe_remove ws (reg ++ [ws]) = reg.
Proof.
  intros Hnot. unfold safe_remove.
  rewrite (proj2 (list_contains_In ws (reg ++ [ws])))
    by (apply in_or_app; right; now left).
  now rewrite list_remove_last.
Qed.

Lemma heartbeat_loop_registry (w : World) (ws : WebSocket) (msgs : list inbound)
    (reg : list WebSocket) :
  let '(reg', _, fin) := heartbeat_loop w ws msgs reg in
  reg' = (if fin then safe_remove ws reg else reg)
  /\ (existsb is_end msgs = true -> fin = true).
Proof.
  induction msgs as [|[data | |] msgs IH]; cbn [heartbeat_loop existsb is_end orb].
  - split; [reflexivity | discriminate].
  - destruct (heartbeat_loop w ws msgs reg) as [[reg' tr] fin].
    destruct (str_eqb data (lit "heartbeat")); [destruct (send_text_ok w ws)|];
      auto.
  - auto.
  - auto.
Qed.



Lemma replay_sends_no_text (w : World) (ws : WebSocket) (queue : list LogEntry) :
  filter is_send_text (replay w ws queue) = []
  /\ filter is_heartbeat_received (replay w ws queue) = [].
Proof.
  induction queue as [|log queue [IH1 IH2]]; simpl; [auto|].
  destruct (send_json_ok w ws log); simpl; auto.
Qed.

Lemma heartbeat_loop_echoes (w : World) (ws : WebSocket) (msgs : list inbound)
    (reg : list WebSocket) :
  let tr := snd (fst (heartbeat_loop w ws msgs reg)) in
  length (filter is_send_text tr) = length (filter is_heartbeat_received tr)
  /\ Forall (fun e => match e with
                      | EvSendText ws' data _ => ws' = ws /\ data = lit "heartbeat"
                      | _ => True
                      end) tr.
Proof.
  induction msgs as [|[data | |] msgs IH]; cbn [heartbeat_loop].
  - simpl. auto.
  - destruct (heartbeat_loop w ws msgs reg) as [[reg' tr] fin].
    cbn [fst snd] in IH. destruct IH as [IHn IHall].
    destruct (str_eqb data (lit "heartbeat")) eqn:Hdata.
    + destruct (send_text_ok w ws); cbn [fst snd filter is_send_text is_heartbeat_received].
      * rewrite Hdata. cbn [length]. split; [now rewrite IHn|].
        repeat constructor; auto.
      * rewrite Hdata. cbn [length]. split; [reflexivity|]. repeat constructor; auto.
    + cbn [fst snd filter is_send_text is_heartbeat_received]. rewrite Hdata.
      split; [exact IHn|]. constructor; auto.
  - simpl. split; [reflexivity|]. repeat constructor.
  - simpl. split; [reflexivity|]. repeat constructor.
Qed.


(** ** [broadcast_log]: what a session receives *)

Lemma delivered_logs_app (c : WebSocket) (tr1 tr2 : list event) :
  delivered_logs c (tr1 ++ tr2) = delivered_logs c tr1 ++ delivered_logs c tr2.
Proof.
  induction tr1 as [|e tr1 IH]; [reflexivity|].
  destruct e as [| | |ws' log [|]| | | |]; cbn [app delivered_logs]; auto.
  destruct (Nat.eqb ws' c); [cbn [app]; now f_equal | exact IH].
Qed.

Lemma delivered_logs_one_publish (w : World) (log : LogEntry) (c : WebSocket)
    (reg : list WebSocket) :
  NoDup reg ->
  delivered_logs c (flat_map (delivery_events w log) reg)
  = if list_contains Nat.eqb c reg && client_connected w c && send_json_ok w c log
    then [log] else [].
Proof.
  induction 1 as [|x reg Hx Hnd IH]; [reflexivity|].
  cbn [flat_map list_contains]. rewrite delivered_logs_app, IH.
  unfold delivery_events.
  destruct (Nat.eqb_spec x c) as [-> | Hne].
  - assert (Hc : list_contains Nat.eqb c reg = false).
    { destruct (list_contains Nat.eqb c reg) eqn:H; [|reflexivity].
      apply list_contains_In in H. contradiction. }
    rewrite Hc. cbn [orb andb].
    destruct (client_connected w c); [|reflexivity].
    destruct (send_json_ok w c log); cbn [delivered_logs]; [|reflexivity].
    now rewrite Nat.eqb_refl.
  - cbn [orb].
    destruct (client_connected w x); [|reflexivity].
    destruct (send_json_ok w x log); cbn [delivered_logs]; [|reflexivity].
    destruct (Nat.eqb_spec x c); [contradiction | reflexivity].
Qed.

Lemma list_contains_filter (p : WebSocket -> bool) (c : WebSocket)
    (reg : list WebSocket) :
  list_contains Nat.eqb c (filter p reg) = list_contains Nat.eqb c reg && p c.
Proof.
  induction reg as [|x reg IH]; [reflexivity|]. cbn [filter list_contains].
  destruct (Nat.eqb_spec x c) as [-> | Hne].
  - destruct (p c) eqn:Hp; cbn [list_contains];
      rewrite ?Nat.eqb_refl; cbn [orb]; rewrite ?andb_true_r, ?andb_false_r;
      [reflexivity|].
    rewrite IH, ?Hp. apply andb_false_r.
  - destruct (p x); cbn [list_contains orb]; [|exact IH].
    destruct (Nat.eqb_spec x c); [contradiction | exact IH].
Qed.

Lemma publish_trace_delivered (w : World) (logs : list LogEntry) (st : State) :
  NoDup (active_connections st) ->
  exists st' tr,
    publish_trace w logs st = Ok (st', tr)
    /\ active_connections st'
       = filter (fun c => forallb (fun log => negb (delivery_fails w log c)) logs)
           (active_connections st)
    /\ forall c,
         delivered_logs c tr
         = if list_contains Nat.eqb c (active_connections st) && client_connected w c
           then take_while (send_json_ok w c) logs else [].
Proof.
  revert st; induction logs as [|log logs IH]; intros st Hnd; cbn [publish_trace].
  - exists st, []. split; [reflexivity|]. split.
    + cbn [forallb]. clear. induction (active_connections st) as [|x l IHl];
        [reflexivity | cbn [filter]; now f_equal].
    + intros c. cbn [delivered_logs take_while]. now destruct (_ && _).
  - rewrite broadcast_log_result.
    match goal with
    | |- context [publish_trace w logs ?s] =>
        destruct (IH s) as (st' & tr & Hrun & Hreg & Hdel);
        [cbn [active_connections]; now apply NoDup_filter|]
    end.
    rewrite Hrun. exists st', (flat_map (delivery_events w log) (active_connections st) ++ tr).
    split; [reflexivity|]. cbn [active_connections] in *. split.
    + rewrite Hreg, filter_filter_andb. reflexivity.
    + intros c. rewrite delivered_logs_app, delivered_logs_one_publish, Hdel by exact Hnd.
      rewrite list_contains_filter. unfold delivery_fails. cbn [take_while].
      destruct (list_contains Nat.eqb c (active_connections st)); [|reflexivity].
      destruct (client_connected w c); [|reflexivity].
      destruct (send_json_ok w c log); reflexivity.
Qed.

(** X5. Publishes that run one after the other never raise.  A
    registered and connected session receives the published records in
    the order of publication, each once, up to the first one whose send
    raises, and nothing after it; a registered session that is not
    connected receives nothing.  The sessions that stay registered are
    those for which no send raised (the ones that are not connected
    among them). *)
Theorem publish_trace_in_order (w : World) (logs : list LogEntry) (st : State) :
  NoDup (active_connections st) ->
  exists st' tr,
    publish_trace w logs st = Ok (st', tr)
    /\ active_connections st'
       = filter (fun c => forallb (fun log => negb (delivery_fails w log c)) logs)
           (active_connections st)
    /\ forall c, In c (active_connections st) ->
         delivered_logs c tr
         = if client_connected w c then take_while (send_json_ok w c) logs else [].
Proof.
  intros Hnd. destruct (@publish_trace_delivered w logs st Hnd) as (st' & tr & Hrun & Hreg & Hdel).
  exists st', tr. split; [exact Hrun|]. split; [exact Hreg|].
  intros c Hc. rewrite Hdel. apply list_contains_In in Hc. now rewrite Hc.
Qed.

(** The registry of the viewers 3 and 7 holds no connection twice. *)
Lemma publish_trace_in_order_sample :
  exists st' tr,
    publish_trace broken_world (log_queue sample_state)
      {| log_queue := []; active_connections := [3; 7]%nat |} = Ok (st', tr)
    /\ active_connections st'
       = filter (fun c => forallb (fun log => negb (delivery_fails broken_world log c))
                            (log_queue sample_state))
           [3; 7]%nat
    /\ forall c, In c [3; 7]%nat ->
         delivered_logs c tr
         = if client_connected broken_world c
           then take_while (send_json_ok broken_world c) (log_queue sample_state)
           else [].
Proof.
  apply (@publish_trace_in_order broken_world (log_queue sample_state)
           {| log_queue := []; active_connections := [3; 7]%nat |}).
  cbn [active_connections]. repeat constructor; simpl; intuition discriminate.
Defined.

(** ** [broadcast_log] between tasks *)

Lemma list_remove_keeps (c c' : WebSocket) (reg reg' : list WebSocket) :
  list_remove Nat.eqb c' reg = Ok reg' -> c <> c' -> In c reg -> In c reg'.
Proof.
  revert reg'; induction reg as [|x reg IH]; intros reg'; simpl; [discriminate|].
  destruct (Nat.eqb_spec x c') as [-> | Hne].
  - intros H Hc [Hx | Hin]; injection H as <-; [congruence | exact Hin].
  - destruct (list_remove Nat.eqb c' reg) as [r|e]; [|discriminate].
    intros H Hc [Hx | Hin]; injection H as <-; [now left | right; now apply IH].
Qed.

Lemma safe_remove_keeps (c ws : WebSocket) (reg : list WebSocket) :
  c <> ws -> In c reg -> In c (safe_remove ws reg).
Proof.
  intros Hne Hin. unfold safe_remove.
  destruct (list_contains Nat.eqb ws reg); [|exact Hin].
  destruct (list_remove Nat.eqb ws reg) as [reg'|e] eqn:Hrm; [|exact Hin].
  now apply (@list_remove_keeps c ws reg reg' Hrm).
Qed.

Lemma set_nth_Forall {A : Type} (P : A -> Prop) (i : nat) (x : A) (l : list A) :
  P x -> Forall P l -> Forall P (set_nth i x l).
Proof.
  intros Hx Hl. revert i; induction Hl as [|y l Hy Hl IH]; intros i;
    [destruct i; constructor|].
  destruct i; cbn [set_nth]; constructor; auto.
Qed.

Lemma enter_loop_ok (w : World) (log : LogEntry) (snapshot : list WebSocket) :
  task_ok w (enter_loop w log snapshot).
Proof.
  induction snapshot as [|c rest IH]; cbn [enter_loop]; [exact I|].
  destruct (client_connected w c); [exact I | exact IH].
Qed.

Lemma resume_keeps (w : World) (c : WebSocket) (t : task) (st : State) :
  (forall log, send_json_ok w c log = true) ->
  task_ok w t ->
  In c (active_connections st) ->
  task_ok w (fst (fst (resume w t st)))
  /\ In c (active_connections (snd (fst (resume w t st)))).
Proof.
  intros Hc Ht Hin.
  destruct t as [log | log c' rest | log c' rest | | e]; cbn [resume].
  - cbn [fst snd active_connections]. split; [apply enter_loop_ok | exact Hin].
  - destruct (send_json_ok w c' log) eqn:Hs; cbn [fst snd];
      (split; [|exact Hin]); [apply enter_loop_ok | exact Hs].
  - cbn [task_ok] in Ht.
    destruct (list_remove Nat.eqb c' (active_connections st)) as [reg|e] eqn:Hrm;
      cbn [fst snd active_connections].
    + split; [apply enter_loop_ok|].
      apply (@list_remove_keeps c c' (active_connections st) reg Hrm); [|exact Hin].
      intros ->. rewrite Hc in Ht. discriminate.
    + split; [exact I | exact Hin].
  - split; [exact I | exact Hin].
  - split; [exact I | exact Hin].
Qed.

(** X6. One failing session never costs another its place.  However
    the publishes take their turns, a session whose sends never raise
    and whose handler has not seen it disconnect is still in the
    registry afterwards, whatever happens to the other sessions. *)
Theorem run_schedule_keeps_healthy_session (w : World) (schedule : list action)
    (tasks : list task) (st : State) (c : WebSocket) :
  Forall (task_ok w) tasks ->
  (forall log, send_json_ok w c log = true) ->
  existsb (is_disconnect_of c) schedule = false ->
  In c (active_connections st) ->
  In c (active_connections (snd (run_schedule w schedule tasks st))).
Proof.
  intros Htasks Hc. revert tasks st Htasks.
  induction schedule as [|[i | ws] schedule IH]; intros tasks st Htasks Hsched Hin;
    cbn [run_schedule existsb is_disconnect_of orb] in *; [exact Hin | |].
  - destruct (nth_error tasks i) as [t|] eqn:Ht; [|now apply IH].
    assert (Hok : task_ok w t).
    { rewrite Forall_forall in Htasks. apply Htasks. eapply nth_error_In; eassumption. }
    destruct (@resume_keeps w c t st Hc Hok Hin) as [Ht' Hin'].
    destruct (resume w t st) as [[t' st'] tr]. cbn [fst snd] in *.
    apply IH; [now apply set_nth_Forall | exact Hsched | exact Hin'].
  - apply orb_false_elim in Hsched as [Hws Hsched].
    apply IH; [exact Htasks | exact Hsched|]. cbn [active_connections].
    apply safe_remove_keeps; [|exact Hin].
    intros ->. rewrite Nat.eqb_refl in Hws. discriminate.
Qed.

(** The viewer 3 stays while two publishes fail on the viewer 7 and
    take their turns. *)
Lemma run_schedule_keeps_healthy_session_sample :
  In 3%nat
    (active_connections
       (snd (run_schedule broken_world
               [Resume 0; Resume 0; Resume 1; Resume 1; Resume 1; Resume 0]%nat
               [Start (log_entry (sample_record "first"));
                Start (log_entry (sample_record "second"))]
               {| log_queue := []; active_connections := [7; 3]%nat |}))).
Proof.
  apply (@run_schedule_keeps_healthy_session broken_world
           [Resume 0; Resume 0; Resume 1; Resume 1; Resume 1; Resume 0]%nat
           [Start (log_entry (sample_record "first"));
            Start (log_entry (sample_record "second"))]
           {| log_queue := []; active_connections := [7; 3]%nat |} 3%nat).
  - repeat constructor.
  - reflexivity.
  - reflexivity.
  - right. now left.
Defined.

(** The queue of the sample state is within its bound, and stays so
    under a schedule with a disconnect in it. *)
Lemma run_schedule_queue_bounded_sample :
  (length (log_queue (snd (run_schedule broken_world
             [Resume 0; Disconnect 3; Resume 0; Resume 0]%nat
             [Start (log_entry (sample_record "third"))] sample_state)))
   <= maxlen)%nat.
Proof.
  apply (@run_schedule_queue_bounded broken_world
           [Resume 0; Disconnect 3; Resume 0; Resume 0]%nat
           [Start (log_entry (sample_record "third"))] sample_state).
  unfold maxlen. simpl. lia.
Defined.

(** ** The pages of a file *)

Section Chunks.
Context {A : Type}.

(** A list is its chunks of [size] elements, one after the other. *)
Lemma chunks_cover (size : nat) (count : nat) (l : list A) :
  (length l <= count * size)%nat ->
  concat (map (fun i => firstn size (skipn (i * size) l)) (seq 0 count)) = l.
Proof.
  revert l; induction count as [|count IH]; intros l Hlen.
  - destruct l; [reflexivity | simpl in Hlen; lia].
  - cbn [seq map concat]. rewrite <- seq_shift, map_map.
    cbn [Nat.mul skipn].
    transitivity (firstn size l ++ skipn size l); [|apply firstn_skipn].
    f_equal.
    transitivity (concat (map (fun i => firstn size (skipn (i * size) (skipn size l)))
                              (seq 0 count)));
      [|apply IH; rewrite length_skipn; lia].
    f_equal. apply map_ext. intros i.
    rewrite skipn_skipn. do 2 f_equal. lia.
Qed.

(** A slice between two indices that are not negative. *)
Lemma slice_window (l : list A) (a k : Z) :
  0 <= a -> 0 <= k ->
  slice l a (Z.min (a + k) (Z.of_nat (length l)))
  = firstn (Z.to_nat k) (skipn (Z.to_nat a) l).
Proof.
  intros Ha Hk. unfold slice, slice_index.
  destruct (Z.ltb_spec a 0); [lia|].
  destruct (Z.ltb_spec (Z.min (a + k) (Z.of_nat (length l))) 0); [lia|].
  destruct (Z.le_gt_cases (Z.of_nat (length l)) a) as [Hout | Hin].
  - rewrite !skipn_all2 by lia. now rewrite !firstn_nil.
  - rewrite (Z.min_l a) by lia.
    destruct (Z.le_gt_cases (a + k) (Z.of_nat (length l))) as [Hfull | Hpart].
    + rewrite !Z.min_l by lia. f_equal. lia.
    + rewrite Z.min_r by lia.
      rewrite !firstn_all2; [reflexivity | |]; rewrite length_skipn; lia.
Qed.
End Chunks.

Lemma page_lines_chunk (all_logs : list str) (i : nat) (page_size : Z) :
  1 <= page_size ->
  page_lines all_logs (Z.of_nat (S i)) page_size
  = firstn (Z.to_nat page_size) (skipn (i * Z.to_nat page_size) all_logs).
Proof.
  intros Hps. unfold page_lines. rewrite slice_window by lia.
  do 2 f_equal. lia.
Qed.

Section PagesCover.
Context {J : Json}.

Lemma render_lines_app (l1 l2 o1 o2 : list str) :
  render_lines l1 = Ok o1 -> render_lines l2 = Ok o2 ->
  render_lines (l1 ++ l2) = Ok (o1 ++ o2).
Proof.
  revert o1; induction l1 as [|log l1 IH]; intros o1; cbn [render_lines app].
  - intros H1 H2. injection H1 as <-. exact H2.
  - destruct (render_line log) as [out|e]; cbn [bind]; [|discriminate].
    destruct (render_lines l1) as [rest|e]; cbn [bind]; [|discriminate].
    intros H1 H2. injection H1 as <-. now rewrite (IH rest eq_refl H2).
Qed.

Lemma render_lines_length (l o : list str) :
  render_lines l = Ok o -> length o = length l.
Proof.
  intros H. apply render_lines_each in H.
  induction H; simpl; auto.
Qed.

Lemma render_lines_concat (chunks outs : list (list str)) :
  Forall2 (fun c o => render_lines c = Ok o) chunks outs ->
  render_lines (concat chunks) = Ok (concat outs).
Proof.
  induction 1 as [|c o chunks outs Hc _ IH]; [reflexivity|].
  cbn [concat]. now apply render_lines_app.
Qed.

(** X8. The pages of a file cover it.  For a file that can be read and
    a page size of at least 1, asking for the pages 1 to [total_pages]
    in turn gives each its own number back as [current_page], never
    more than [page_size] lines per page, and all the lines of the file
    together, each once and in the order of the file. *)
Theorem get_log_content_pages_cover (dir : directory) (filename : str) (f : File)
    (all_logs : list str) (page_size : Z) :
  get_log_files dir <> [] ->
  lookup dir filename = Some f ->
  text_lines f = Some all_logs ->
  (forall log, In log all_logs -> json_loads log <> LoadsError) ->
  1 <= page_size ->
  exists pages,
    Forall2 (fun p pg =>
               get_log_content dir filename (Z.of_nat p) page_size = Ok pg
               /\ current_page pg = Z.of_nat p
               /\ (length (logs pg) <= Z.to_nat page_size)%nat)
      (seq 1 (Z.to_nat ((Z.of_nat (length all_logs) + page_size - 1) / page_size)))
      pages
    /\ render_lines all_logs = Ok (concat (map logs pages)).
Proof.
  intros Hseg Hfile Htext Hjson Hps.
  set (n := Z.of_nat (length all_logs)).
  set (tp := (n + page_size - 1) / page_size).
  destruct (@ceiling_pages n page_size ltac:(lia) Hps) as [Hlow Hhigh].
  fold tp in Hlow, Hhigh.
  assert (Htp : 0 <= tp) by nia.
  assert (Hpage : forall i, (i < Z.to_nat tp)%nat ->
             exists pg,
               get_log_content dir filename (Z.of_nat (S i)) page_size = Ok pg
               /\ current_page pg = Z.of_nat (S i)
               /\ render_lines (page_lines all_logs (Z.of_nat (S i)) page_size)
                  = Ok (logs pg)).
  { intros i Hi. rewrite get_log_content_cases, Hfile, Htext.
    destruct (get_log_files dir) as [|pc files]; [congruence|].
    destruct (Z.eqb_spec page_size 0) as [? | _]; [lia|]. cbv zeta.
    fold n. fold tp.
    destruct (@settled_page_cases tp (Z.of_nat (S i)) Htp) as (_ & _ & _ & Hin).
    rewrite Hin by lia.
    destruct (render_lines_total (page_lines all_logs (Z.of_nat (S i)) page_size))
      as (outs & Hr).
    { intros log Hlog. apply Hjson. unfold page_lines in Hlog.
      now apply slice_incl in Hlog. }
    rewrite Hr. eexists. split; [reflexivity|]. cbn [current_page logs]. auto. }
  assert (Hall : exists pages,
             Forall2 (fun i pg =>
                        get_log_content dir filename (Z.of_nat (S i)) page_size = Ok pg
                        /\ current_page pg = Z.of_nat (S i)
                        /\ render_lines (page_lines all_logs (Z.of_nat (S i)) page_size)
                           = Ok (logs pg))
               (seq 0 (Z.to_nat tp)) pages).
  { assert (Hseq : forall i, In i (seq 0 (Z.to_nat tp)) -> (i < Z.to_nat tp)%nat)
      by (intros i Hi; apply in_seq in Hi; lia).
    induction (seq 0 (Z.to_nat tp)) as [|i others IH]; [exists []; constructor|].
    destruct IH as (pages & Hpages); [intros j Hj; apply Hseq; now right|].
    destruct (Hpage i) as (pg & Hpg); [apply Hseq; now left|].
    exists (pg :: pages). now constructor. }
  destruct Hall as (pages & Hpages). exists pages. split.
  - rewrite <- seq_shift. clear - Hpages Hps.
    induction Hpages as [|i pg others pages (Hget & Hcur & Hr) _ IH]; cbn [map];
      constructor; [|exact IH].
    split; [exact Hget|]. split; [exact Hcur|].
    rewrite (render_lines_length _ Hr), page_lines_chunk by exact Hps.
    rewrite length_firstn. lia.
  - rewrite <- (chunks_cover (Z.to_nat page_size) (Z.to_nat tp) all_logs) at 1 by nia.
    apply render_lines_concat. clear - Hpages Hps.
    induction Hpages as [|i pg others pages (Hget & Hcur & Hr) _ IH]; cbn [map];
      constructor; [|exact IH].
    now rewrite <- page_lines_chunk.
Qed.
End PagesCover.

(** The sample log can be read, two lines to the page. *)
Lemma get_log_content_pages_cover_sample :
  exists pages,
    Forall2 (fun p pg =>
               get_log_content sample_dir (lit "app.log") (Z.of_nat p) 2 = Ok pg
               /\ current_page pg = Z.of_nat p
               /\ (length (logs pg) <= Z.to_nat 2)%nat)
      (seq 1 (Z.to_nat ((Z.of_nat (length
         [text_line (jlit "{'a':1}"); text_line (lit "  not json  ");
          text_line (jlit "[1, 'x', null]")]) + 2 - 1) / 2)))
      pages
    /\ render_lines [text_line (jlit "{'a':1}"); text_line (lit "  not json  ");
                     text_line (jlit "[1, 'x', null]")]
       = Ok (concat (map logs pages)).
Proof.
  apply (@get_log_content_pages_cover MiniJson sample_dir (lit "app.log") sample_log
           [text_line (jlit "{'a':1}"); text_line (lit "  not json  ");
            text_line (jlit "[1, 'x', null]")] 2).
  - vm_compute. discriminate.
  - vm_compute. reflexivity.
  - reflexivity.
  - intros log Hlog. unfold json_loads, MiniJson, loads.
    destruct (parse_value _ _) as [[v rest]|]; [destruct (skip_ws rest)|]; discriminate.
  - lia.
Defined.

(** ** [read_log_file] *)

Lemma slice_from (A : Type) (l : list A) (a k : Z) :
  0 <= a -> 0 <= k ->
  slice l a (a + k) = firstn (Z.to_nat k) (skipn (Z.to_nat a) l).
Proof.
  intros Ha Hk. rewrite <- slice_window by assumption.
  unfold slice, slice_index.
  destruct (Z.ltb_spec (a + k) 0); [lia|].
  destruct (Z.ltb_spec (Z.min (a + k) (Z.of_nat (length l))) 0); [lia|].
  replace (Z.min (Z.min (a + k) (Z.of_nat (length l))) (Z.of_nat (length l)))
    with (Z.min (a + k) (Z.of_nat (length l))) by lia.
  reflexivity.
Qed.

Lemma read_log_file_paged (f : File) (content : list str) (page page_size : Z) :
  holds_log f content ->
  read_log_file f page page_size
  = bind (floordiv (Z.of_nat (length content) + page_size - 1) page_size)
      (fun total_pages =>
         Ok (total_pages,
             slice content ((page - 1) * page_size)
               ((page - 1) * page_size + page_size))).
Proof.
  unfold read_log_file.
  intros [[-> ->] | (-> & members & name & -> & ->)]; reflexivity.
Qed.

(** X9. [read_log_file] on a file whose log has [n] lines, for a page
    number and a page size of at least 1: it returns [n / page_size]
    rounded up as the number of pages, and the lines from number
    [(page - 1) * page_size] on, [page_size] of them at most.  It does
    not clamp the page number: beyond the last page it returns no
    line. *)
Theorem read_log_file_page (f : File) (content : list str) (page page_size : Z) :
  holds_log f content ->
  1 <= page -> 1 <= page_size ->
  exists total_pages lines,
    read_log_file f page page_size = Ok (total_pages, lines)
    /\ (total_pages - 1) * page_size < Z.of_nat (length content)
       <= total_pages * page_size
    /\ lines = firstn (Z.to_nat page_size)
                 (skipn (Z.to_nat ((page - 1) * page_size)) content)
    /\ (length lines <= Z.to_nat page_size)%nat
    /\ (total_pages < page -> lines = []).
Proof.
  intros Hf Hpage Hps. rewrite (read_log_file_paged page page_size Hf).
  unfold floordiv. destruct (Z.eqb_spec page_size 0) as [? | _]; [lia|].
  cbn [bind]. eexists; eexists. split; [reflexivity|].
  destruct (@ceiling_pages (Z.of_nat (length content)) page_size ltac:(lia) Hps)
    as [Hlow Hhigh].
  split; [split; assumption|].
  rewrite slice_from by nia. split; [reflexivity|].
  split; [rewrite length_firstn; lia|].
  intros Hbeyond. rewrite skipn_all2; [apply firstn_nil | nia].
Qed.

(** The compressed segment of the sample directory holds a log. *)
Lemma read_log_file_page_sample :
  exists total_pages lines,
    read_log_file sample_zip 2 1 = Ok (total_pages, lines)
    /\ (total_pages - 1) * 1
       < Z.of_nat (length [text_line (jlit "{'a':1}"); text_line (lit "second line")])
       <= total_pages * 1
    /\ lines = firstn (Z.to_nat 1)
                 (skipn (Z.to_nat ((2 - 1) * 1))
                    [text_line (jlit "{'a':1}"); text_line (lit "second line")])
    /\ (length lines <= Z.to_nat 1)%nat
    /\ (total_pages < 2 -> lines = []).
Proof.
  apply (@read_log_file_page sample_zip
           [text_line (jlit "{'a':1}"); text_line (lit "second line")] 2 1).
  - right. split; [vm_compute; reflexivity|].
    eexists; eexists. split; [reflexivity | vm_compute; reflexivity].
  - lia.
  - lia.
Defined.

(** X10. The pages of [read_log_file] cover the log: for a page size of
    at least 1, the pages 1 to [total_pages], one after the other, are
    the lines of the log, each once and in their order. *)
Theorem read_log_file_pages_cover (f : File) (content : list str) (page_size : Z) :
  holds_log f content ->
  1 <= page_size ->
  exists total_pages pages,
    Forall2 (fun p lines =>
               read_log_file f (Z.of_nat p) page_size = Ok (total_pages, lines))
      (seq 1 (Z.to_nat total_pages)) pages
    /\ concat pages = content.
Proof.
  intros Hf Hps.
  set (tp := (Z.of_nat (length content) + page_size - 1) / page_size).
  destruct (@ceiling_pages (Z.of_nat (length content)) page_size ltac:(lia) Hps)
    as [Hlow Hhigh]. fold tp in Hlow, Hhigh.
  exists tp,
    (map (fun i => firstn (Z.to_nat page_size) (skipn (i * Z.to_nat page_size) content))
       (seq 0 (Z.to_nat tp))).
  split; [|apply chunks_cover; nia].
  rewrite <- seq_shift. induction (seq 0 (Z.to_nat tp)) as [|i others IH];
    cbn [map]; constructor; [|exact IH].
  rewrite (read_log_file_paged (Z.of_nat (S i)) page_size Hf).
  unfold floordiv. destruct (Z.eqb_spec page_size 0) as [? | _]; [lia|].
  cbn [bind]. fold tp. rewrite slice_from by nia.
  do 4 f_equal. lia.
Qed.

Lemma read_log_file_pages_cover_sample :
  exists total_pages pages,
    Forall2 (fun p lines =>
               read_log_file sample_zip (Z.of_nat p) 1 = Ok (total_pages, lines))
      (seq 1 (Z.to_nat total_pages)) pages
    /\ concat pages = [text_line (jlit "{'a':1}"); text_line (lit "second line")].
Proof.
  apply (@read_log_file_pages_cover sample_zip
           [text_line (jlit "{'a':1}"); text_line (lit "second line")] 1).
  - right. split; [vm_compute; reflexivity|].
    eexists; eexists. split; [reflexivity | vm_compute; reflexivity].
  - lia.
Defined.

(** X11. On a segment that is not compressed and for a page in range,
    [get_log_content] returns what [read_log_file] reads: the same
    number of pages, and the lines of the same page, rendered. *)
Theorem get_log_content_reads_plain_page {J : Json} (dir : directory)
    (filename : str) (f : File) (page page_size : Z) (pg : Page) :
  lookup dir filename = Some f ->
  suffix_is_zip f = false ->
  get_log_content dir filename page page_size = Ok pg ->
  1 <= page_size ->
  1 <= page <= total_pages pg ->
  exists lines,
    read_log_file f page page_size = Ok (total_pages pg, lines)
    /\ render_lines lines = Ok (logs pg).
Proof.
  intros Hfile Hplain Hget Hps Hpage.
  rewrite get_log_content_cases, Hfile in Hget.
  destruct (get_log_files dir) as [|pc files]; [discriminate|].
  destruct (text_lines f) as [all_logs|] eqn:Htext; [|discriminate].
  destruct (Z.eqb_spec page_size 0) as [? | _]; [lia|]. cbv zeta in Hget.
  destruct (render_lines _) as [outs|e] eqn:Hr; [|discriminate].
  injection Hget as <-. cbn [total_pages logs] in *.
  set (tp := (Z.of_nat (length all_logs) + page_size - 1) / page_size) in *.
  assert (Htp : 0 <= tp) by lia.
  destruct (@settled_page_cases tp page Htp) as (_ & _ & _ & Hin).
  rewrite Hin in Hr by exact Hpage.
  assert (Hf : holds_log f all_logs) by (left; auto).
  rewrite (read_log_file_paged page page_size Hf).
  unfold floordiv. destruct (Z.eqb_spec page_size 0) as [? | _]; [lia|].
  cbn [bind]. fold tp. eexists. split; [reflexivity|].
  rewrite slice_from by nia.
  unfold page_lines in Hr. rewrite slice_window in Hr by nia. exact Hr.
Qed.

(** The first page of the sample log, which is not compressed. *)
Lemma get_log_content_reads_plain_page_sample :
  exists lines,
    read_log_file sample_log 1 100 = Ok (total_pages sample_page, lines)
    /\ render_lines lines = Ok (logs sample_page).
Proof.
  apply (@get_log_content_reads_plain_page MiniJson sample_dir (lit "app.log")
           sample_log 1 100 sample_page).
  - vm_compute. reflexivity.
  - vm_compute. reflexivity.
  - vm_compute. reflexivity.
  - lia.
  - cbn [total_pages sample_page]. lia.
Defined.

(** ** [get_log_files] *)

Section Stable.
Context {A : Type} (key : A -> Z).

Lemma insert_reverse_stable (t : Z) (x : A) (l : list A) :
  filter (fun y => key y =? t) (insert_reverse key x l)
  = filter (fun y => key y =? t) (x :: l).
Proof.
  induction l as [|y l IH]; [reflexivity|]. cbn [insert_reverse].
  destruct (Z.ltb_spec (key x) (key y)) as [Hlt | Hge]; [|reflexivity].
  cbn [filter] in *. rewrite IH.
  destruct (Z.eqb_spec (key x) t), (Z.eqb_spec (key y) t); try reflexivity. lia.
Qed.

(** [sorted] is stable: the elements of a given key keep their order. *)
Lemma sorted_reverse_stable (t : Z) (l : list A) :
  filter (fun y => key y =? t) (sorted_reverse key l)
  = filter (fun y => key y =? t) l.
Proof.
  induction l as [|x l IH]; [reflexivity|]. cbn [sorted_reverse].
  rewrite insert_reverse_stable. cbn [filter]. now rewrite IH.
Qed.
End Stable.

(** X12. [get_log_files] returns every segment of the directory, the
    empty ones as well, each once and with its creation time; the
    newest comes first; segments of the same time come with the [.log]
    files before the [.log.zip] files and otherwise in the order of the
    directory. *)
Theorem get_log_files_all_segments (dir : directory) :
  exists files,
    get_log_files dir = map (fun f => (f, st_ctime f)) files
    /\ Permutation files (filter is_segment dir)
    /\ StronglySorted newer_or_same files
    /\ forall t,
         filter (fun f => st_ctime f =? t) files
         = filter (fun f => st_ctime f =? t) (glob dir (lit ".log"))
             ++ filter (fun f => st_ctime f =? t) (glob dir (lit ".log.zip")).
Proof.
  set (pair := fun f : File => (f, st_ctime f)).
  set (found := glob dir (lit ".log") ++ glob dir (lit ".log.zip")).
  assert (Hfiles : get_log_files dir = sorted_reverse snd (map pair found))
    by (unfold get_log_files, found; now rewrite map_app).
  assert (Hsorted : forall l, sorted_reverse snd (map pair l)
                              = map pair (sorted_reverse st_ctime l)).
  { induction l as [|x l IH]; [reflexivity|]. cbn [map sorted_reverse]. rewrite IH.
    generalize (sorted_reverse st_ctime l) as s. intros s.
    induction s as [|y s IHs]; [reflexivity|]. cbn [map insert_reverse].
    unfold pair at 1 2. cbn [snd].
    destruct (st_ctime x <? st_ctime y); [cbn [map]; now rewrite <- IHs | reflexivity]. }
  exists (sorted_reverse st_ctime found). rewrite Hfiles, Hsorted.
  split; [reflexivity|]. split; [|split].
  - rewrite sorted_reverse_perm. unfold found, glob.
    rewrite (filter_either _ _ dir (fun f => log_is_not_zip (file_name f))).
    reflexivity.
  - apply (sorted_reverse_sorted st_ctime found).
  - intros t. rewrite sorted_reverse_stable. unfold found. now rewrite filter_app.
Qed.

(** ** [websocket_handler]: the formatted line *)

Lemma digits_length (w : nat) (n : Z) : length (digits w n) = w.
Proof.
  revert n; induction w as [|w IH]; intros n; [reflexivity|].
  cbn [digits]. rewrite length_app, IH. simpl. lia.
Qed.

(** The leading digits of a number are the digits of its quotient. *)
Lemma digits_leading (w k : nat) (n : Z) :
  firstn w (digits (w + k) n) = digits w (n / 10 ^ Z.of_nat k).
Proof.
  revert n; induction k as [|k IH]; intros n.
  - rewrite Nat.add_0_r, Z.div_1_r. apply firstn_all2. now rewrite digits_length.
  - replace (w + S k)%nat with (S (w + k)) by lia. cbn [digits].
    rewrite firstn_app, digits_length.
    replace (w - (w + k))%nat with O by lia. cbn [firstn]. rewrite app_nil_r, IH.
    rewrite Nat2Z.inj_succ, Z.pow_succ_r, Z.div_div by lia. reflexivity.
Qed.

Lemma digits_are_digits (w : nat) (n : Z) :
  Forall (fun c => (48 <= c <= 57)%N) (digits w n).
Proof.
  revert n; induction w as [|w IH]; intros n; [constructor|].
  cbn [digits]. apply Forall_app. split; [apply IH|].
  constructor; [|constructor]. unfold digit.
  pose proof (Z.mod_pos_bound n 10 ltac:(lia)). lia.
Qed.

Lemma before_separator_prefix (ts rest : str) :
  Forall (fun c => c <> 124%N) ts ->
  before_separator (ts ++ lit " | " ++ rest) = ts.
Proof.
  induction ts as [|c ts IH]; intros Hts; [reflexivity|].
  inversion Hts as [|c' ts' Hc Hrest]; subst.
  cbn [app before_separator]. rewrite IH by assumption.
  replace (startswith (c :: ts ++ lit " | " ++ rest) (lit " | ")) with false;
    [reflexivity|].
  symmetry. change (lit " | ") with [32%N; 124%N; 32%N]. cbn [startswith].
  destruct (N.eqb_spec 32 c) as [_ | _]; [|reflexivity]. cbn [andb].
  destruct ts as [|d ts2]; cbn [app startswith].
  - reflexivity.
  - inversion Hrest as [|d' ts3 Hd _]; subst.
    destruct (N.eqb_spec 124 d) as [Heq | _]; [congruence | reflexivity].
Qed.

Lemma digits_split (w k : nat) (n : Z) :
  digits (w + k) n = digits w (n / 10 ^ Z.of_nat k) ++ digits k n.
Proof.
  revert n; induction k as [|k IH]; intros n.
  - rewrite Nat.add_0_r, Z.div_1_r. cbn [digits]. now rewrite app_nil_r.
  - replace (w + S k)%nat with (S (w + k)) by lia. cbn [digits].
    rewrite IH, Z.div_div, <- Z.pow_succ_r, <- Nat2Z.inj_succ, app_assoc by lia.
    reflexivity.
Qed.

(** [s[:-k]] drops the last [k] characters. *)
Lemma slice_drop_last {A : Type} (a b : list A) :
  b <> [] -> slice (a ++ b) 0 (- Z.of_nat (length b)) = a.
Proof.
  intros Hb. assert (0 < length b)%nat by (destruct b; [easy | simpl; lia]).
  unfold slice, slice_index. rewrite length_app.
  destruct (Z.ltb_spec 0 0); [lia|].
  destruct (Z.ltb_spec (- Z.of_nat (length b)) 0); [|lia].
  replace (Z.to_nat (Z.min 0 _)) with O by lia.
  replace (Z.to_nat (_ - _)) with (length a) by lia.
  cbn [skipn]. rewrite firstn_app, firstn_all, Nat.sub_diag. cbn [firstn].
  apply app_nil_r.
Qed.

Lemma strftime_formatted (t : datetime) :
  slice (strftime "%Y-%m-%d %H:%M:%S.%f" t) 0 (-3) = timestamp_ms t.
Proof.
  assert (Hfmt : strftime "%Y-%m-%d %H:%M:%S.%f" t
                 = (digits 4 (year t) ++ lit "-" ++ digits 2 (month t) ++ lit "-"
                      ++ digits 2 (day t) ++ lit " " ++ digits 2 (hour t) ++ lit ":"
                      ++ digits 2 (minute t) ++ lit ":" ++ digits 2 (second t)
                      ++ lit "." ++ digits 3 (microsecond t / 1000))
                   ++ digits 3 (microsecond t)).
  { change (digits 3 (microsecond t / 1000))
      with (digits 3 (microsecond t / 10 ^ Z.of_nat 3)).
    rewrite <- !app_assoc, <- (digits_split 3 3). reflexivity. }
  rewrite Hfmt.
  change (-3) with (- Z.of_nat (length (digits 3 (microsecond t)))).
  now rewrite slice_drop_last.
Qed.

Lemma strftime_time (t : datetime) :
  slice (strftime "%Y-%m-%d %H:%mm:%S.%f" t) 0 (-3)
  = digits 4 (year t) ++ lit "-" ++ digits 2 (month t) ++ lit "-"
      ++ digits 2 (day t) ++ lit " " ++ digits 2 (hour t) ++ lit ":"
      ++ digits 2 (month t) ++ lit "m:" ++ digits 2 (second t)
      ++ lit "." ++ digits 3 (microsecond t / 1000).
Proof.
  assert (Hfmt : strftime "%Y-%m-%d %H:%mm:%S.%f" t
                 = (digits 4 (year t) ++ lit "-" ++ digits 2 (month t) ++ lit "-"
                      ++ digits 2 (day t) ++ lit " " ++ digits 2 (hour t) ++ lit ":"
                      ++ digits 2 (month t) ++ lit "m:" ++ digits 2 (second t)
                      ++ lit "." ++ digits 3 (microsecond t / 1000))
                   ++ digits 3 (microsecond t)).
  { change (digits 3 (microsecond t / 1000))
      with (digits 3 (microsecond t / 10 ^ Z.of_nat 3)).
    rewrite <- !app_assoc, <- (digits_split 3 3). reflexivity. }
  rewrite Hfmt.
  change (-3) with (- Z.of_nat (length (digits 3 (microsecond t)))).
  now rewrite slice_drop_last.
Qed.

Lemma timestamp_ms_no_bar (t : datetime) :
  Forall (fun c => c <> 124%N) (timestamp_ms t).
Proof.
  assert (Hd : forall w n, Forall (fun c => c <> 124%N) (digits w n)).
  { intros w n. eapply Forall_impl; [|apply digits_are_digits].
    cbv beta. intros c Hc. lia. }
  assert (Hc : forall c, c <> 124%N -> Forall (fun c => c <> 124%N) [c])
    by (intros; constructor; [assumption | constructor]).
  unfold timestamp_ms. rewrite !Forall_app.
  repeat split; try apply Hd; apply Hc; vm_compute; discriminate.
Qed.

(** X13. The formatted line that [websocket_handler] builds starts with
    the time of the record to the millisecond, 23 characters in which
    the microseconds are cut to their first three digits and not
    rounded; the time is all the text before the first separator. *)
Theorem log_entry_formatted_stamp (r : LogRecord) :
  (exists rest,
     formatted (log_entry r) = timestamp_ms (rec_time r) ++ lit " | " ++ rest
     /\ endswith rest (lit " | " ++ rec_message r) = true)
  /\ before_separator (formatted (log_entry r)) = timestamp_ms (rec_time r)
  /\ length (timestamp_ms (rec_time r)) = 23%nat.
Proof.
  split; [|split].
  - eexists. cbn [formatted log_entry]. rewrite strftime_formatted.
    split; [reflexivity|].
    unfold endswith. rewrite !app_assoc, <- app_assoc.
    rewrite (rev_app_distr _ (lit " | " ++ rec_message r)).
    generalize (rev (lit " | " ++ rec_message r)) as p. intros p.
    induction p as [|c p IH]; [now destruct (rev _) | ].
    cbn [app startswith]. now rewrite N.eqb_refl, IH.
  - cbn [formatted log_entry]. rewrite strftime_formatted.
    apply before_separator_prefix, timestamp_ms_no_bar.
  - unfold timestamp_ms. rewrite !length_app, !digits_length. reflexivity.
Qed.

Lemma digits2_inj (a b : Z) :
  0 <= a < 100 -> 0 <= b < 100 -> digits 2 a = digits 2 b -> a = b.
Proof.
  intros Ha Hb Heq. cbn [digits app] in Heq. injection Heq as Hhi Hlo.
  unfold digit in Hhi, Hlo.
  pose proof (Z.mod_pos_bound a 10 ltac:(lia)) as Ha0.
  pose proof (Z.mod_pos_bound b 10 ltac:(lia)) as Hb0.
  pose proof (Z.mod_pos_bound (a / 10) 10 ltac:(lia)) as Ha1.
  pose proof (Z.mod_pos_bound (b / 10) 10 ltac:(lia)) as Hb1.
  assert (Hlo' : a mod 10 = b mod 10) by lia.
  assert (Hhi' : (a / 10) mod 10 = (b / 10) mod 10) by lia.
  rewrite !Z.mod_small in Hhi'
    by (split; [apply Z.div_pos; lia | apply Z.div_lt_upper_bound; lia]).
  rewrite (Z.div_mod a 10), (Z.div_mod b 10) by lia. lia.
Qed.

(** X14. The [time] field of the entry never shows the minute of the
    record: two records whose times differ in the minute only get the
    same [time], 24 characters with the month and the letter m in the
    place of the minute, while their formatted lines differ when the
    minutes differ in their last two digits. *)
Theorem log_entry_time_ignores_minute (r r' : LogRecord) :
  year (rec_time r) = year (rec_time r') ->
  month (rec_time r) = month (rec_time r') ->
  day (rec_time r) = day (rec_time r') ->
  hour (rec_time r) = hour (rec_time r') ->
  second (rec_time r) = second (rec_time r') ->
  microsecond (rec_time r) = microsecond (rec_time r') ->
  0 <= minute (rec_time r) < 60 ->
  0 <= minute (rec_time r') < 60 ->
  time (log_entry r) = time (log_entry r')
  /\ length (time (log_entry r)) = 24%nat
  /\ (minute (rec_time r) <> minute (rec_time r') ->
      formatted (log_entry r) <> formatted (log_entry r')).
Proof.
  intros Hy Hm Hd Hh Hs Hu Hmin Hmin'. cbn [time formatted log_entry].
  rewrite !strftime_time, !strftime_formatted. split; [|split].
  - now rewrite Hy, Hm, Hd, Hh, Hs, Hu.
  - rewrite !length_app, !digits_length. reflexivity.
  - intros Hne Heq. apply Hne.
    apply (f_equal (fun s => firstn 2 (skipn 14 s))) in Heq.
    unfold timestamp_ms in Heq. repeat rewrite <- app_assoc in Heq.
    change (digits 2 (minute (rec_time r)) = digits 2 (minute (rec_time r'))) in Heq.
    apply digits2_inj; [lia | lia | exact Heq].
Qed.

(** Two records of the same second, at minute 4 and at minute 30. *)
Lemma log_entry_time_ignores_minute_sample :
  time (log_entry (sample_record "hello")) = time (log_entry (later_record "hello"))
  /\ length (time (log_entry (sample_record "hello"))) = 24%nat
  /\ (minute (rec_time (sample_record "hello"))
      <> minute (rec_time (later_record "hello")) ->
      formatted (log_entry (sample_record "hello"))
      <> formatted (log_entry (later_record "hello"))).
Proof.
  apply (@log_entry_time_ignores_minute (sample_record "hello")
           (later_record "hello")); try reflexivity;
    cbn [minute rec_time later_record sample_record sample_time]; lia.
Defined.

(** ** The listing and the content *)

Lemma get_log_files_in_dir (dir : directory) (pc : File * Z) :
  In pc (get_log_files dir) -> In (fst pc) dir.
Proof.
  unfold get_log_files. intros Hin.
  apply (Permutation_in _ (sorted_reverse_perm snd _)) in Hin.
  apply in_app_or in Hin as [Hin | Hin];
    apply in_map_iff in Hin as (f & <- & Hf); unfold glob in Hf;
    apply filter_In in Hf as [Hf _]; exact Hf.
Qed.

Lemma lookup_present (dir : directory) (f : File) :
  In f dir ->
  exists g, lookup dir (file_name f) = Some g /\ file_name g = file_name f.
Proof.
  intros Hin. unfold lookup.
  destruct (find _ dir) as [g|] eqn:Hfind.
  - apply find_some in Hfind as [_ Hg]. apply str_eqb_eq in Hg. now exists g.
  - apply (find_none _ _ Hfind) in Hin.
    assert (str_eqb (file_name f) (file_name f) = true) by now apply str_eqb_eq.
    congruence.
Qed.

(** X15. Every file name that [get_log_files_list] shows can be asked
    of [get_log_content]: a file of that name is found and the request
    does not end with the status 404, whatever page is asked for. *)
Theorem get_log_content_finds_listed {J : Json} (fromtimestamp : Z -> datetime)
    (dir : directory) (info : FileInfo) (page page_size : Z) :
  In info (get_log_files_list fromtimestamp dir) ->
  (exists f, lookup dir (info_filename info) = Some f
             /\ file_name f = info_filename info)
  /\ get_log_content dir (info_filename info) page page_size
     <> Raise (HTTPException 404).
Proof.
  intros Hin. unfold get_log_files_list in Hin.
  apply in_map_iff in Hin as (pc & <- & Hpc). cbn [info_filename].
  apply filter_In in Hpc as [Hpc _].
  destruct (lookup_present dir (fst pc) (get_log_files_in_dir dir pc Hpc))
    as (g & Hg & Hname).
  split; [now exists g|].
  rewrite get_log_content_cases, Hg.
  destruct (get_log_files dir) as [|pc' files]; [destruct Hpc|].
  destruct (text_lines g); [|discriminate].
  destruct (page_size =? 0); [discriminate|].
  cbv zeta. destruct (render_lines _); discriminate.
Qed.

(** The sample log, which the listing of the sample directory shows. *)
Lemma get_log_content_finds_listed_sample :
  (exists f, lookup sample_dir (lit "app.log") = Some f
             /\ file_name f = lit "app.log")
  /\ get_log_content sample_dir (lit "app.log") 1 100 <> Raise (HTTPException 404).
Proof.
  apply (@get_log_content_finds_listed MiniJson (fun _ => sample_time) sample_dir
           (file_info (fun _ => sample_time) sample_log) 1 100).
  vm_compute. auto 10.
Defined.

(** ** [app/core/config.py] *)

Import ConfigManager.

Section ConfigProperties.
Variable other : Type.
Variable truth : other -> bool.

#[local] Abbreviation value := (ConfigManager.value other).
#[local] Abbreviation dict := (ConfigManager.dict other).

Lemma str_eqb_refl (s : str) : str_eqb s s = true.
Proof. now apply str_eqb_eq. Qed.

Lemma str_eqb_spec (s t : str) : reflect (s = t) (str_eqb s t).
Proof. apply iff_reflect. symmetry. apply str_eqb_eq. Qed.

Lemma split_not_nil (sep : N) (s : str) : split sep s <> [].
Proof.
  destruct s as [|c s]; cbn [split]; [discriminate|].
  destruct (N.eqb c sep); [discriminate|]. destruct (split sep s); discriminate.
Qed.

Lemma dict_get_contains (d : dict) (k : str) :
  contains d k = false <-> dict_get d k = None.
Proof.
  induction d as [|k' v rest IH]; cbn [contains dict_get]; [tauto|].
  destruct (str_eqb k' k); cbn [orb]; [split; discriminate | exact IH].
Qed.

Lemma dict_get_setitem (d : dict) (k k' : str) (v : value) :
  dict_get (setitem d k v) k' = if str_eqb k k' then Some v else dict_get d k'.
Proof.
  induction d as [|k0 v0 rest IH]; cbn [setitem dict_get]; [reflexivity|].
  destruct (str_eqb_spec k0 k) as [-> | Hk]; cbn [dict_get].
  - now destruct (str_eqb k k').
  - rewrite IH. destruct (str_eqb_spec k0 k') as [-> | Hk']; [|reflexivity].
    destruct (str_eqb_spec k k'); congruence.
Qed.

Lemma contains_setitem (d : dict) (k k' : str) (v : value) :
  contains (setitem d k v) k' = str_eqb k k' || contains d k'.
Proof.
  induction d as [|k0 v0 rest IH]; cbn [setitem contains].
  - now rewrite orb_false_r.
  - destruct (str_eqb_spec k0 k) as [-> | Hk]; cbn [contains].
    + now destruct (str_eqb k k').
    + rewrite IH. now destruct (str_eqb k0 k'), (str_eqb k k').
Qed.

Lemma setitem_same (d : dict) (k : str) (v : value) :
  dict_get d k = Some v -> setitem d k v = d.
Proof.
  induction d as [|k0 v0 rest IH]; cbn [setitem dict_get]; [discriminate|].
  destruct (str_eqb k0 k); [now intros [= ->] | intros H; now rewrite IH].
Qed.

Lemma merge_step (base : dict) (key : str) (v : value) (rest : dict) :
  _merge_configs base (Item key v rest)
  = _merge_configs (setitem base key (merged (dict_get base key) v)) rest.
Proof.
  cbn [_merge_configs]. unfold merged.
  destruct (dict_get base key) as [[| | |b]|]; try reflexivity.
  now destruct v.
Qed.

Lemma merge_get_absent (base override : dict) (k : str) :
  contains override k = false ->
  dict_get (_merge_configs base override) k = dict_get base k.
Proof.
  revert base; induction override as [|key v rest IH]; intros base Hk;
    [reflexivity|].
  cbn [contains] in Hk. apply orb_false_elim in Hk as [Hkey Hrest].
  rewrite merge_step, IH, dict_get_setitem, Hkey by exact Hrest. reflexivity.
Qed.

Lemma merge_contains (base override : dict) (k : str) :
  contains (_merge_configs base override) k = contains base k || contains override k.
Proof.
  revert base; induction override as [|key v rest IH]; intros base.
  - cbn [_merge_configs contains]. now rewrite orb_false_r.
  - rewrite merge_step, IH, contains_setitem. cbn [contains].
    now destruct (str_eqb key k), (contains base k), (contains rest k).
Qed.

(** What a merge holds under a key of the override, when the override
    has the key once. *)
Lemma merge_get_present (base override : dict) (k : str) (v : value) :
  dict_ok override = true ->
  dict_get override k = Some v ->
  dict_get (_merge_configs base override) k = Some (merged (dict_get base k) v).
Proof.
  revert base; induction override as [|key v' rest IH]; intros base Hok Hget;
    [discriminate|].
  cbn [dict_ok] in Hok. apply andb_prop in Hok as [Hok Hrest].
  apply andb_prop in Hok as [Hfresh _]. apply negb_true_iff in Hfresh.
  cbn [dict_get] in Hget. rewrite merge_step.
  destruct (str_eqb key k) eqn:Hk.
  - injection Hget as ->. apply str_eqb_eq in Hk. subst k.
    rewrite merge_get_absent, dict_get_setitem, str_eqb_refl by exact Hfresh.
    reflexivity.
  - rewrite (IH _ Hrest Hget), dict_get_setitem, Hk. reflexivity.
Qed.

Lemma dict_ok_get (d : dict) (k : str) (d' : dict) :
  dict_ok d = true -> dict_get d k = Some (VDict d') -> dict_ok d' = true.
Proof.
  induction d as [|k0 v0 rest IH]; cbn [dict_ok dict_get]; [discriminate|].
  intros Hok. apply andb_prop in Hok as [Hok Hrest].
  apply andb_prop in Hok as [_ Hv].
  destruct (str_eqb k0 k); [intros [= ->]; exact Hv | now apply IH].
Qed.

Lemma walk_leaf_default (v : value) (keys : list str) (x d : value) :
  is_leaf x = true -> walk v keys VNone = x -> walk v keys d = x.
Proof.
  intros Hx. revert v; induction keys as [|k keys IH]; intros v; cbn [walk];
    [auto|].
  destruct v as [| | |dd]; try (intros <-; discriminate).
  destruct (dict_get dd k) as [[| | |]|]; try (intros <-; discriminate);
    apply IH.
Qed.

(** A leaf that the override holds at a path is what the merge holds
    there. *)
Lemma merge_walk_override (keys : list str) (base override : dict)
    (x d : value) :
  dict_ok override = true ->
  keys <> [] ->
  is_leaf x = true ->
  walk (VDict override) keys VNone = x ->
  walk (VDict (_merge_configs base override)) keys d = x.
Proof.
  revert base override; induction keys as [|k keys IH];
    intros base override Hok Hne Hx Hwalk; [congruence|].
  cbn [walk] in *.
  destruct (dict_get override k) as [v|] eqn:Hget;
    [|subst x; discriminate].
  rewrite (@merge_get_present base override k v Hok Hget).
  destruct v as [|b|a|o]; [subst x; discriminate | | |].
  - destruct (dict_get base k) as [[| | |]|]; cbn [merged];
      now apply walk_leaf_default.
  - destruct (dict_get base k) as [[| | |]|]; cbn [merged];
      now apply walk_leaf_default.
  - assert (Hoko : dict_ok o = true) by exact (@dict_ok_get override k o Hok Hget).
    destruct keys as [|k' keys'];
      [cbn [walk] in Hwalk; subst x; discriminate|].
    destruct (dict_get base k) as [[| | |b]|]; cbn [merged];
      try (now apply walk_leaf_default).
    apply IH; auto; discriminate.
Qed.

(** A path whose first part the override does not have is read from the
    base. *)
Lemma merge_walk_base (k : str) (keys : list str) (base override : dict)
    (d : value) :
  contains override k = false ->
  walk (VDict (_merge_configs base override)) (k :: keys) d
  = walk (VDict base) (k :: keys) d.
Proof.
  intros Hk. cbn [walk]. now rewrite merge_get_absent.
Qed.

Lemma dict_ok_setitem (d : dict) (k : str) (v : value) :
  dict_ok d = true ->
  match v with VDict d' => dict_ok d' | _ => true end = true ->
  dict_ok (setitem d k v) = true.
Proof.
  intros Hd Hv. induction d as [|k0 v0 rest IH]; cbn [setitem dict_ok].
  - cbn [contains negb andb]. now rewrite Hv.
  - cbn [dict_ok] in Hd. apply andb_prop in Hd as [Hd Hrest].
    apply andb_prop in Hd as [Hfresh Hv0].
    destruct (str_eqb k0 k) eqn:Hk; cbn [dict_ok].
    + now rewrite Hfresh, Hv, Hrest.
    + rewrite contains_setitem, IH, Hv0 by exact Hrest.
      apply negb_true_iff in Hfresh. rewrite Hfresh.
      replace (str_eqb k k0) with false; [reflexivity|].
      destruct (str_eqb k k0) eqn:Hkk; [|reflexivity].
      apply str_eqb_eq in Hkk. subst. now rewrite str_eqb_refl in Hk.
Qed.

(** Merging dicts without a double key gives one without a double key. *)
Lemma merge_ok (override base : dict) :
  dict_ok override = true -> dict_ok base = true ->
  dict_ok (_merge_configs base override) = true.
Proof.
  revert base.
  apply (dict_value_ind
           (fun v : value =>
              match v with
              | VDict o => forall b, dict_ok o = true -> dict_ok b = true ->
                                     dict_ok (_merge_configs b o) = true
              | _ => True
              end)
           (fun o : dict => forall b, dict_ok o = true -> dict_ok b = true ->
                                      dict_ok (_merge_configs b o) = true));
    try exact I; auto.
  intros key v Hv rest IH base Hok Hbase. rewrite merge_step.
  cbn [dict_ok] in Hok. apply andb_prop in Hok as [Hok Hrest].
  apply andb_prop in Hok as [_ Hvok].
  apply IH; [exact Hrest|]. apply dict_ok_setitem; [exact Hbase|].
  unfold merged. destruct (dict_get base key) as [[| | |b]|] eqn:Hget;
    try exact Hvok.
  destruct v as [| | |o]; try exact Hvok.
  apply Hv; [exact Hvok | exact (@dict_ok_get base key b Hbase Hget)].
Qed.

Lemma merge_same (d : dict) :
  dict_ok d = true ->
  forall base,
    (forall k, contains d k = true -> dict_get base k = dict_get d k) ->
    _merge_configs base d = base.
Proof.
  apply (dict_value_ind
           (fun v : value =>
              match v with
              | VDict o => dict_ok o = true -> forall b,
                  (forall k, contains o k = true -> dict_get b k = dict_get o k) ->
                  _merge_configs b o = b
              | _ => True
              end)
           (fun o : dict => dict_ok o = true -> forall b,
              (forall k, contains o k = true -> dict_get b k = dict_get o k) ->
              _merge_configs b o = b));
    try exact I; auto.
  intros key v Hv rest IH Hok base Hsame. rewrite merge_step.
  cbn [dict_ok] in Hok. apply andb_prop in Hok as [Hok Hrest].
  apply andb_prop in Hok as [Hfresh Hvok]. apply negb_true_iff in Hfresh.
  assert (Hkey : dict_get base key = Some v).
  { rewrite Hsame by (cbn [contains]; now rewrite str_eqb_refl).
    cbn [dict_get]. now rewrite str_eqb_refl. }
  assert (Hm : merged (dict_get base key) v = v).
  { rewrite Hkey. destruct v as [| | |o]; try reflexivity. cbn [merged].
    f_equal. apply Hv; [exact Hvok | auto]. }
  rewrite Hm, (@setitem_same base key v Hkey). apply IH; [exact Hrest|].
  intros k Hk. rewrite Hsame by (cbn [contains]; now rewrite Hk, orb_true_r).
  cbn [dict_get]. destruct (str_eqb key k) eqn:Hkk; [|reflexivity].
  apply str_eqb_eq in Hkk. subst. congruence.
Qed.

Lemma contains_app (a b : dict) (k : str) :
  contains (dict_app a b) k = contains a k || contains b k.
Proof.
  induction a as [|k0 v0 rest IH]; cbn [dict_app contains]; [reflexivity|].
  now rewrite IH, orb_assoc.
Qed.

Lemma dict_app_assoc (a b c : dict) :
  dict_app (dict_app a b) c = dict_app a (dict_app b c).
Proof.
  induction a as [|k0 v0 rest IH]; cbn [dict_app]; [reflexivity|].
  now rewrite IH.
Qed.

Lemma setitem_absent (d : dict) (k : str) (v : value) :
  contains d k = false -> setitem d k v = dict_app d (Item k v Empty).
Proof.
  induction d as [|k0 v0 rest IH]; cbn [contains setitem dict_app];
    [reflexivity|].
  intros H. apply orb_false_elim in H as [-> Hrest]. now rewrite IH.
Qed.

(** Merging a dict whose keys are new puts its items behind. *)
Lemma merge_new_keys (d : dict) :
  dict_ok d = true ->
  forall base,
    (forall k, contains d k = true -> contains base k = false) ->
    _merge_configs base d = dict_app base d.
Proof.
  induction d as [|key v rest IH]; intros Hok base Hnew.
  - cbn [_merge_configs]. induction base as [|k0 v0 b IHb]; [reflexivity|].
    cbn [dict_app]. now rewrite <- IHb.
  - cbn [dict_ok] in Hok. apply andb_prop in Hok as [Hok Hrest].
    apply andb_prop in Hok as [Hfresh _]. apply negb_true_iff in Hfresh.
    assert (Hkey : contains base key = false)
      by (apply Hnew; cbn [contains]; now rewrite str_eqb_refl).
    rewrite merge_step.
    replace (dict_get base key) with (@None value)
      by (symmetry; now apply dict_get_contains).
    cbn [merged]. rewrite (@setitem_absent base key v Hkey), (IH Hrest).
    + now rewrite dict_app_assoc.
    + intros k Hk. rewrite contains_app. cbn [contains].
      rewrite Hnew by (cbn [contains]; now rewrite Hk, orb_true_r).
      destruct (str_eqb_spec key k) as [-> | _]; [congruence | reflexivity].
Qed.

Lemma nested_ok (parts : list str) (v : value) :
  match v with VDict d => dict_ok d | _ => true end = true ->
  dict_ok (nested parts v) = true.
Proof.
  intros Hv. induction parts as [|part parts IH]; [reflexivity|].
  destruct parts as [|part' parts']; cbn [nested dict_ok contains negb andb].
  - now rewrite Hv.
  - cbn [nested] in IH. now rewrite IH.
Qed.

Lemma walk_nested (parts : list str) (v d : value) :
  parts <> [] ->
  walk (VDict (nested parts v)) parts d = match v with VNone => d | _ => v end.
Proof.
  induction parts as [|part parts IH]; intros Hne; [congruence|].
  destruct parts as [|part' parts'].
  - cbn [nested walk dict_get]. rewrite str_eqb_refl. now destruct v.
  - cbn [walk dict_get]. cbn [nested]. cbn [dict_get]. rewrite str_eqb_refl.
    apply IH. discriminate.
Qed.

Lemma get_walk (m : manager other) (key : str) (d : value) :
  key <> [] -> get m key d = walk (VDict (_config m)) (split 46%N key) d.
Proof. destruct key; [congruence | reflexivity]. Qed.

Lemma split_cons (key : str) :
  exists k keys, split 46%N key = k :: keys.
Proof.
  destruct (split 46%N key) as [|k keys] eqn:H; [now apply split_not_nil in H|].
  now exists k, keys.
Qed.

(** X16. What [_create_nested_dict] builds for a dotted key is read
    back by [get] under the same key: from a [config.json] that holds
    the one setting, with no [.env] file and no environment variable,
    [get] returns the value, but for the value [None], for which it
    returns the default. *)
Theorem get_reads_created_dict (key : str) (v d : value) :
  key <> [] ->
  dict_ok (_create_nested_dict key v) = true ->
  get (_load_config truth (_create_nested_dict key v) Empty Empty) key d
  = match v with VNone => d | _ => v end.
Proof.
  intros Hkey Hok. rewrite get_walk by exact Hkey.
  assert (Hcfg : _config (_load_config truth (_create_nested_dict key v) Empty Empty)
                 = _create_nested_dict key v).
  { unfold _load_config. cbn [_config].
    destruct (truthy truth _); cbn [_merge_configs]; [|reflexivity].
    rewrite merge_new_keys by (auto; reflexivity). reflexivity. }
  rewrite Hcfg. apply walk_nested, split_not_nil.
Qed.

(** X17. The result of [_merge_configs] holds, under a key of the
    override, the value of the override, or the merge of the two values
    when both are dicts; under any other key it holds what the base
    holds. It has the keys of both and no other. *)
Theorem merge_configs_lookup (base override : dict) (k : str) :
  dict_ok override = true ->
  dict_get (_merge_configs base override) k
  = match dict_get override k with
    | Some v =>
        match dict_get base k, v with
        | Some (VDict b), VDict o => Some (VDict (_merge_configs b o))
        | _, _ => Some v
        end
    | None => dict_get base k
    end
  /\ contains (_merge_configs base override) k
     = contains base k || contains override k.
Proof.
  intros Hok. split; [|apply merge_contains].
  destruct (dict_get override k) as [v|] eqn:Hget.
  - rewrite (@merge_get_present base override k v Hok Hget). unfold merged.
    destruct (dict_get base k) as [[| | |b]|]; try reflexivity. now destruct v.
  - apply merge_get_absent. now apply dict_get_contains.
Qed.

(** X18. [_merge_configs] keeps dicts free of double keys; merging the
    empty dict, on either side, or merging a dict with itself changes
    nothing. *)
Theorem merge_configs_laws (base : dict) :
  dict_ok base = true ->
  (forall override, dict_ok override = true ->
                    dict_ok (_merge_configs base override) = true)
  /\ _merge_configs base Empty = base
  /\ _merge_configs Empty base = base
  /\ _merge_configs base base = base.
Proof.
  intros Hok. split; [|split; [|split]].
  - intros override Hover. now apply merge_ok.
  - reflexivity.
  - rewrite merge_new_keys by (auto; reflexivity). reflexivity.
  - apply merge_same; auto.
Qed.

(** X19. The order of the sources in [_load_config]. Without
    [CONFIG_OVERRIDE], a setting of the environment is what [get]
    returns; a setting of the [.env] file is returned when the
    environment has nothing under the first part of the key; and
    [config.json] is read when neither has. With [CONFIG_OVERRIDE],
    [config.json] comes first, then the environment, then the [.env]
    file. *)
Theorem load_config_precedence (json_config env_file env_vars : dict)
    (key : str) (x d : value) :
  dict_ok json_config = true ->
  dict_ok env_file = true ->
  dict_ok env_vars = true ->
  key <> [] ->
  (truthy truth (config_override
                   (_load_config truth json_config env_file env_vars)) = false ->
   (gives env_vars key x ->
    get (_load_config truth json_config env_file env_vars) key d = x)
   /\ (silent env_vars key -> gives env_file key x ->
       get (_load_config truth json_config env_file env_vars) key d = x)
   /\ (silent env_vars key -> silent env_file key ->
       get (_load_config truth json_config env_file env_vars) key d
       = walk (VDict json_config) (split 46%N key) d))
  /\ (truthy truth (config_override
                      (_load_config truth json_config env_file env_vars)) = true ->
      (gives json_config key x ->
       get (_load_config truth json_config env_file env_vars) key d = x)
      /\ (silent json_config key -> gives env_vars key x ->
          get (_load_config truth json_config env_file env_vars) key d = x)
      /\ (silent json_config key -> silent env_vars key ->
          get (_load_config truth json_config env_file env_vars) key d
          = walk (VDict env_file) (split 46%N key) d)).
Proof.
  intros Hjson Hfile Hvars Hkey. rewrite get_walk by exact Hkey.
  unfold gives, silent, _load_config. cbn [config_override _config].
  destruct (split_cons key) as (k & keys & ->). cbn [hd].
  assert (Hne : k :: keys <> []) by discriminate.
  split; intros ->.
  - split; [|split].
    + intros [Hx Hw]. now apply merge_walk_override.
    + intros Hs [Hx Hw]. rewrite merge_walk_base by exact Hs.
      now apply merge_walk_override.
    + intros Hs Hs'. now rewrite !merge_walk_base.
  - split; [|split].
    + intros [Hx Hw]. now apply merge_walk_override.
    + intros Hs [Hx Hw]. rewrite merge_walk_base by exact Hs.
      now apply merge_walk_override.
    + intros Hs Hs'. now rewrite !merge_walk_base.
Qed.

(** X20. [set] does not change what [get] returns: the new value goes
    into the dict of [config.json], and without [CONFIG_OVERRIDE] into
    the dicts of the [.env] file and of the environment as well, but
    not into the merged configuration. A later [_load_config] that
    reads the [config.json] then saved, with [CONFIG_OVERRIDE] set,
    returns the new value. *)
Theorem set_does_not_change_get (self : manager other) (key : str) (x : value)
    (save : bool) :
  key <> [] ->
  is_leaf x = true ->
  dict_ok (_json_config self) = true ->
  (forall key' d,
     get (fst (set truth self key x save)) key' d = get self key' d)
  /\ (forall d,
        walk (VDict (_json_config (fst (set truth self key x save))))
          (split 46%N key) d = x)
  /\ (truthy truth (config_override self) = false ->
      forall d,
        walk (VDict (_env_vars_config (fst (set truth self key x save))))
          (split 46%N key) d = x
        /\ walk (VDict (_env_file_config (fst (set truth self key x save))))
             (split 46%N key) d = x)
  /\ (truthy truth (config_override self) = true ->
      _env_vars_config (fst (set truth self key x save)) = _env_vars_config self
      /\ _env_file_config (fst (set truth self key x save))
         = _env_file_config self)
  /\ (save = true ->
      In (SaveJsonConfig (_json_config (fst (set truth self key x save))))
         (snd (set truth self key x save)))
  /\ (forall env_file env_vars d,
        truthy truth
          (config_override
             (_load_config truth (_json_config (fst (set truth self key x save)))
                env_file env_vars)) = true ->
        get (_load_config truth (_json_config (fst (set truth self key x save)))
               env_file env_vars) key d = x).
Proof.
  intros Hkey Hx Hjson.
  assert (Hnested : forall base d,
             walk (VDict (_merge_configs base (_create_nested_dict key x)))
               (split 46%N key) d = x).
  { intros base d. unfold _create_nested_dict.
    apply merge_walk_override; auto using split_not_nil.
    - apply nested_ok. now destruct x.
    - rewrite walk_nested by apply split_not_nil. now destruct x. }
  assert (Hjson' : _json_config (fst (set truth self key x save))
                   = _merge_configs (_json_config self)
                       (_create_nested_dict key x)).
  { unfold set. now destruct (truthy truth (config_override self)). }
  split; [|split; [|split; [|split; [|split]]]].
  - intros key' d. unfold set, get.
    now destruct (truthy truth (config_override self)).
  - intros d. rewrite Hjson'. apply Hnested.
  - intros Hover d. unfold set. rewrite Hover. cbn [fst _env_vars_config
      _env_file_config]. split; apply Hnested.
  - intros Hover. unfold set. rewrite Hover. split; reflexivity.
  - intros ->. unfold set.
    destruct (truthy truth (config_override self)); cbn [fst snd _json_config In];
      auto.
  - intros env_file env_vars d Hover. rewrite get_walk by exact Hkey.
    unfold _load_config in *. cbn [config_override _config] in *.
    rewrite Hover. apply merge_walk_override; auto using split_not_nil.
    + rewrite Hjson'. apply merge_ok; [|exact Hjson].
      apply nested_ok. now destruct x.
    + rewrite Hjson'. apply Hnested.
Qed.

End ConfigProperties.

(** The setting [app.name] alone. *)
Lemma get_reads_created_dict_sample :
  get (_load_config str_truth
         (_create_nested_dict (lit "app.name") (text "Nix")) Empty Empty)
    (lit "app.name") VNone
  = text "Nix".
Proof.
  apply (@get_reads_created_dict str str_truth (lit "app.name") (text "Nix") VNone);
    [discriminate | reflexivity].
Defined.

(** The [.env] file of the sample merged into its [config.json], under
    the key [app], which both have. *)
Lemma merge_configs_lookup_sample :
  dict_get (_merge_configs sample_json_config sample_env_file_config) (lit "app")
  = match dict_get sample_env_file_config (lit "app") with
    | Some v =>
        match dict_get sample_json_config (lit "app"), v with
        | Some (VDict b), VDict o => Some (VDict (_merge_configs b o))
        | _, _ => Some v
        end
    | None => dict_get sample_json_config (lit "app")
    end
  /\ contains (_merge_configs sample_json_config sample_env_file_config) (lit "app")
     = contains sample_json_config (lit "app")
       || contains sample_env_file_config (lit "app").
Proof.
  apply (@merge_configs_lookup str sample_json_config sample_env_file_config
           (lit "app")).
  reflexivity.
Defined.

Lemma merge_configs_laws_sample :
  (forall override, dict_ok override = true ->
                    dict_ok (_merge_configs sample_json_config override) = true)
  /\ _merge_configs sample_json_config Empty = sample_json_config
  /\ _merge_configs Empty sample_json_config = sample_json_config
  /\ _merge_configs sample_json_config sample_json_config = sample_json_config.
Proof.
  apply (@merge_configs_laws str sample_json_config). reflexivity.
Defined.

(** The level of the log in the three sample sources: the environment
    has it, and the sample [config.json] does not set
    [CONFIG_OVERRIDE]. *)
Lemma load_config_precedence_sample :
  (truthy str_truth (config_override sample_manager) = false ->
   (gives sample_env_vars_config (lit "log.level") (text "DEBUG") ->
    get sample_manager (lit "log.level") VNone = text "DEBUG")
   /\ (silent sample_env_vars_config (lit "log.level") ->
       gives sample_env_file_config (lit "log.level") (text "DEBUG") ->
       get sample_manager (lit "log.level") VNone = text "DEBUG")
   /\ (silent sample_env_vars_config (lit "log.level") ->
       silent sample_env_file_config (lit "log.level") ->
       get sample_manager (lit "log.level") VNone
       = walk (VDict sample_json_config) (split 46%N (lit "log.level")) VNone))
  /\ (truthy str_truth (config_override sample_manager) = true ->
      (gives sample_json_config (lit "log.level") (text "DEBUG") ->
       get sample_manager (lit "log.level") VNone = text "DEBUG")
      /\ (silent sample_json_config (lit "log.level") ->
          gives sample_env_vars_config (lit "log.level") (text "DEBUG") ->
          get sample_manager (lit "log.level") VNone = text "DEBUG")
      /\ (silent sample_json_config (lit "log.level") ->
          silent sample_env_vars_config (lit "log.level") ->
          get sample_manager (lit "log.level") VNone
          = walk (VDict sample_env_file_config) (split 46%N (lit "log.level"))
              VNone)).
Proof.
  apply (@load_config_precedence str str_truth sample_json_config
           sample_env_file_config sample_env_vars_config (lit "log.level")
           (text "DEBUG") VNone);
    [reflexivity | reflexivity | reflexivity | discriminate].
Defined.

(** The name of the application set to a new one, and saved. *)
Lemma set_does_not_change_get_sample :
  (forall key' d,
     get (fst (set str_truth sample_manager (lit "app.name") (text "Nyx") true))
       key' d
     = get sample_manager key' d)
  /\ (forall d,
        walk (VDict (_json_config
                       (fst (set str_truth sample_manager (lit "app.name")
                               (text "Nyx") true))))
          (split 46%N (lit "app.name")) d = text "Nyx")
  /\ (truthy str_truth (config_override sample_manager) = false ->
      forall d,
        walk (VDict (_env_vars_config
                       (fst (set str_truth sample_manager (lit "app.name")
                               (text "Nyx") true))))
          (split 46%N (lit "app.name")) d = text "Nyx"
        /\ walk (VDict (_env_file_config
                          (fst (set str_truth sample_manager (lit "app.name")
                                  (text "Nyx") true))))
             (split 46%N (lit "app.name")) d = text "Nyx")
  /\ (truthy str_truth (config_override sample_manager) = true ->
      _env_vars_config
        (fst (set str_truth sample_manager (lit "app.name") (text "Nyx") true))
      = _env_vars_config sample_manager
      /\ _env_file_config
           (fst (set str_truth sample_manager (lit "app.name") (text "Nyx") true))
         = _env_file_config sample_manager)
  /\ (true = true ->
      In (SaveJsonConfig
            (_json_config
               (fst (set str_truth sample_manager (lit "app.name") (text "Nyx")
                       true))))
         (snd (set str_truth sample_manager (lit "app.name") (text "Nyx") true)))
  /\ (forall env_file env_vars d,
        truthy str_truth
          (config_override
             (_load_config str_truth
                (_json_config
                   (fst (set str_truth sample_manager (lit "app.name")
                           (text "Nyx") true)))
                env_file env_vars)) = true ->
        get (_load_config str_truth
               (_json_config
                  (fst (set str_truth sample_manager (lit "app.name")
                          (text "Nyx") true)))
               env_file env_vars) (lit "app.name") d = text "Nyx").
Proof.
  apply (@set_does_not_change_get str str_truth sample_manager (lit "app.name")
           (text "Nyx") true);
    [discriminate | reflexivity | reflexivity].
Defined.
